(** * opencode-vicoa: the reconciliation core of the plugin

    A shallow embedding of the pure and state-passing parts of the plugin
    (src/index.ts, src/plugin/control.ts, src/plugin/permission.ts,
    src/plugin/format-utils.ts) together with the properties the design
    document states about them.

    Conventions.
    - A JavaScript string is the list of its UTF-16 code units ([list N]);
      [js "text"] writes an ASCII literal.
    - A [Map] is a [gmap], a [Set] is a [gset], an array is a [list].
    - Module-level mutable bindings are threaded explicitly through the
      functions that read or write them.
    - Calls to the two collaborators (the terminal client and the remote
      client) are recorded in a trace, in the order they are issued. *)

From Stdlib Require Import ZArith NArith List Lia Bool.
From stdpp Require Import strings gmap list.

Local Open Scope N_scope.
Set Warnings "-clear-no-such-hyp".


(** ** JavaScript strings *)

Abbreviation jsstring := (list N).

(** An ASCII literal as a JavaScript string. *)
Fixpoint js (s : string) : jsstring :=
  match s with
  | EmptyString => []
  | String a r => Ascii.N_of_ascii a :: js r
  end.
Arguments js : simpl never.

(** Truthiness of a string value: every string but the empty one. *)
Definition truthy (s : jsstring) : bool :=
  match s with [] => false | _ :: _ => true end.

(** The code units [String.prototype.trim] strips: WhiteSpace and
    LineTerminator of ECMA-262 (TAB, LF, VT, FF, CR, SP, NBSP, the Zs
    category, LS, PS and ZWNBSP). *)
Definition isWhiteSpace (c : N) : bool :=
  ((9 <=? c) && (c <=? 13))
  || (c =? 32) || (c =? 160) || (c =? 5760)
  || ((8192 <=? c) && (c <=? 8202))
  || (c =? 8232) || (c =? 8233) || (c =? 8239) || (c =? 8287)
  || (c =? 12288) || (c =? 65279).

Fixpoint trimStart (s : jsstring) : jsstring :=
  match s with
  | [] => []
  | c :: r => if isWhiteSpace c then trimStart r else s
  end.

Definition trimEnd (s : jsstring) : jsstring := rev (trimStart (rev s)).

(** [s.trim()] *)
Definition trim (s : jsstring) : jsstring := trimEnd (trimStart s).

(** [s.replace(/\r\n/g, '\n')] *)
Fixpoint replaceCRLF (s : jsstring) : jsstring :=
  match s with
  | [] => []
  | c :: r =>
      match r with
      | d :: r' =>
          if (c =? 13) && (d =? 10) then 10 :: replaceCRLF r'
          else c :: replaceCRLF r
      | [] => [c]
      end
  end.

(** [array.indexOf(x)], with [None] for the result -1. *)
Fixpoint indexOf (x : jsstring) (l : list jsstring) : option nat :=
  match l with
  | [] => None
  | y :: r => if decide (y = x) then Some 0%nat else S <$> indexOf x r
  end.

(** Decimal digits, as the number grammars of [parseInt] and of JSON read
    them. *)
Definition isDigit (c : N) : bool := (48 <=? c) && (c <=? 57).

Fixpoint digitsPrefix (s : jsstring) : jsstring :=
  match s with
  | [] => []
  | c :: r => if isDigit c then c :: digitsPrefix r else []
  end.

Definition digitsValue (digits : jsstring) : Z :=
  fold_left (fun acc d => (10 * acc + (Z.of_N d - 48))%Z) digits 0%Z.

(** ** Echo suppression (src/index.ts) *)

Module EchoSuppressor.

Definition MAX_UI_MESSAGES : nat := 50.

(** [normalizeMessage] *)
Definition normalizeMessage (content : jsstring) : jsstring :=
  trim (replaceCRLF content).

(** [addUIMessage]: the argument [messagesFromUI] is the module-level
    buffer, the result its new contents.  [splice(0, 40)] removes the
    first 40 elements. *)
Definition addUIMessage (content : jsstring) (messagesFromUI : list jsstring)
  : list jsstring :=
  let pushed := messagesFromUI ++ [normalizeMessage content] in
  if (MAX_UI_MESSAGES <? length pushed)%nat then drop 40 pushed else pushed.

(** [isFromUI]: the returned pair is the boolean result and the new
    contents of the buffer.  [splice(index, 1)] removes one element. *)
Definition isFromUI (content : jsstring) (messagesFromUI : list jsstring)
  : bool * list jsstring :=
  let content := normalizeMessage content in
  match indexOf content messagesFromUI with
  | Some index => (true, delete index messagesFromUI)
  | None => (false, messagesFromUI)
  end.

(** What [addUIMessage] keeps of the old contents of the buffer. *)
Definition keptBy (messagesFromUI : list jsstring) : list jsstring :=
  if (MAX_UI_MESSAGES <? S (length messagesFromUI))%nat
  then drop 40 messagesFromUI else messagesFromUI.

(** Recording a sequence of texts, oldest first. *)
Definition addAll (texts : list jsstring) (messagesFromUI : list jsstring)
  : list jsstring :=
  foldl (fun buf t => addUIMessage t buf) messagesFromUI texts.

(** Fifty-one distinct one-letter texts. *)
Definition texts51 : list jsstring :=
  map (fun i => [N.of_nat i]) (seq 65 51).

End EchoSuppressor.

(** ** Registry of forwarded assistant message ids (src/index.ts) *)

Module SentMessageTracker.

Definition MAX_SENT_MESSAGE_IDS : nat := 200.

(** The pair [sentAssistantMessageIds], [sentAssistantMessageQueue]. *)
Record t := mk {
  ids : gset jsstring;
  queue : list jsstring;
}.

Definition empty : t := {| ids := ∅; queue := [] |}.

(** [trackSentMessage(set, queue, messageId)].  [queue.shift()] removes
    and returns the first element, [undefined] on an empty array; the
    test [if (evicted)] is the truthiness of that result. *)
Definition trackSentMessage (st : t) (messageId : jsstring) : t :=
  if decide (messageId ∈ ids st) then st
  else
    let set1 := {[messageId]} ∪ ids st in
    let queue1 := queue st ++ [messageId] in
    if (MAX_SENT_MESSAGE_IDS <? length queue1)%nat then
      match queue1 with
      | evicted :: rest =>
          if truthy evicted
          then {| ids := set1 ∖ {[evicted]}; queue := rest |}
          else {| ids := set1; queue := rest |}
      | [] => {| ids := set1; queue := [] |}
      end
    else {| ids := set1; queue := queue1 |}.

(** [set.has(messageId)] *)
Definition has (st : t) (messageId : jsstring) : bool :=
  bool_decide (messageId ∈ ids st).

(** Tracking a sequence of ids, first to last. *)
Definition trackAll (messageIds : list jsstring) (st : t) : t :=
  foldl trackSentMessage st messageIds.

(** The entries of the queue of [st] that tracking [messageId] removed. *)
Definition evictedBy (st : t) (messageId : jsstring) : list jsstring :=
  filter (fun x => x ∉ queue (trackSentMessage st messageId)) (queue st).

(** The set and the queue hold the same ids. *)
Definition inSync (st : t) : Prop := ∀ x, x ∈ ids st ↔ x ∈ queue st.

(** Neither holds more than the maximum. *)
Definition bounded (st : t) : Prop :=
  (size (ids st) ≤ MAX_SENT_MESSAGE_IDS)%nat
  ∧ (length (queue st) ≤ MAX_SENT_MESSAGE_IDS)%nat.

Definition invariant (st : t) : Prop :=
  inSync st ∧ NoDup (queue st) ∧ bounded st.

(** Two hundred distinct non-empty ids, a registry that tracked them in
    order, and an id that is not among them. *)
Definition ids200 : list jsstring := map (fun i => [N.of_nat i]) (seq 1 200).
Definition fullRegistry : t := trackAll ids200 empty.
Definition freshId : jsstring := [201].

End SentMessageTracker.

(** ** Rendering of message parts (src/plugin/format-utils.ts) *)

Module Format.

(** [text.slice(0, maxLength)] for a non-negative [maxLength]. *)
Definition truncateText (text : jsstring) (maxLength : nat) : jsstring :=
  if (length text <=? maxLength)%nat then text
  else take maxLength text ++ js "...".

(** [formatReasoningPart], on the [text] field of the part. *)
Definition formatReasoningPart (text : jsstring) : jsstring :=
  if negb (truthy text) then []
  else js "[Thinking: " ++ truncateText text 200 ++ js "]".

(** [s.startsWith(prefix)] *)
Fixpoint startsWith (s prefix : jsstring) : bool :=
  match prefix, s with
  | [], _ => true
  | p :: prefix', c :: s' => (c =? p) && startsWith s' prefix'
  | _ :: _, [] => false
  end.

(** The fields of a [FilePart] the plugin reads when it accumulates
    parts. *)
Record FilePart := {
  mime : option jsstring;
  url : jsstring;
  filename : option jsstring;
}.

(** [part.mime?.startsWith('image/') && part.url], as a condition. *)
Definition isImageWithUrl (part : FilePart) : bool :=
  match mime part with
  | Some m => startsWith m (js "image/") && truthy (url part)
  | None => false
  end.

(** [formatFilePart] where [isImageWithUrl] holds, which is its first
    [return]; the accumulator calls it under that very condition. *)
Definition formatFilePart_image (part : FilePart) : jsstring :=
  let altText := default (js "image") (filename part) in
  js "![" ++ altText ++ js "](" ++ url part ++ js ")".

End Format.

(** ** Accumulation of message parts (src/index.ts) *)

Module MessageParts.

Record MessagePartsState := {
  order : list jsstring;
  parts : gmap jsstring jsstring;
  textByPartId : gmap jsstring jsstring;
}.

Definition emptyState : MessagePartsState :=
  {| order := []; parts := ∅; textByPartId := ∅ |}.

(** What [handlePartUpdate] reads of a part, by its [type]. *)
Inductive PartBody :=
| PText (text : jsstring)
| PFile (file : Format.FilePart)
| PPatch
| PReasoning (text : jsstring)
| POther.

(** [messageID] is [None] when the part has no such field. *)
Record Part := {
  id : jsstring;
  messageID : option jsstring;
  body : PartBody;
}.

(** [array.join(separator)] *)
Fixpoint join (sep : jsstring) (l : list jsstring) : jsstring :=
  match l with
  | [] => []
  | [x] => x
  | x :: r => x ++ sep ++ join sep r
  end.

(** [setPartContent(state, partId, content)] *)
Definition setPartContent (state : MessagePartsState) (partId content : jsstring)
  : MessagePartsState :=
  let order1 :=
    if bool_decide (partId ∈ order state) then order state
    else order state ++ [partId] in
  if negb (truthy content)
  then {| order := order1; parts := delete partId (parts state);
          textByPartId := textByPartId state |}
  else {| order := order1; parts := <[partId := content]> (parts state);
          textByPartId := textByPartId state |}.

(** [formatFilePartSafe] and [formatReasoningPartSafe]: the formatters
    they guard throw on no input, so the [catch] branches are dead. *)
Definition formatFilePartSafe := Format.formatFilePart_image.
Definition formatReasoningPartSafe := Format.formatReasoningPart.

(** The [switch (part.type)] of [handlePartUpdate], on the state of the
    part's message. *)
Definition updateState (state : MessagePartsState) (part : Part)
    (delta : option jsstring) : MessagePartsState :=
  match body part with
  | PText text =>
      let currentText := default [] (textByPartId state !! id part) in
      let nextText :=
        match delta with
        | Some d => currentText ++ d
        | None => if truthy text then text else currentText
        end in
      let state1 :=
        {| order := order state; parts := parts state;
           textByPartId := <[id part := nextText]> (textByPartId state) |} in
      setPartContent state1 (id part) nextText
  | PFile file =>
      if Format.isImageWithUrl file
      then setPartContent state (id part) (formatFilePartSafe file)
      else state
  | PPatch => state
  | PReasoning text =>
      setPartContent state (id part) (formatReasoningPartSafe text)
  | POther => state
  end.

(** [getMessageState(messageId)]: the state of the message, created and
    registered when absent.  The caller mutates the object it gets, so
    the registry is returned with it. *)
Definition getMessageState (messageId : jsstring)
    (messagePartsById : gmap jsstring MessagePartsState)
  : MessagePartsState * gmap jsstring MessagePartsState :=
  match messagePartsById !! messageId with
  | Some state => (state, messagePartsById)
  | None => (emptyState, <[messageId := emptyState]> messagePartsById)
  end.

(** [handlePartUpdate(part, delta)]: the new contents of
    [messagePartsById]. *)
Definition handlePartUpdate (part : Part) (delta : option jsstring)
    (messagePartsById : gmap jsstring MessagePartsState)
  : gmap jsstring MessagePartsState :=
  match messageID part with
  | None => messagePartsById
  | Some messageId =>
      if negb (truthy messageId) then messagePartsById
      else
        let '(state, registry) := getMessageState messageId messagePartsById in
        <[messageId := updateState state part delta]> registry
  end.

(** [buildMessageContent(messageId)]; the separator of the [join] is two
    line feeds. *)
Definition buildMessageContent (messageId : jsstring)
    (messagePartsById : gmap jsstring MessagePartsState) : jsstring :=
  match messagePartsById !! messageId with
  | None => []
  | Some state =>
      let rendered := map (fun partId => parts state !! partId) (order state) in
      let kept :=
        omap (fun part =>
                match part with
                | Some p =>
                    if truthy p && (0 <? length (trim p))%nat
                    then Some p else None
                | None => None
                end) rendered in
      trim (join [10; 10] kept)
  end.

(** The running text of a part, [state.textByPartId.get(partId)], in the
    state of message [messageId]. *)
Definition accumulatedText (messageId partId : jsstring)
    (messagePartsById : gmap jsstring MessagePartsState) : option jsstring :=
  state ← messagePartsById !! messageId; textByPartId state !! partId.

(** A text part event of message [messageId]. *)
Definition textPart (messageId partId text : jsstring) : Part :=
  {| id := partId; messageID := Some messageId; body := PText text |}.

(** The rendered parts of a message are all blank: none has content left
    after trimming.  It holds of a message without state as well. *)
Definition allPartsBlank (messageId : jsstring)
    (messagePartsById : gmap jsstring MessagePartsState) : Prop :=
  ∀ state partId p,
    messagePartsById !! messageId = Some state →
    partId ∈ order state →
    parts state !! partId = Some p →
    trim p = [].

End MessageParts.

(** ** Forwarding of completed assistant messages (src/index.ts) *)

Module Orchestrator.

Inductive Role := user | assistant.

(** What the [message.updated] handler reads of [event.properties.info].
    [completed] is [message.time?.completed], a time stamp. *)
Record Message := {
  id : jsstring;
  role : Role;
  agent : option jsstring;
  completed : option N;
}.

(** The module-level bindings the handler reads and writes. *)
Record State := {
  tuiCurrentAgent : option jsstring;
  preferredAgent : option jsstring;
  messagePartsById : gmap jsstring MessageParts.MessagePartsState;
  sent : SentMessageTracker.t;
}.

(** Calls on the remote client, as the handler issues them:
    [vicoaClient.sendMessage(content)] and [sendAgentSwitchToUi], whose
    body is one [sendMessage] of a notice built from the agent name. *)
Inductive RemoteCall :=
| SendMessage (content : jsstring)
| SendAgentSwitchToUi (agentName : jsstring).

(** Truthiness of [message.time?.completed]. *)
Definition isCompleted (message : Message) : bool :=
  match completed message with
  | Some t => negb (t =? 0)
  | None => false
  end.

(** The first half of the handler: a user message carries the agent the
    terminal used. *)
Definition trackReportedAgent (message : Message) (st : State)
  : State * list RemoteCall :=
  match role message, agent message with
  | user, Some reportedAgent =>
      if truthy reportedAgent then
        let previousAgent := tuiCurrentAgent st in
        ({| tuiCurrentAgent := Some reportedAgent;
            preferredAgent := Some reportedAgent;
            messagePartsById := messagePartsById st;
            sent := sent st |},
         if decide (previousAgent = Some reportedAgent) then []
         else [SendAgentSwitchToUi reportedAgent])
      else (st, [])
  | _, _ => (st, [])
  end.

(** [case 'message.updated']: the new state and the calls issued on the
    remote client, in order.  [sendMessage] catches its own failures, so
    the tracking that follows it always runs. *)
Definition onMessageUpdated (message : Message) (st : State)
  : State * list RemoteCall :=
  let '(st1, calls1) := trackReportedAgent message st in
  match role message with
  | user => (st1, calls1)
  | assistant =>
      if negb (isCompleted message) then (st1, calls1)
      else
        let trimmedText :=
          MessageParts.buildMessageContent (id message) (messagePartsById st1) in
        let registry := delete (id message) (messagePartsById st1) in
        if (0 <? length trimmedText)%nat
           && negb (SentMessageTracker.has (sent st1) (id message))
        then
          ({| tuiCurrentAgent := tuiCurrentAgent st1;
              preferredAgent := preferredAgent st1;
              messagePartsById := registry;
              sent := SentMessageTracker.trackSentMessage (sent st1) (id message) |},
           calls1 ++ [SendMessage trimmedText])
        else
          ({| tuiCurrentAgent := tuiCurrentAgent st1;
              preferredAgent := preferredAgent st1;
              messagePartsById := registry;
              sent := sent st1 |},
           calls1)
  end.

(** The state the plugin starts in. *)
Definition initial : State :=
  {| tuiCurrentAgent := None; preferredAgent := None;
     messagePartsById := ∅; sent := SentMessageTracker.empty |}.

(** The events of the message stream.  A [message.part.updated] event
    for a tool part is kept apart, as the handler does: [terminal] says
    that its status is completed or error, [formatted] is what
    [formatToolPartSafe] renders for it. *)
Inductive Event :=
| ToolPartUpdated (terminal : bool) (formatted : jsstring)
| PartUpdated (part : MessageParts.Part) (delta : option jsstring)
| MessageUpdated (message : Message).

(** The [event] hook on these events. *)
Definition handleEvent (event : Event) (st : State) : State * list RemoteCall :=
  match event with
  | ToolPartUpdated terminal formatted =>
      (st, if terminal && truthy formatted then [SendMessage formatted] else [])
  | PartUpdated part delta =>
      ({| tuiCurrentAgent := tuiCurrentAgent st;
          preferredAgent := preferredAgent st;
          messagePartsById :=
            MessageParts.handlePartUpdate part delta (messagePartsById st);
          sent := sent st |},
       [])
  | MessageUpdated message => onMessageUpdated message st
  end.

(** The state after a sequence of events, first to last. *)
Definition run (events : list Event) (st : State) : State :=
  foldl (fun s e => (handleEvent e s).1) st events.

(** An assistant message reported as completed. *)
Definition completedAssistant (messageId : jsstring) : Message :=
  {| id := messageId; role := assistant; agent := None; completed := Some 1 |}.

(** A state in which message [msg_1] has one text part, a single space. *)
Definition blankState : State :=
  (handleEvent
     (PartUpdated (MessageParts.textPart (js "msg_1") (js "prt_1") (js " ")) None)
     initial).1.

End Orchestrator.

(** ** Cycling the terminal's agent indicator (src/plugin/control.ts) *)

Module Control.

(** An entry of the list [client.app.agents()] returns. *)
Record Agent := {
  name : jsstring;
  mode : option jsstring;
  hidden : option bool;
}.

(** The terminal client, as far as [cycleTuiToAgent] uses it.
    [app_agents] is the list the request yields, [None] when it throws
    or yields no list.
    [tui_completes issued command] tells whether executing [command]
    after the commands [issued] completes; otherwise it throws. *)
Record Client := {
  app_agents : option (list Agent);
  tui_completes : list jsstring -> jsstring -> bool;
}.

(** The filter [a.mode !== 'subagent' && !a.hidden]. *)
Definition isPrimary (a : Agent) : bool :=
  negb (bool_decide (mode a = Some (js "subagent")))
  && negb (default false (hidden a)).

(** [array.findIndex(pred)], with [None] for the result -1. *)
Fixpoint findIndex {A} (pred : A -> bool) (l : list A) : option nat :=
  match l with
  | [] => None
  | x :: r => if pred x then Some 0%nat else S <$> findIndex pred r
  end.

(** Lines 51 to 60 of [cycleTuiToAgent]: the step count, [None] where
    the function returns [false] before it computes one.  [Z.rem] is
    the remainder operator of JavaScript. *)
Definition stepsTo (primaryAgents : list Agent) (targetAgent : jsstring)
    (currentAgent : option jsstring) : option Z :=
  match findIndex (fun a => bool_decide (name a = targetAgent)) primaryAgents with
  | None => None
  | Some targetIdx =>
      let currentName :=
        match currentAgent with
        | Some c => Some c
        | None => name <$> head primaryAgents
        end in
      match findIndex (fun a => bool_decide (Some (name a) = currentName))
                      primaryAgents with
      | None => None
      | Some currentIdx =>
          let len := Z.of_nat (length primaryAgents) in
          Some (Z.rem (Z.of_nat targetIdx - Z.of_nat currentIdx + len) len)
      end
  end.

(** [executeTuiCommand(client, command)]: the command is recorded as
    issued whether or not it completes. *)
Definition executeTuiCommand (client : Client) (command : jsstring)
    (issued : list jsstring) : bool * list jsstring :=
  (tui_completes client issued command, issued ++ [command]).

(** The loop [for (let i = 0; i < steps; i++)], on the iterations left. *)
Fixpoint cycleLoop (client : Client) (remaining : nat) (issued : list jsstring)
  : bool * list jsstring :=
  match remaining with
  | O => (true, issued)
  | S k =>
      let '(completed, issued1) :=
        executeTuiCommand client (js "agent.cycle") issued in
      if completed then cycleLoop client k issued1 else (false, issued1)
  end.

(** [cycleTuiToAgent(client, targetAgent, currentAgent)]: the result and
    the commands issued on the terminal, after those in [issued]. *)
Definition cycleTuiToAgent (client : Client) (targetAgent : jsstring)
    (currentAgent : option jsstring) (issued : list jsstring)
  : bool * list jsstring :=
  match app_agents client with
  | None => (false, issued)
  | Some allAgents =>
      let primaryAgents := filter (fun a => isPrimary a = true) allAgents in
      match stepsTo primaryAgents targetAgent currentAgent with
      | None => (false, issued)
      | Some steps => cycleLoop client (Z.to_nat steps) issued
      end
  end.

(** [i] is the index of the first agent of the list named [n]. *)
Definition isIndexOf (agents : list Agent) (n : jsstring) (i : nat) : Prop :=
  (∃ a, agents !! i = Some a ∧ name a = n)
  ∧ ∀ k a, (k < i)%nat → agents !! k = Some a → name a ≠ n.

(** An agent the terminal lists among those it cycles through. *)
Definition primary (n : string) : Agent :=
  {| name := js n; mode := None; hidden := None |}.

(** A terminal that lists [agents] and on which every command completes. *)
Definition steadyClient (agents : list Agent) : Client :=
  {| app_agents := Some agents; tui_completes := fun _ _ => true |}.

End Control.

(** ** Matching a reply against permission options
       (src/plugin/permission.ts) *)

Module Permission.

Inductive Response := once | always | reject.

Record PermissionOption := {
  label : jsstring;
  response : Response;
}.

Definition DEFAULT_PERMISSION_OPTIONS : list PermissionOption :=
  [ {| label := js "Allow"; response := once |};
    {| label := js "Allow always"; response := always |};
    {| label := js "Reject"; response := reject |} ].

(** Lower case of an ASCII code unit. *)
Definition asciiLower (c : N) : N :=
  if (65 <=? c) && (c <=? 90) then c + 32 else c.

Definition isAscii (c : N) : bool := c <? 128.

(** [Number.parseInt(s, 10)], [None] for NaN: leading white space, an
    optional sign, then the longest run of decimal digits; what follows
    the digits is ignored.  The result is kept exact: the caller only
    compares it with an array length and indexes with it, and rounding
    to a double changes neither. *)
Definition parseInt10 (s : jsstring) : option Z :=
  let s1 := trimStart s in
  let '(sign, s2) :=
    match s1 with
    | c :: r =>
        if c =? 45 then ((-1)%Z, r)
        else if c =? 43 then (1%Z, r)
        else (1%Z, s1)
    | [] => (1%Z, s1)
    end in
  match digitsPrefix s2 with
  | [] => None
  | digits => Some (sign * digitsValue digits)%Z
  end.

(** Case folding of a regular expression with the flag [i] and without
    the flag [u], on the code units that can equal a folded ASCII
    letter or digit: a code unit above 127 never folds into ASCII. *)
Definition canonicalize (c : N) : N :=
  if (97 <=? c) && (c <=? 122) then c - 32 else c.

(** [/^(a1|a2|...)$/i.test(s)] for alternatives that are plain ASCII
    words. *)
Definition testAnyOf (alternatives : list jsstring) (s : jsstring) : bool :=
  existsb (fun alt => bool_decide (map canonicalize alt = map canonicalize s))
          alternatives.

Definition affirmativeWords : list jsstring :=
  [js "allow"; js "yes"; js "y"; js "ok"; js "approve"; js "1"].
Definition persistenceWords : list jsstring :=
  [js "always"; js "forever"; js "permanent"; js "2"].
Definition negativeWords : list jsstring :=
  [js "reject"; js "no"; js "n"; js "deny"; js "cancel"; js "3"].

Section WithCaseTable.

(** [String.prototype.toLowerCase].  The Unicode case table is not
    part of the program; the examples need it on ASCII text only. *)
Variable toLowerCase : jsstring -> jsstring.

(** The loop [for (const opt of options)] with its early return. *)
Fixpoint matchLabel (trimmed : jsstring) (options : list PermissionOption)
  : option Response :=
  match options with
  | [] => None
  | opt :: rest =>
      if decide (toLowerCase (label opt) = trimmed) then Some (response opt)
      else matchLabel trimmed rest
  end.

(** The numeric match: [Some] where the function returns from it.  Under
    the range test the index is within the list, so [options[num - 1]]
    is an option. *)
Definition matchNumber (trimmed : jsstring) (options : list PermissionOption)
  : option Response :=
  match parseInt10 trimmed with
  | Some num =>
      if ((1 <=? num) && (num <=? Z.of_nat (length options)))%Z
      then response <$> options !! Z.to_nat (num - 1)
      else None
  | None => None
  end.

(** The three keyword tests, in order. *)
Definition matchKeyword (trimmed : jsstring) : option Response :=
  if testAnyOf affirmativeWords trimmed then Some once
  else if testAnyOf persistenceWords trimmed then Some always
  else if testAnyOf negativeWords trimmed then Some reject
  else None.

(** [parsePermissionReply(userReply, options)], [None] for [null]. *)
Definition parsePermissionReply (userReply : jsstring)
    (options : list PermissionOption) : option Response :=
  let trimmed := toLowerCase (trim userReply) in
  match matchLabel trimmed options with
  | Some r => Some r
  | None =>
      match matchNumber trimmed options with
      | Some r => Some r
      | None => matchKeyword trimmed
      end
  end.

End WithCaseTable.

(** A decimal numeral and the number it denotes: one digit, or a numeral
    with a digit behind it. *)
Inductive isNumeral : jsstring -> Z -> Prop :=
| numeral_digit (d : N) :
    48 ≤ d ∧ d ≤ 57 -> isNumeral [d] (Z.of_N d - 48)
| numeral_snoc (s : jsstring) (n : Z) (d : N) :
    isNumeral s n -> 48 ≤ d ∧ d ≤ 57 ->
    isNumeral (s ++ [d]) (10 * n + (Z.of_N d - 48)).

(** The text is an integer written out: a numeral, with a sign in front
    or without. *)
Definition isInteger (s : jsstring) (k : Z) : Prop :=
  ∃ digits n,
    isNumeral digits n
    ∧ ((s = digits ∧ k = n)
       ∨ (s = 43 :: digits ∧ k = n)
       ∨ (s = 45 :: digits ∧ k = (- n)%Z)).

(** The text starts with an integer: white space, then an integer
    written out, then anything that does not go on with a digit. *)
Definition startsWithInteger (s : jsstring) (k : Z) : Prop :=
  ∃ blank front rest,
    s = blank ++ front ++ rest
    ∧ Forall (fun c => isWhiteSpace c = true) blank
    ∧ isInteger front k
    ∧ ∀ c, head rest = Some c → ¬ (48 ≤ c ∧ c ≤ 57).

(** The policy of the design document, rule by rule, for a reply whose
    trimmed lower-case form is [trimmed].  [readsAs trimmed k] says that
    the reply parses as the integer [k]. *)
Section Policy.
Variable toLowerCase : jsstring -> jsstring.
Variable readsAs : jsstring -> Z -> Prop.

Definition labelMatches (trimmed : jsstring) (opt : PermissionOption) : Prop :=
  toLowerCase (label opt) = trimmed.

(** Rule 1 selects the first option, in list order, whose label
    matches. *)
Definition selectedByLabel (trimmed : jsstring)
    (options : list PermissionOption) (r : Response) : Prop :=
  ∃ before opt after,
    options = before ++ opt :: after
    ∧ labelMatches trimmed opt
    ∧ Forall (fun o => ¬ labelMatches trimmed o) before
    ∧ r = response opt.

(** Rule 2 selects option [k], counted from 1. *)
Definition selectedByNumber (trimmed : jsstring)
    (options : list PermissionOption) (r : Response) : Prop :=
  ∃ k opt,
    readsAs trimmed k
    ∧ (1 ≤ k ≤ Z.of_nat (length options))%Z
    ∧ options !! Z.to_nat (k - 1) = Some opt
    ∧ r = response opt.

(** Rule 3 selects by keyword class. *)
Definition selectedByKeyword (trimmed : jsstring) (r : Response) : Prop :=
  (trimmed ∈ affirmativeWords ∧ r = once)
  ∨ (trimmed ∈ persistenceWords ∧ r = always)
  ∨ (trimmed ∈ negativeWords ∧ r = reject).

Definition noLabelMatches (trimmed : jsstring)
    (options : list PermissionOption) : Prop :=
  Forall (fun o => ¬ labelMatches trimmed o) options.

Definition noNumberMatches (trimmed : jsstring)
    (options : list PermissionOption) : Prop :=
  ∀ k, readsAs trimmed k → ¬ (1 ≤ k ≤ Z.of_nat (length options))%Z.

Definition noKeywordMatches (trimmed : jsstring) : Prop :=
  trimmed ∉ affirmativeWords ++ persistenceWords ++ negativeWords.

(** First match wins. *)
Definition policyReading (userReply : jsstring)
    (options : list PermissionOption) (result : option Response) : Prop :=
  let trimmed := toLowerCase (trim userReply) in
  (∀ r, selectedByLabel trimmed options r → result = Some r)
  ∧ (noLabelMatches trimmed options →
     ∀ r, selectedByNumber trimmed options r → result = Some r)
  ∧ (noLabelMatches trimmed options → noNumberMatches trimmed options →
     ∀ r, selectedByKeyword trimmed r → result = Some r)
  ∧ (noLabelMatches trimmed options → noNumberMatches trimmed options →
     noKeywordMatches trimmed → result = None).
End Policy.

(** The policy as the design document words it: rule 2 is for a reply
    that is an integer. *)
Definition claimedPolicy (toLowerCase : jsstring -> jsstring) :=
  policyReading toLowerCase isInteger.

(** The policy as the code has it: rule 2 is for a reply that starts with
    an integer, whatever follows it. *)
Definition policy (toLowerCase : jsstring -> jsstring) :=
  policyReading toLowerCase startsWithInteger.

(** What the case table is known to do: on ASCII text it lowers the
    letters A to Z and keeps the rest, and no text has a capital ASCII
    letter left after it. *)
Definition lowersAscii (toLowerCase : jsstring -> jsstring) : Prop :=
  ∀ s, Forall (fun c => isAscii c = true) s → toLowerCase s = map asciiLower s.

Definition isCapital (c : N) : Prop := 65 ≤ c ∧ c ≤ 90.

Definition leavesNoCapital (toLowerCase : jsstring -> jsstring) : Prop :=
  ∀ s, Forall (fun c => ¬ isCapital c) (toLowerCase s).

(** The case table cut down to ASCII: other code units are kept. *)
Definition asciiToLowerCase (s : jsstring) : jsstring := map asciiLower s.

End Permission.

(** ** JSON.parse, as far as the control parser observes its result *)

Module Json.

(** A number literal: sign, the digits of the integer and fraction parts
    read as one integer, and the decimal exponent left after the
    fraction is absorbed; its value is [mantissa * 10 ^ exponent]. *)
Record Number := {
  negative : bool;
  mantissa : Z;
  exponent : Z;
}.

(** An object keeps its members in source order, duplicates included. *)
#[warnings="-register-all"] Inductive value :=
| JNull
| JBool (b : bool)
| JNumber (n : Number)
| JString (s : jsstring)
| JArray (items : list value)
| JObject (members : list (jsstring * value)).

(** Outcome of a parsing function: a result with the rest of the input,
    a syntax error, or exhausted fuel. *)
Inductive result (A : Type) :=
| Ok (a : A) (rest : jsstring)
| SyntaxError
| OutOfFuel.
Arguments Ok {A} a rest.
Arguments SyntaxError {A}.
Arguments OutOfFuel {A}.

Definition bind {A B} (m : result A) (k : A -> jsstring -> result B) : result B :=
  match m with
  | Ok a rest => k a rest
  | SyntaxError => SyntaxError
  | OutOfFuel => OutOfFuel
  end.

Notation "'let*' ( a , rest ) := m 'in' k" :=
  (bind m (fun a rest => k))
  (at level 10, a name, rest name, m at level 100, k at level 200).

(** White space between tokens: TAB, LF, CR and SP. *)
Definition isJsonSpace (c : N) : bool :=
  (c =? 9) || (c =? 10) || (c =? 13) || (c =? 32).

Fixpoint skipSpace (s : jsstring) : jsstring :=
  match s with
  | [] => []
  | c :: r => if isJsonSpace c then skipSpace r else s
  end.

(** [expect word s]: [s] without its prefix [word]. *)
Fixpoint expect (word s : jsstring) : option jsstring :=
  match word, s with
  | [], _ => Some s
  | w :: word', c :: s' => if c =? w then expect word' s' else None
  | _ :: _, [] => None
  end.

Definition parseLiteral (s : jsstring) : result value :=
  match expect (js "true") s with
  | Some rest => Ok (JBool true) rest
  | None =>
      match expect (js "false") s with
      | Some rest => Ok (JBool false) rest
      | None =>
          match expect (js "null") s with
          | Some rest => Ok JNull rest
          | None => SyntaxError
          end
      end
  end.

Definition hexDigit (c : N) : option N :=
  if (48 <=? c) && (c <=? 57) then Some (c - 48)
  else if (65 <=? c) && (c <=? 70) then Some (c - 55)
  else if (97 <=? c) && (c <=? 102) then Some (c - 87)
  else None.

(** The code unit a two-character escape stands for. *)
Definition simpleEscape (c : N) : option N :=
  if c =? 34 then Some 34         (* quotation mark *)
  else if c =? 92 then Some 92    (* reverse solidus *)
  else if c =? 47 then Some 47    (* solidus *)
  else if c =? 98 then Some 8     (* b *)
  else if c =? 102 then Some 12   (* f *)
  else if c =? 110 then Some 10   (* n *)
  else if c =? 114 then Some 13   (* r *)
  else if c =? 116 then Some 9    (* t *)
  else None.

(** The characters of a string after its opening quotation mark, up to
    and including the closing one; [acc] holds the code units read so
    far, last first. *)
Fixpoint parseChars (s : jsstring) (acc : jsstring) : result jsstring :=
  match s with
  | [] => SyntaxError
  | c :: r =>
      if c =? 34 then Ok (rev acc) r
      else if c =? 92 then
        match r with
        | [] => SyntaxError
        | e :: r1 =>
            if e =? 117 then
              match r1 with
              | h1 :: h2 :: h3 :: h4 :: r2 =>
                  match hexDigit h1, hexDigit h2, hexDigit h3, hexDigit h4 with
                  | Some d1, Some d2, Some d3, Some d4 =>
                      parseChars r2 (((d1 * 16 + d2) * 16 + d3) * 16 + d4 :: acc)
                  | _, _, _, _ => SyntaxError
                  end
              | _ => SyntaxError
              end
            else
              match simpleEscape e with
              | Some u => parseChars r1 (u :: acc)
              | None => SyntaxError
              end
        end
      else if c <? 32 then SyntaxError
      else parseChars r (c :: acc)
  end.

(** A number literal: [-]? int frac? exp?, where int is [0] or a run of
    digits that does not start with [0]. *)
Definition parseNumber (s : jsstring) : result Number :=
  let '(neg, s1) :=
    match s with
    | c :: r => if c =? 45 then (true, r) else (false, s)
    | [] => (false, s)
    end in
  let intDigits :=
    match s1 with
    | c :: _ => if c =? 48 then [c] else digitsPrefix s1
    | [] => []
    end in
  match intDigits with
  | [] => SyntaxError
  | _ =>
      let s2 := drop (length intDigits) s1 in
      let fraction :=
        match s2 with
        | c :: r => if c =? 46 then Some (digitsPrefix r) else None
        | [] => None
        end in
      match fraction with
      | Some [] => SyntaxError
      | _ =>
          let fracDigits := default [] fraction in
          let s3 :=
            match fraction with
            | Some ds => drop (S (length ds)) s2
            | None => s2
            end in
          let mant := digitsValue (intDigits ++ fracDigits) in
          let shift := Z.of_nat (length fracDigits) in
          match s3 with
          | c :: r =>
              if (c =? 101) || (c =? 69) then
                let '(expNeg, r1) :=
                  match r with
                  | d :: r' =>
                      if d =? 45 then (true, r')
                      else if d =? 43 then (false, r')
                      else (false, r)
                  | [] => (false, r)
                  end in
                match digitsPrefix r1 with
                | [] => SyntaxError
                | expDigits =>
                    let e := digitsValue expDigits in
                    Ok {| negative := neg; mantissa := mant;
                          exponent := ((if expNeg then - e else e) - shift)%Z |}
                       (drop (length expDigits) r1)
                end
              else
                Ok {| negative := neg; mantissa := mant; exponent := (- shift)%Z |} s3
          | [] =>
              Ok {| negative := neg; mantissa := mant; exponent := (- shift)%Z |} s3
          end
      end
  end.

(** The value grammar.  Every call consumes one unit of fuel;
    [parseElements] and [parseMembers] read the rest of an array or an
    object whose items so far are in [acc], last first. *)
Fixpoint parseValue (fuel : nat) (s : jsstring) : result value :=
  match fuel with
  | O => OutOfFuel
  | S fuel' =>
      match skipSpace s with
      | [] => SyntaxError
      | c :: r =>
          if c =? 123 then
            match skipSpace r with
            | d :: r1 =>
                if d =? 125 then Ok (JObject []) r1
                else parseMembers fuel' r []
            | [] => SyntaxError
            end
          else if c =? 91 then
            match skipSpace r with
            | d :: r1 =>
                if d =? 93 then Ok (JArray []) r1
                else parseElements fuel' r []
            | [] => SyntaxError
            end
          else if c =? 34 then
            let* (str, rest) := parseChars r [] in Ok (JString str) rest
          else if (c =? 45) || isDigit c then
            let* (n, rest) := parseNumber (c :: r) in Ok (JNumber n) rest
          else parseLiteral (c :: r)
      end
  end
with parseElements (fuel : nat) (s : jsstring) (acc : list value) : result value :=
  match fuel with
  | O => OutOfFuel
  | S fuel' =>
      let* (v, rest) := parseValue fuel' s in
      match skipSpace rest with
      | d :: r1 =>
          if d =? 44 then parseElements fuel' r1 (v :: acc)
          else if d =? 93 then Ok (JArray (rev (v :: acc))) r1
          else SyntaxError
      | [] => SyntaxError
      end
  end
with parseMembers (fuel : nat) (s : jsstring) (acc : list (jsstring * value))
  : result value :=
  match fuel with
  | O => OutOfFuel
  | S fuel' =>
      match skipSpace s with
      | q :: r =>
          if q =? 34 then
            let* (key, rest) := parseChars r [] in
            match skipSpace rest with
            | colon :: r1 =>
                if colon =? 58 then
                  let* (v, rest1) := parseValue fuel' r1 in
                  match skipSpace rest1 with
                  | d :: r2 =>
                      if d =? 44 then parseMembers fuel' r2 ((key, v) :: acc)
                      else if d =? 125 then Ok (JObject (rev ((key, v) :: acc))) r2
                      else SyntaxError
                  | [] => SyntaxError
                  end
                else SyntaxError
            | [] => SyntaxError
            end
          else SyntaxError
      | [] => SyntaxError
      end
  end.

(** Fuel that no input exhausts (see [parse_never_out_of_fuel]). *)
Definition fuelFor (text : jsstring) : nat := 2 * length text + 2.

(** [JSON.parse(text)], [None] where it throws a [SyntaxError]: one
    value, then nothing but white space. *)
Definition parse (text : jsstring) : option value :=
  match parseValue (fuelFor text) text with
  | Ok v rest =>
      match skipSpace rest with
      | [] => Some v
      | _ :: _ => None
      end
  | _ => None
  end.

(** The number rounds to zero as a double, under round-to-nearest: it
    is zero, or at most half the least positive double, [2 ^ -1075]. *)
Definition roundsToZero (n : Number) : bool :=
  ((mantissa n =? 0)
   || ((exponent n <? 0)
       && (mantissa n * 2 ^ 1075 <=? 10 ^ (- exponent n))))%Z.

(** Truthiness of a parsed value. *)
Definition isTruthy (v : value) : bool :=
  match v with
  | JNull => false
  | JBool b => b
  | JNumber n => negb (roundsToZero n)
  | JString s => truthy s
  | JArray _ => true
  | JObject _ => true
  end.

(** The property of an object: with duplicate names the last one
    counts. *)
Fixpoint lookupMember (key : jsstring) (members : list (jsstring * value))
  : option value :=
  match members with
  | [] => None
  | (k, v) :: r =>
      match lookupMember key r with
      | Some later => Some later
      | None => if decide (k = key) then Some v else None
      end
  end.

(** [v.key] for a value other than [null], [None] for [undefined]: only
    an object has properties of the names the plugin asks for. *)
Definition getProp (v : value) (key : jsstring) : option value :=
  match v with
  | JObject members => lookupMember key members
  | _ => None
  end.

End Json.

(** ** Extraction of a control payload (src/plugin/control.ts) *)

Module ControlParser.
Import Json.

(** [v === s] for a property value [v] ([None] for [undefined]) and a
    string [s]. *)
Definition isString (v : option value) (s : jsstring) : bool :=
  match v with
  | Some (JString s') => bool_decide (s' = s)
  | _ => false
  end.

(** The expression
    [parsed.control_command ?? (parsed.type === 'control' ? parsed : null)],
    with [JNull] for [null]; [None] where it throws, which is where
    [parsed] is [null]. *)
Definition payloadOf (parsed : value) : option value :=
  match parsed with
  | JNull => None
  | _ =>
      let fallback :=
        if isString (getProp parsed (js "type")) (js "control")
        then parsed else JNull in
      match getProp parsed (js "control_command") with
      | Some JNull => Some fallback
      | Some v => Some v
      | None => Some fallback
      end
  end.

(** The body of either [try] block on the text it parses: [Some payload]
    where the block returns, [None] where it throws or falls through. *)
Definition tryPayload (text : jsstring) : option value :=
  match parse text with
  | Some parsed =>
      match payloadOf parsed with
      | Some payload => if isTruthy payload then Some payload else None
      | None => None
      end
  | None => None
  end.

(** [text.match(/\{[^{}]*\}/g) ?? []].  A match starts at a left brace
    and ends at the first brace after it when that one is a right
    brace; matches cannot overlap, so one pass finds them all.
    [scanBraces] carries the text since the last left brace ([None]
    when no candidate is open), last code unit first. *)
Fixpoint scanBraces (s : jsstring) (open : option jsstring) : list jsstring :=
  match s with
  | [] => []
  | c :: r =>
      if c =? 123 then scanBraces r (Some [c])
      else if c =? 125 then
        match open with
        | Some acc => rev (c :: acc) :: scanBraces r None
        | None => scanBraces r None
        end
      else scanBraces r ((fun acc => c :: acc) <$> open)
  end.

Definition candidates (text : jsstring) : list jsstring := scanBraces text None.

(** The loop [for (const candidate of candidates)]. *)
Fixpoint firstPayload (cands : list jsstring) : option value :=
  match cands with
  | [] => None
  | candidate :: rest =>
      match tryPayload candidate with
      | Some payload => Some payload
      | None => firstPayload rest
      end
  end.

(** [extractControlPayload(content)], [None] for [null]. *)
Definition extractControlPayload (content : jsstring) : option value :=
  let trimmed := trim content in
  match tryPayload trimmed with
  | Some payload => Some payload
  | None => firstPayload (candidates trimmed)
  end.

(** The shape as the design document words it: the payload is the
    [control_command] field of the parsed text, or the parsed text itself
    when it is a top-level object marked as a control payload, which is
    one whose [type] is the string [control]. *)
Definition claimedShape (parsed payload : value) : Prop :=
  getProp parsed (js "control_command") = Some payload
  ∨ (getProp parsed (js "type") = Some (JString (js "control"))
     ∧ payload = parsed).

(** The shape as the code has it: the payload is the [control_command]
    field when that is neither [null] nor otherwise falsy, or the object
    itself when that field is missing or [null] and its [type] is the
    string [control]. *)
Definition hasControlShape (parsed payload : value) : Prop :=
  (getProp parsed (js "control_command") = Some payload ∧ payload ≠ JNull
   ∧ isTruthy payload = true)
  ∨ ((getProp parsed (js "control_command") = None
      ∨ getProp parsed (js "control_command") = Some JNull)
     ∧ getProp parsed (js "type") = Some (JString (js "control"))
     ∧ payload = parsed).

(** The text is JSON of the control shape, with this payload. *)
Definition matchesControl (text : jsstring) (payload : value) : Prop :=
  ∃ parsed, parse text = Some parsed ∧ hasControlShape parsed payload.

Definition matchesNoControl (text : jsstring) : Prop :=
  ∀ payload, ¬ matchesControl text payload.

(** A single-level object substring: a left brace, code units that are
    no braces, a right brace. *)
Definition noBrace (body : jsstring) : Prop :=
  Forall (fun c => c ≠ 123 ∧ c ≠ 125) body.

Definition isBraceCandidate (c : jsstring) : Prop :=
  ∃ body, c = 123 :: body ++ [125] ∧ noBrace body.

(** A string in quotation marks, for texts that contain JSON. *)
Definition quoted (s : string) : jsstring := 34 :: js s ++ [34].

(** The notice [sendAgentSwitchToUi] sends for the agent Reviewer. *)
Definition reviewerNotice : jsstring :=
  js "Agent changed to Reviewer. {"
  ++ quoted "type" ++ js ":" ++ quoted "control" ++ js ","
  ++ quoted "setting" ++ js ":" ++ quoted "agent_type" ++ js ","
  ++ quoted "value" ++ js ":" ++ quoted "reviewer" ++ js "}".

(** The control object of that notice, as a value. *)
Definition reviewerPayload : value :=
  JObject [ (js "type", JString (js "control"));
            (js "setting", JString (js "agent_type"));
            (js "value", JString (js "reviewer")) ].

(** A bare interrupt command: an object of type control and setting
    interrupt, as text and as a value. *)
Definition interruptText : jsstring :=
  js " {" ++ quoted "type" ++ js ":" ++ quoted "control" ++ js ","
  ++ quoted "setting" ++ js ":" ++ quoted "interrupt" ++ js "} ".

Definition interruptPayload : value :=
  JObject [ (js "type", JString (js "control"));
            (js "setting", JString (js "interrupt")) ].

(** An object marked as a control payload whose [control_command] field
    is [false], as text and as a value. *)
Definition declinedText : jsstring :=
  js "{" ++ quoted "type" ++ js ":" ++ quoted "control" ++ js ","
  ++ quoted "setting" ++ js ":" ++ quoted "interrupt" ++ js ","
  ++ quoted "control_command" ++ js ":false}".

Definition declinedValue : value :=
  JObject [ (js "type", JString (js "control"));
            (js "setting", JString (js "interrupt"));
            (js "control_command", JBool false) ].

End ControlParser.

(** ** The terminal's agent indicator, as [cycleTuiToAgent] counts on it *)

Module AgentRing.

(** The indicator is a position in the list of primary agents.  An
    [agent.cycle] command moves it one position forward, and the terminal
    wraps around at the end of the list (the comment above
    [cycleTuiToAgent]); any other command leaves it alone. *)
Definition cycleOnce (len position : nat) : nat := (S position) mod len.

Definition execute (len : nat) (position : nat) (command : jsstring) : nat :=
  if decide (command = js "agent.cycle") then cycleOnce len position
  else position.

(** The position after a list of commands, first to last. *)
Definition executeAll (len : nat) (position : nat) (commands : list jsstring)
  : nat :=
  foldl (execute len) position commands.

End AgentRing.

(** ** Streams of part events *)

Module PartStream.
Import MessageParts.

(** A [message.part.updated] event that reaches [handlePartUpdate]: the
    part and the optional delta. *)
Definition PartEvent : Type := Part * option jsstring.

(** The registry after a sequence of part events, first to last. *)
Definition applyAll (events : list PartEvent)
    (messagePartsById : gmap jsstring MessagePartsState)
  : gmap jsstring MessagePartsState :=
  foldl (fun registry event => handlePartUpdate event.1 event.2 registry)
        messagePartsById events.

(** What the accumulator keeps true of the state of a message: no part id
    is listed twice, every part with content is listed, and no stored
    content is the empty string. *)
Definition wellFormed (state : MessagePartsState) : Prop :=
  NoDup (order state)
  ∧ (∀ partId, is_Some (parts state !! partId) → partId ∈ order state)
  ∧ (∀ partId content, parts state !! partId = Some content → content ≠ []).

(** The events that stream one text part of a message: each carries a
    delta, and whatever full text. *)
Definition deltaEvents (messageId partId : jsstring)
    (chunks : list (jsstring * jsstring)) : list PartEvent :=
  map (fun chunk => (textPart messageId partId chunk.1, Some chunk.2)) chunks.

(** The deltas of such a stream, concatenated. *)
Definition streamedText (chunks : list (jsstring * jsstring)) : jsstring :=
  concat (map snd chunks).

End PartStream.

(** ** Blank and trimmed texts *)

Module Text.

(** Nothing but white space. *)
Definition isBlank (s : jsstring) : Prop :=
  Forall (fun c => isWhiteSpace c = true) s.

(** No white space at either end. *)
Definition isTrimmed (s : jsstring) : Prop :=
  (∀ c, head s = Some c → isWhiteSpace c = false)
  ∧ (∀ c, last s = Some c → isWhiteSpace c = false).

(** The text with every line feed turned into a carriage return and a
    line feed. *)
Fixpoint toCRLF (s : jsstring) : jsstring :=
  match s with
  | [] => []
  | c :: r => if c =? 10 then 13 :: 10 :: toCRLF r else c :: toCRLF r
  end.

(** No carriage return in the text. *)
Definition noCR (s : jsstring) : Prop := Forall (fun c => c ≠ 13) s.

End Text.

(** ** Replays on the event stream *)

Module Replay.
Import Orchestrator.

(** The event concerns a part, not a message. *)
Definition isPartEvent (event : Event) : bool :=
  match event with
  | ToolPartUpdated _ _ => true
  | PartUpdated _ _ => true
  | MessageUpdated _ => false
  end.

(** The handler forwards some text to the remote side. *)
Definition forwards (calls : list RemoteCall) : Prop :=
  ∃ content, SendMessage content ∈ calls.

(** The messages that are still streaming after an event: an event for a
    part of a message opens the message, the completion of an assistant
    message closes it. *)
Definition opens (event : Event) (open : gset jsstring) : gset jsstring :=
  match event with
  | ToolPartUpdated _ _ => open
  | PartUpdated part _ =>
      match MessageParts.messageID part with
      | Some (c :: r) => {[ c :: r ]} ∪ open
      | _ => open
      end
  | MessageUpdated message =>
      match role message with
      | assistant =>
          if isCompleted message then open ∖ {[ id message ]} else open
      | user => open
      end
  end.

Definition openMessages (events : list Event) : gset jsstring :=
  foldl (fun open event => opens event open) ∅ events.

End Replay.

(** ** Interleaved use of the echo buffer *)

Module EchoOps.
Import EchoSuppressor.

(** The two operations on the buffer: the poller records what it submits
    to the terminal, the [chat.message] hook checks what the terminal
    reports. *)
Inductive Op :=
| Record_ (content : jsstring)
| Check_ (content : jsstring).

Definition apply (messagesFromUI : list jsstring) (op : Op) : list jsstring :=
  match op with
  | Record_ content => addUIMessage content messagesFromUI
  | Check_ content => (isFromUI content messagesFromUI).2
  end.

(** The buffer after a sequence of operations, first to last. *)
Definition applyOps (ops : list Op) (messagesFromUI : list jsstring)
  : list jsstring :=
  foldl apply messagesFromUI ops.

End EchoOps.

(** ** Histories of the registry of forwarded ids *)

Module TrackerHistory.

(** The last [n] elements of a list. *)
Definition lastN {A} (n : nat) (l : list A) : list A :=
  drop (length l - n) l.

End TrackerHistory.

(** ** Building and presenting permission options
       (src/plugin/permission.ts) *)

Module PermissionOptions.
Import Permission.

(** The array [responses] of [buildPermissionOptions]. *)
Definition responses : list Response := [once; always; reject].

(** [buildPermissionOptions(permission)], on what it reads of the
    permission: [permission.metadata?.options], [None] when that is no
    array, else its elements as [String(label)] renders them. *)
Definition buildPermissionOptions (metaOptions : option (list jsstring))
  : list PermissionOption :=
  match metaOptions with
  | Some labels =>
      if (0 <? length labels)%nat then
        imap (fun i l => {| label := l;
                            response := default reject (responses !! i) |})
             (take 3 labels)
      else DEFAULT_PERMISSION_OPTIONS
  | None => DEFAULT_PERMISSION_OPTIONS
  end.

(** The decimal digits of a number, most significant first, in front of
    [acc]; [fuel] bounds the number of digits. *)
Fixpoint decimalDigits (fuel n : nat) (acc : jsstring) : jsstring :=
  match fuel with
  | O => acc
  | S fuel' =>
      let acc' := (48 + N.of_nat (n mod 10)) :: acc in
      if (n / 10 =? 0)%nat then acc' else decimalDigits fuel' (n / 10) acc'
  end.

(** A natural number in a template literal: its decimal numeral. *)
Definition decimal (n : nat) : jsstring := decimalDigits (S n) n [].

(** The array [optionLines] of [formatPermissionRequest]: one line per
    option, its number counted from 1, a full stop, a space, its label. *)
Definition optionLines (options : list PermissionOption) : list jsstring :=
  imap (fun i opt => decimal (i + 1) ++ js ". " ++ label opt) options.

(** What [formatPermissionRequest] appends to the message after the
    description: the options between their markers. *)
Definition optionsEnvelope (options : list PermissionOption) : jsstring :=
  [10; 10] ++ js "[OPTIONS]" ++ [10]
  ++ MessageParts.join [10] (optionLines options)
  ++ [10] ++ js "[/OPTIONS]".

End PermissionOptions.

(** ** JSON.stringify of strings, and the notice of an agent switch
       (src/index.ts) *)

Module JsonText.

(** A hexadecimal digit, in lower case. *)
Definition hexChar (k : N) : N := if k <? 10 then 48 + k else 87 + k.

(** The escape of a code unit by its number: reverse solidus, u, four
    hexadecimal digits. *)
Definition unicodeEscape (c : N) : jsstring :=
  [92; 117; hexChar (c / 4096); hexChar ((c / 256) mod 16);
   hexChar ((c / 16) mod 16); hexChar (c mod 16)].

Definition isLeadSurrogate (c : N) : bool := (55296 <=? c) && (c <=? 56319).
Definition isTrailSurrogate (c : N) : bool := (56320 <=? c) && (c <=? 57343).

(** The escape of a code unit that is no surrogate: the two-character
    escapes of the table, the numeric escape below 32, else the code unit
    itself. *)
Definition quoteUnit (c : N) : jsstring :=
  if c =? 8 then [92; 98]
  else if c =? 9 then [92; 116]
  else if c =? 10 then [92; 110]
  else if c =? 12 then [92; 102]
  else if c =? 13 then [92; 114]
  else if c =? 34 then [92; 34]
  else if c =? 92 then [92; 92]
  else if c <? 32 then unicodeEscape c
  else [c].

(** The characters of a string between the quotation marks
    [JSON.stringify] puts around it.  The string is read by code points:
    a lead surrogate followed by a trail surrogate is kept, a surrogate
    on its own is escaped by its number. *)
Fixpoint quoteChars (s : jsstring) : jsstring :=
  match s with
  | [] => []
  | c :: r =>
      if isLeadSurrogate c then
        match r with
        | d :: r' =>
            if isTrailSurrogate d then c :: d :: quoteChars r'
            else unicodeEscape c ++ quoteChars r
        | [] => unicodeEscape c
        end
      else if isTrailSurrogate c then unicodeEscape c ++ quoteChars r
      else quoteUnit c ++ quoteChars r
  end.

(** [JSON.stringify(s)] for a string [s]. *)
Definition stringify (s : jsstring) : jsstring := 34 :: quoteChars s ++ [34].

Section WithCaseTable.
Variable toLowerCase : jsstring -> jsstring.

(** [JSON.stringify] of the object [sendAgentSwitchToUi] builds: its
    members in the order they are written, no white space. *)
Definition controlPayloadText (agentName : jsstring) : jsstring :=
  js "{" ++ stringify (js "type") ++ js ":" ++ stringify (js "control")
  ++ js "," ++ stringify (js "setting") ++ js ":" ++ stringify (js "agent_type")
  ++ js "," ++ stringify (js "value") ++ js ":"
  ++ stringify (toLowerCase agentName) ++ js "}".

(** The text [sendAgentSwitchToUi] sends. *)
Definition agentSwitchNotice (agentName : jsstring) : jsstring :=
  js "Agent changed to " ++ agentName ++ js ". " ++ controlPayloadText agentName.

(** The payload of that notice, as a value. *)
Definition agentSwitchPayload (agentName : jsstring) : Json.value :=
  Json.JObject [ (js "type", Json.JString (js "control"));
                 (js "setting", Json.JString (js "agent_type"));
                 (js "value", Json.JString (toLowerCase agentName)) ].

End WithCaseTable.

(** Code units as a JavaScript string holds them: below 65536. *)
Definition isString (s : jsstring) : Prop := Forall (fun c => c < 65536) s.

End JsonText.

(** ** JSON text of flat objects *)

Module JsonObjectText.
Import JsonText.

(** [JSON.stringify] of the members of an object whose values are
    strings: name, colon, value, members separated by commas. *)
Fixpoint membersText (members : list (jsstring * jsstring)) : jsstring :=
  match members with
  | [] => []
  | [(k, v)] => stringify k ++ [58] ++ stringify v
  | (k, v) :: rest => stringify k ++ [58] ++ stringify v ++ [44] ++ membersText rest
  end.

(** [JSON.stringify] of such an object. *)
Definition objectText (members : list (jsstring * jsstring)) : jsstring :=
  [123] ++ membersText members ++ [125].

(** The object as a value. *)
Definition objectValue (members : list (jsstring * jsstring)) : Json.value :=
  Json.JObject (map (fun m => (m.1, Json.JString m.2)) members).

End JsonObjectText.


(** ** Control commands from the dashboard (src/plugin/control.ts) *)

Module ControlCommand.
Import Json ControlParser Control.

Inductive SessionStatus := Idle | Busy | Retry.

(** What [handleControlCommand] reads and writes through its context.
    The two agents are the variables [tuiCurrentAgent] and
    [preferredAgent] of src/index.ts, which the setters and the getter
    of the context assign and read; [None] is [undefined]. *)
Record Context := {
  currentSessionId : option jsstring;
  currentSessionStatus : option SessionStatus;
  tuiCurrentAgent : option jsstring;
  preferredAgent : option jsstring;
}.

(** The context with the commands issued on the terminal and the
    messages sent to the dashboard, first to last. *)
Record World := {
  context : Context;
  terminal : list jsstring;
  dashboard : list jsstring;
}.

Definition setPreferredAgent (agent : option jsstring) (w : World) : World :=
  {| context :=
       {| currentSessionId := currentSessionId (context w);
          currentSessionStatus := currentSessionStatus (context w);
          tuiCurrentAgent := tuiCurrentAgent (context w);
          preferredAgent := agent |};
     terminal := terminal w;
     dashboard := dashboard w |}.

Definition setTuiCurrentAgent (agent : option jsstring) (w : World) : World :=
  {| context :=
       {| currentSessionId := currentSessionId (context w);
          currentSessionStatus := currentSessionStatus (context w);
          tuiCurrentAgent := agent;
          preferredAgent := preferredAgent (context w) |};
     terminal := terminal w;
     dashboard := dashboard w |}.

(** [vicoaClient.sendMessage(content)]: the request catches its own
    failures, so the call always returns. *)
Definition sendMessage (content : jsstring) (w : World) : World :=
  {| context := context w;
     terminal := terminal w;
     dashboard := dashboard w ++ [content] |}.

Definition withTerminal (commands : list jsstring) (w : World) : World :=
  {| context := context w; terminal := commands; dashboard := dashboard w |}.

(** The branch [setting === 'interrupt']. *)
Definition interrupt (client : Client) (w : World) : World :=
  match currentSessionId (context w) with
  | Some (_ :: _) =>
      match currentSessionStatus (context w) with
      | Some Idle => sendMessage (js "OpenCode is idle.") w
      | _ =>
          let '(first, issued1) :=
            executeTuiCommand client (js "session.interrupt") (terminal w) in
          if first then
            let '(second, issued2) :=
              executeTuiCommand client (js "session.interrupt") issued1 in
            if second
            then sendMessage (js "Interrupted") (withTerminal issued2 w)
            else sendMessage (js "Failed to interrupt.") (withTerminal issued2 w)
          else sendMessage (js "Failed to interrupt.") (withTerminal issued1 w)
      end
  | _ => sendMessage (js "Failed to interrupt") w
  end.

Section WithCaseTable.
Variable toLowerCase : jsstring -> jsstring.

(** [typeof value === 'string' ? value.toLowerCase() : ''] *)
Definition nextAgentOf (value : option value) : jsstring :=
  match value with
  | Some (JString v) => toLowerCase v
  | _ => []
  end.

(** The text sent for a name no primary agent has. *)
Definition unknownAgentText (nextAgent : jsstring) (validNames : list jsstring)
  : jsstring :=
  js "Unknown agent " ++ [34] ++ nextAgent ++ [34]
  ++ js ". Available agents: " ++ MessageParts.join (js ", ") validNames.

Definition agentChangedText (selectedAgent : jsstring) : jsstring :=
  js "Agent changed to " ++ selectedAgent ++ js ".".

(** The branch [setting === 'agent_type'].  [agents] is what the request
    [client.app.agents()] of this branch yields, [None] where it throws
    or yields no list; the request [cycleTuiToAgent] makes afterwards is
    answered by [client]. *)
Definition switchAgent (client : Client) (agents : option (list Agent))
    (value : option value) (w : World) : World :=
  let nextAgent := nextAgentOf value in
  if negb (truthy nextAgent) then w
  else
    match agents with
    | None =>
        sendMessage (agentChangedText nextAgent)
          (setPreferredAgent (Some nextAgent) w)
    | Some allAgents =>
        let primaryAgents := filter (fun a => isPrimary a = true) allAgents in
        let validNames := map name primaryAgents in
        let found :=
          List.find (fun n => bool_decide (toLowerCase n = nextAgent))
            validNames in
        match found with
        | Some (c :: r) =>
            let w1 := setPreferredAgent (Some (c :: r)) w in
            let '(cycled, issued1) :=
              cycleTuiToAgent client (c :: r) (tuiCurrentAgent (context w1))
                (terminal w1) in
            let w2 := withTerminal issued1 w1 in
            let w3 := if cycled then setTuiCurrentAgent (Some (c :: r)) w2
                      else w2 in
            sendMessage (agentChangedText (c :: r)) w3
        | _ => sendMessage (unknownAgentText nextAgent validNames) w
        end
    end.

(** [handleControlCommand(content, context)]: the result and the world
    after the call.  The calls of [log] are left out: they start a
    request the function does not wait for. *)
Definition handleControlCommand (content : jsstring) (client : Client)
    (agents : option (list Agent)) (w : World) : bool * World :=
  match extractControlPayload content with
  | None => (false, w)
  | Some payload =>
      let setting := getProp payload (js "setting") in
      if isString setting (js "interrupt") then (true, interrupt client w)
      else if isString setting (js "agent_type")
      then (true, switchAgent client agents (getProp payload (js "value")) w)
      else (true, w)
  end.

End WithCaseTable.

(** The plugin's belief about the indicator agrees with the terminal:
    the agent it believes current is the one at the position of the
    indicator, and the indicator is at the start when it believes
    none. *)
Definition inStep (primaryAgents : list Agent) (position : nat)
    (believed : option jsstring) : Prop :=
  match believed with
  | Some c => isIndexOf primaryAgents c position
  | None => position = 0%nat
  end.

(** A control command as the dashboard sends it, for a setting with a
    value. *)
Definition commandText (setting value : string) : jsstring :=
  js "{" ++ quoted "type" ++ js ":" ++ quoted "control" ++ js ","
  ++ quoted "setting" ++ js ":" ++ quoted setting ++ js ","
  ++ quoted "value" ++ js ":" ++ quoted value ++ js "}".

(** A world with a session, nothing issued and nothing sent yet, in which
    the plugin believes [believed] current. *)
Definition quietWorld (believed : option jsstring) : World :=
  {| context :=
       {| currentSessionId := Some (js "ses_1");
          currentSessionStatus := None;
          tuiCurrentAgent := believed;
          preferredAgent := None |};
     terminal := [];
     dashboard := [] |}.

End ControlCommand.


(** ** The API key (src/plugin/credentials.ts) *)

Module Credentials.
Import Json.

(** [loadApiKey()], on what the credentials file holds: [None] for a
    file that is missing or cannot be read.  The result is [None] for
    [null]. *)
Definition loadApiKey (file : option jsstring) : option jsstring :=
  match file with
  | None => None
  | Some data =>
      match parse data with
      | None => None
      | Some JNull => None
      | Some credentials =>
          match getProp credentials (js "write_key") with
          | Some (JString apiKey) =>
              if truthy apiKey && (0 <? length (trim apiKey))%nat
              then Some (trim apiKey)
              else None
          | _ => None
          end
      end
  end.

(** [getApiKey()], on the value of the environment variable
    [VICOA_API_KEY] ([None] when it is not set) and the credentials
    file. *)
Definition getApiKey (envKey : option jsstring) (file : option jsstring)
  : option jsstring :=
  match envKey with
  | Some e =>
      if truthy e && (0 <? length (trim e))%nat then Some (trim e)
      else loadApiKey file
  | None => loadApiKey file
  end.

(** A credentials file with a key wrapped in spaces. *)
Definition paddedCredentials : jsstring :=
  js "{" ++ ControlParser.quoted "write_key" ++ js ": "
  ++ ControlParser.quoted " vk_123 " ++ js "}".

End Credentials.


(** ** Slash commands (src/plugin/commands.ts) *)

Module SlashCommand.

(** [s.split(/\s+/)]: the pieces of [s] between its maximal runs of
    white space, the empty piece before a leading run and after a
    trailing one included.  [acc] holds the piece being read, last code
    unit first; [skipping] tells that the code unit before was white
    space. *)
Fixpoint splitWhiteSpace (s : jsstring) (acc : jsstring) (skipping : bool)
  : list jsstring :=
  match s with
  | [] => [rev acc]
  | c :: r =>
      if isWhiteSpace c then
        if skipping then splitWhiteSpace r acc true
        else rev acc :: splitWhiteSpace r [] true
      else splitWhiteSpace r (c :: acc) false
  end.

Record ParsedSlashCommand := {
  name : jsstring;
  rawName : jsstring;
  arguments : jsstring;
}.

Section WithCaseTable.
Variable toLowerCase : jsstring -> jsstring.

(** [parseSlashCommand(input)], [None] for [null]. *)
Definition parseSlashCommand (input : jsstring) : option ParsedSlashCommand :=
  let trimmed := trim input in
  if negb (Format.startsWith trimmed (js "/")) then None
  else
    let body := trim (drop 1 trimmed) in
    if negb (truthy body) then None
    else
      match splitWhiteSpace body [] false with
      | [] => None
      | raw :: rest =>
          if negb (truthy raw) then None
          else Some {| rawName := raw;
                       name := toLowerCase raw;
                       arguments := trim (MessageParts.join (js " ") rest) |}
      end.

End WithCaseTable.

(** No white space in the text. *)
Definition noWhiteSpace (s : jsstring) : Prop :=
  Forall (fun c => isWhiteSpace c = false) s.

(** The text is made of the pieces, each behind a run of white space
    that is not empty; the pieces are not empty and hold no white
    space. *)
Inductive spaced : jsstring -> list jsstring -> Prop :=
| spaced_nil : spaced [] []
| spaced_cons (blank piece rest : jsstring) (pieces : list jsstring) :
    blank ≠ [] -> Forall (fun c => isWhiteSpace c = true) blank ->
    piece ≠ [] -> noWhiteSpace piece ->
    spaced rest pieces ->
    spaced (blank ++ piece ++ rest) (piece :: pieces).

End SlashCommand.


(** ** Pending permissions (src/index.ts) *)

Module PendingPermissions.
Import Permission PermissionOptions.

(** An entry of [pendingPermissions], as far as the plugin reads it
    again: the session of the permission and the options sent to the
    dashboard. *)
Record PendingPermission := {
  sessionID : jsstring;
  options : list PermissionOption;
}.

(** The [Map] from permission ids to entries, in insertion order. *)
Abbreviation Pending := (list (jsstring * PendingPermission)).

(** [map.set(key, entry)]: an entry whose key is there is replaced where
    it stands, a new one goes to the end. *)
Fixpoint mapSet (key : jsstring) (entry : PendingPermission) (m : Pending)
  : Pending :=
  match m with
  | [] => [(key, entry)]
  | (k, e) :: r =>
      if decide (k = key) then (k, entry) :: r
      else (k, e) :: mapSet key entry r
  end.

(** [map.delete(key)] *)
Definition mapDelete (key : jsstring) (m : Pending) : Pending :=
  filter (fun e => e.1 ≠ key) m.

(** The events that change the map: a permission is asked, with its id,
    its session and the options of its metadata, or a permission is
    replied to. *)
Inductive PermissionEvent :=
| Asked (id session : jsstring) (metaOptions : option (list jsstring))
| Replied (permissionID : jsstring).

Definition onPermissionEvent (m : Pending) (e : PermissionEvent) : Pending :=
  match e with
  | Asked id session metaOptions =>
      mapSet id {| sessionID := session;
                   options := buildPermissionOptions metaOptions |} m
  | Replied permissionID => mapDelete permissionID m
  end.

Definition afterEvents (events : list PermissionEvent) : Pending :=
  foldl onPermissionEvent [] events.

(** The request the plugin posts to answer a permission. *)
Record PermissionReply := {
  replySession : jsstring;
  replyPermission : jsstring;
  replyResponse : Response;
}.

Section WithCaseTable.
Variable toLowerCase : jsstring -> jsstring.

(** The loop over the pending permissions in the callback of the poller,
    which the callback reaches when the message is no control command:
    the first entry the message matches, with the response matched. *)
Fixpoint firstMatch (userMessage : jsstring) (m : Pending)
  : option (jsstring * PendingPermission * Response) :=
  match m with
  | [] => None
  | (permId, pending) :: r =>
      match parsePermissionReply toLowerCase userMessage (options pending) with
      | Some matched => Some (permId, pending, matched)
      | None => firstMatch userMessage r
      end
  end.

(** That loop with what it does on a match: the reply posted, [None]
    when the loop ends without one, and the map afterwards.  The entry
    is deleted whether or not the request succeeds. *)
Definition replyToPermission (userMessage : jsstring) (m : Pending)
  : option PermissionReply * Pending :=
  match firstMatch userMessage m with
  | Some (permId, pending, matched) =>
      (Some {| replySession := sessionID pending;
               replyPermission := permId;
               replyResponse := matched |},
       mapDelete permId m)
  | None => (None, m)
  end.

(** The callback of the poller down to the end of that loop: a message
    [handleControlCommand] handles goes no further; any other message is
    tried on the pending permissions.  The result is the world after
    [handleControlCommand], the reply posted and the map afterwards.
    The status update after a control command is left out: it touches
    neither, and the request catches its own failures. *)
Definition interceptUserMessage (userMessage : jsstring)
    (client : Control.Client) (agents : option (list Control.Agent))
    (w : ControlCommand.World) (m : Pending)
  : ControlCommand.World * option PermissionReply * Pending :=
  let '(handled, w') :=
    ControlCommand.handleControlCommand toLowerCase userMessage client agents w in
  if handled then (w', None, m)
  else
    let '(reply, m') := replyToPermission userMessage m in
    (w', reply, m').

End WithCaseTable.

End PendingPermissions.


(** ** The diff of an edit (src/plugin/format-utils.ts) *)

Module DiffBlock.

(** [s.split('\n')] *)
Fixpoint splitLinesFrom (s acc : jsstring) : list jsstring :=
  match s with
  | [] => [rev acc]
  | c :: r =>
      if c =? 10 then rev acc :: splitLinesFrom r []
      else splitLinesFrom r (c :: acc)
  end.

Definition splitLines (s : jsstring) : list jsstring := splitLinesFrom s [].

(** The first loop of [formatDiffBlock]: the lines the two texts share
    at their start. *)
Fixpoint commonPrefixOf (oldLines newLines : list jsstring) : list jsstring :=
  match oldLines, newLines with
  | o :: oldLines', n :: newLines' =>
      if decide (o = n) then o :: commonPrefixOf oldLines' newLines' else []
  | _, _ => []
  end.

(** The second loop, [for (let i = 1; i <= Math.min(...); i += 1)], with
    [remaining] iterations left: it compares the lines at [i] from the
    end and puts an equal one in front of [commonSuffix]. *)
Fixpoint suffixLoop (remaining i : nat) (oldRemaining newRemaining : list jsstring)
    (commonSuffix : list jsstring) : list jsstring :=
  match remaining with
  | O => commonSuffix
  | S k =>
      match oldRemaining !! (length oldRemaining - i)%nat,
            newRemaining !! (length newRemaining - i)%nat with
      | Some o, Some n =>
          if decide (o = n)
          then suffixLoop k (S i) oldRemaining newRemaining (o :: commonSuffix)
          else commonSuffix
      | _, _ => commonSuffix
      end
  end.

(** [formatDiffBlock(oldText, newText)] *)
Definition formatDiffBlock (oldText newText : jsstring) : list jsstring :=
  let diffLines :=
    if negb (truthy oldText) && truthy newText then
      map (fun line => js "+ " ++ line) (splitLines newText)
    else if truthy oldText && negb (truthy newText) then
      map (fun line => js "- " ++ line) (splitLines oldText)
    else
      let oldLines := splitLines oldText in
      let newLines := splitLines newText in
      let commonPrefix := commonPrefixOf oldLines newLines in
      let oldRemaining := drop (length commonPrefix) oldLines in
      let newRemaining := drop (length commonPrefix) newLines in
      let commonSuffix :=
        if (0 <? length oldRemaining)%nat && (0 <? length newRemaining)%nat
        then suffixLoop (Nat.min (length oldRemaining) (length newRemaining)) 1
               oldRemaining newRemaining []
        else [] in
      let changedOld :=
        if (0 <? length commonSuffix)%nat
        then take (length oldRemaining - length commonSuffix) oldRemaining
        else oldRemaining in
      let changedNew :=
        if (0 <? length commonSuffix)%nat
        then take (length newRemaining - length commonSuffix) newRemaining
        else newRemaining in
      if ((0 <? length commonPrefix)%nat || (0 <? length commonSuffix)%nat)
         && ((0 <? length changedOld)%nat || (0 <? length changedNew)%nat)
      then
        let contextBefore := drop (length commonPrefix - 2) commonPrefix in
        let contextAfter := take 2 commonSuffix in
        map (fun line => js "  " ++ line) contextBefore
        ++ map (fun line => js "- " ++ line) changedOld
        ++ map (fun line => js "+ " ++ line) changedNew
        ++ map (fun line => js "  " ++ line) contextAfter
      else
        map (fun line => js "- " ++ line) oldLines
        ++ map (fun line => js "+ " ++ line) newLines in
  [js "```diff"] ++ diffLines ++ [js "```"].

(** Reading a diff: the lines it shows of the old text are those marked
    as context or as removed, the lines it shows of the new text those
    marked as context or as added. *)
Definition oldSide (diffLines : list jsstring) : list jsstring :=
  omap (fun line =>
          match line with
          | 32 :: 32 :: r => Some r
          | 45 :: 32 :: r => Some r
          | _ => None
          end) diffLines.

Definition newSide (diffLines : list jsstring) : list jsstring :=
  omap (fun line =>
          match line with
          | 32 :: 32 :: r => Some r
          | 43 :: 32 :: r => Some r
          | _ => None
          end) diffLines.

(** An edit in the middle of six lines. *)
Definition sixLines (third : string) : jsstring :=
  js "a" ++ [10] ++ js "b" ++ [10] ++ js third ++ [10] ++ js "d"
  ++ [10] ++ js "e" ++ [10] ++ js "f".

End DiffBlock.


(** * Properties *)

(** ** Array helpers *)

Lemma indexOf_Some (x : jsstring) (l : list jsstring) (i : nat) :
  indexOf x l = Some i →
  l !! i = Some x ∧ x ∉ take i l.
Proof.
  revert i. induction l as [|y l IH]; intros i; simpl; [done|].
  destruct (decide (y = x)) as [->|Hne].
  - intros [= <-]. split; [done|]. simpl. by apply not_elem_of_nil.
  - destruct (indexOf x l) as [j|] eqn:E; simpl; [|done].
    intros [= <-]. destruct (IH j eq_refl) as [H1 H2].
    split; [done|]. simpl. rewrite elem_of_cons.
    intros [Heq|Hin]; [by apply Hne | by apply H2].
Qed.

Lemma indexOf_None (x : jsstring) (l : list jsstring) :
  indexOf x l = None ↔ x ∉ l.
Proof.
  induction l as [|y l IH]; simpl.
  - split; [intros _; apply not_elem_of_nil | done].
  - destruct (decide (y = x)) as [->|Hne].
    + split; [done|]. intros H. exfalso. apply H. by left.
    + destruct (indexOf x l) as [j|] eqn:E; simpl.
      * split; [done|]. intros H. exfalso.
        assert (x ∉ l) as Hl by (intros ?; apply H; by right).
        apply IH in Hl. done.
      * split; [|done]. intros _. rewrite elem_of_cons.
        intros [->|Hin]; [done|]. by apply IH in Hin.
Qed.

Lemma indexOf_fresh_snoc (x : jsstring) (l : list jsstring) :
  x ∉ l → indexOf x (l ++ [x]) = Some (length l).
Proof.
  induction l as [|y l IH]; simpl; intros Hx.
  - by rewrite decide_True.
  - rewrite not_elem_of_cons in Hx. destruct Hx as [Hne Hx].
    rewrite decide_False by done. by rewrite IH.
Qed.

Lemma delete_snoc_last {A} (l : list A) (x : A) :
  delete (length l) (l ++ [x]) = l.
Proof. induction l as [|y l IH]; simpl; [done|]. by rewrite IH. Qed.

(** ** Echo suppression *)

Section EchoSuppressorFacts.
Import EchoSuppressor.

Lemma addUIMessage_snoc (t : jsstring) (buf : list jsstring) :
  addUIMessage t buf = keptBy buf ++ [normalizeMessage t].
Proof.
  unfold addUIMessage, keptBy. rewrite length_app. simpl.
  replace (length buf + 1)%nat with (S (length buf)) by lia.
  destruct (MAX_UI_MESSAGES <? S (length buf))%nat eqn:E; [|done].
  apply Nat.ltb_lt in E. unfold MAX_UI_MESSAGES in E.
  rewrite drop_app_le by lia. done.
Qed.

Lemma keptBy_subseteq (buf : list jsstring) : keptBy buf ⊆ buf.
Proof.
  unfold keptBy. destruct (_ <? _)%nat; [|done].
  intros x Hx. apply list_elem_of_lookup in Hx as [i Hi].
  rewrite lookup_drop in Hi. by eapply list_elem_of_lookup_2.
Qed.

Lemma addUIMessage_within_capacity (t : jsstring) (buf : list jsstring) :
  (length buf ≤ MAX_UI_MESSAGES)%nat →
  (length (addUIMessage t buf) ≤ MAX_UI_MESSAGES)%nat.
Proof.
  intros H. rewrite addUIMessage_snoc, length_app. simpl.
  unfold keptBy, MAX_UI_MESSAGES in *.
  destruct (50 <? S (length buf))%nat eqn:E.
  - rewrite length_drop. lia.
  - apply Nat.ltb_ge in E. lia.
Qed.

Lemma addAll_snoc (texts : list jsstring) (t : jsstring) (buf : list jsstring) :
  addAll (texts ++ [t]) buf = addUIMessage t (addAll texts buf).
Proof. unfold addAll. by rewrite foldl_app. Qed.

Lemma addAll_within_capacity (texts : list jsstring) :
  (length (addAll texts []) ≤ MAX_UI_MESSAGES)%nat.
Proof.
  induction texts as [|t texts IH] using rev_ind.
  - simpl. unfold MAX_UI_MESSAGES. lia.
  - rewrite addAll_snoc. by apply addUIMessage_within_capacity.
Qed.

Lemma addAll_no_overflow (texts : list jsstring) :
  (length texts ≤ MAX_UI_MESSAGES)%nat →
  addAll texts [] = normalizeMessage <$> texts.
Proof.
  induction texts as [|t texts IH] using rev_ind; intros Hlen; [done|].
  rewrite length_app in Hlen. simpl in Hlen.
  rewrite addAll_snoc, IH by lia. rewrite addUIMessage_snoc, fmap_app.
  unfold keptBy. rewrite length_fmap.
  destruct (MAX_UI_MESSAGES <? S (length texts))%nat eqn:E; [|done].
  apply Nat.ltb_lt in E. lia.
Qed.

(** C5. The buffer of texts that came from the remote side holds at most
    50 entries and evicts in batches: recording a text when the buffer
    holds 50 entries drops the 40 oldest in one step and leaves 11, the 10
    youngest old entries and the new one; with fewer than 50 entries
    nothing is dropped; from the empty buffer the capacity is never
    exceeded; and after 51 texts exactly the last 11 remain. *)
Theorem addUIMessage_batch_eviction :
  (∀ (t : jsstring) (buf : list jsstring),
     length buf = 50%nat →
     addUIMessage t buf = drop 40 buf ++ [normalizeMessage t]
     ∧ length (addUIMessage t buf) = 11%nat)
  ∧ (∀ (t : jsstring) (buf : list jsstring),
       (length buf < 50)%nat →
       addUIMessage t buf = buf ++ [normalizeMessage t])
  ∧ (∀ texts : list jsstring, (length (addAll texts []) ≤ 50)%nat)
  ∧ (∀ texts : list jsstring,
       length texts = 51%nat →
       addAll texts [] = normalizeMessage <$> drop 40 texts
       ∧ length (addAll texts []) = 11%nat).
Proof.
  assert (∀ (t : jsstring) (buf : list jsstring),
     length buf = 50%nat →
     addUIMessage t buf = drop 40 buf ++ [normalizeMessage t]
     ∧ length (addUIMessage t buf) = 11%nat) as Hfull.
  { intros t buf Hlen. rewrite addUIMessage_snoc. unfold keptBy.
    rewrite Hlen. simpl. split; [done|].
    rewrite length_app, length_drop, Hlen. done. }
  split; [exact Hfull|]. split; [|split].
  - intros t buf Hlen. rewrite addUIMessage_snoc. unfold keptBy.
    destruct (MAX_UI_MESSAGES <? S (length buf))%nat eqn:E; [|done].
    apply Nat.ltb_lt in E. unfold MAX_UI_MESSAGES in E. lia.
  - apply addAll_within_capacity.
  - intros texts Hlen.
    induction texts as [|t texts' _] using rev_ind; [done|].
    rewrite length_app in Hlen. simpl in Hlen.
    rewrite addAll_snoc, addAll_no_overflow by (unfold MAX_UI_MESSAGES; lia).
    destruct (Hfull t (normalizeMessage <$> texts')) as [-> _].
    { rewrite length_fmap. lia. }
    split.
    + rewrite drop_app_le by lia. by rewrite fmap_app, fmap_drop.
    + rewrite length_app, length_drop, length_fmap. simpl. lia.
Qed.

Lemma addUIMessage_batch_eviction_witness :
  length texts51 = 51%nat
  ∧ addAll texts51 [] = normalizeMessage <$> drop 40 texts51
  ∧ length (addAll texts51 []) = 11%nat.
Proof.
  split; [reflexivity|].
  apply (proj2 (proj2 (proj2 addUIMessage_batch_eviction)) texts51).
  reflexivity.
Defined.
Lemma isFromUI_found (t : jsstring) (buf : list jsstring) (i : nat) :
  indexOf (normalizeMessage t) buf = Some i →
  isFromUI t buf = (true, delete i buf).
Proof. intros H. unfold isFromUI. by rewrite H. Qed.

Lemma isFromUI_absent (t : jsstring) (buf : list jsstring) :
  normalizeMessage t ∉ buf → isFromUI t buf = (false, buf).
Proof.
  intros H. apply indexOf_None in H. unfold isFromUI. by rewrite H.
Qed.

(** C6. Echo suppression is a one-shot check-and-remove on normalized
    text, where normalizing turns CR LF into LF and then trims white
    space at both ends.  After [record(t)], a [consumeIfPresent(t')] with
    [t'] normalizing to the same text answers true and removes exactly one
    entry, the first that equals it; when the text was not in the buffer
    before (it is recorded once), what is left is the buffer without the
    recorded entry, and a second [consumeIfPresent(t')] answers false and
    changes nothing. *)
Theorem isFromUI_one_shot :
  (∀ (t t' : jsstring) (buf : list jsstring),
     normalizeMessage t' = normalizeMessage t →
     ∃ i : nat,
       addUIMessage t buf !! i = Some (normalizeMessage t)
       ∧ (normalizeMessage t ∉ take i (addUIMessage t buf))
       ∧ isFromUI t' (addUIMessage t buf) = (true, delete i (addUIMessage t buf))
       ∧ S (length (delete i (addUIMessage t buf))) = length (addUIMessage t buf))
  ∧ (∀ (t t' : jsstring) (buf : list jsstring),
       normalizeMessage t' = normalizeMessage t →
       normalizeMessage t ∉ buf →
       isFromUI t' (addUIMessage t buf) = (true, keptBy buf)
       ∧ isFromUI t' (keptBy buf) = (false, keptBy buf))
  ∧ (∀ t : jsstring, normalizeMessage t = trim (replaceCRLF t))
  ∧ (normalizeMessage (js " a" ++ [13; 10] ++ js "b" ++ [13; 10])
     = js "a" ++ [10] ++ js "b").
Proof.
  split; [|split; [|split; [done|reflexivity]]].
  - intros t t' buf Hn.
    destruct (indexOf (normalizeMessage t) (addUIMessage t buf)) as [i|] eqn:E.
    + exists i. destruct (indexOf_Some _ _ _ E) as [Hi Hfirst].
      split; [done|]. split; [done|]. split.
      * apply isFromUI_found. by rewrite Hn.
      * rewrite length_delete by eauto.
        apply lookup_lt_Some in Hi. lia.
    + apply indexOf_None in E. exfalso. apply E.
      rewrite addUIMessage_snoc. apply elem_of_app. right. by left.
  - intros t t' buf Hn Hfresh.
    assert (normalizeMessage t ∉ keptBy buf) as Hkept.
    { intros Hin. apply Hfresh. by eapply keptBy_subseteq. }
    split.
    + rewrite addUIMessage_snoc.
      rewrite (isFromUI_found t' _ (length (keptBy buf))).
      * by rewrite delete_snoc_last.
      * rewrite Hn. by apply indexOf_fresh_snoc.
    + apply isFromUI_absent. by rewrite Hn.
Qed.

Lemma isFromUI_one_shot_witness :
  isFromUI (js " hi" ++ [13; 10]) (addUIMessage (js "hi") []) = (true, [])
  ∧ isFromUI (js " hi" ++ [13; 10]) [] = (false, []).
Proof.
  apply (proj1 (proj2 isFromUI_one_shot) (js "hi") (js " hi" ++ [13; 10]) []).
  - reflexivity.
  - apply not_elem_of_nil.
Defined.

End EchoSuppressorFacts.

(** ** Registry of forwarded message ids *)

Section SentMessageTrackerFacts.
Import SentMessageTracker.

Lemma trackSentMessage_known (st : t) (messageId : jsstring) :
  messageId ∈ ids st → trackSentMessage st messageId = st.
Proof. intros H. unfold trackSentMessage. by rewrite decide_True. Qed.

Lemma trackSentMessage_below_max (st : t) (messageId : jsstring) :
  messageId ∉ ids st →
  (length (queue st) < MAX_SENT_MESSAGE_IDS)%nat →
  trackSentMessage st messageId
  = {| ids := {[messageId]} ∪ ids st; queue := queue st ++ [messageId] |}.
Proof.
  intros Hnew Hlen. unfold trackSentMessage. rewrite decide_False by done.
  rewrite length_app. simpl.
  destruct (MAX_SENT_MESSAGE_IDS <? length (queue st) + 1)%nat eqn:E; [|done].
  apply Nat.ltb_lt in E. lia.
Qed.

Lemma trackSentMessage_at_max (st : t) (messageId oldest : jsstring)
    (rest : list jsstring) :
  messageId ∉ ids st →
  queue st = oldest :: rest →
  (MAX_SENT_MESSAGE_IDS ≤ length (queue st))%nat →
  trackSentMessage st messageId
  = {| ids := if truthy oldest
              then ({[messageId]} ∪ ids st) ∖ {[oldest]}
              else {[messageId]} ∪ ids st;
       queue := rest ++ [messageId] |}.
Proof.
  intros Hnew Hq Hlen. unfold trackSentMessage. rewrite decide_False by done.
  rewrite length_app. simpl.
  destruct (MAX_SENT_MESSAGE_IDS <? length (queue st) + 1)%nat eqn:E.
  - rewrite Hq. simpl. by destruct (truthy oldest).
  - apply Nat.ltb_ge in E. lia.
Qed.

Lemma truthy_nonempty (s : jsstring) : s ≠ [] → truthy s = true.
Proof. by destruct s. Qed.

(** The invariant that tracking non-empty ids maintains. *)
Lemma trackSentMessage_preserves (st : t) (messageId : jsstring) :
  messageId ≠ [] →
  ids st = list_to_set (queue st) → NoDup (queue st) →
  (length (queue st) ≤ MAX_SENT_MESSAGE_IDS)%nat →
  Forall (fun x => x ≠ []) (queue st) →
  let st' := trackSentMessage st messageId in
  ids st' = list_to_set (queue st') ∧ NoDup (queue st')
  ∧ (length (queue st') ≤ MAX_SENT_MESSAGE_IDS)%nat
  ∧ Forall (fun x => x ≠ []) (queue st').
Proof.
  intros Hne Hset Hnd Hlen Hall st'. subst st'.
  destruct (decide (messageId ∈ ids st)) as [Hin|Hnew].
  { by rewrite trackSentMessage_known. }
  assert (messageId ∉ queue st) as Hq.
  { intros H. apply Hnew. rewrite Hset. by apply elem_of_list_to_set. }
  assert (NoDup (queue st ++ [messageId])) as Hnd1.
  { apply NoDup_app. split; [done|]. split; [|apply NoDup_singleton].
    intros x Hx Hx'. apply list_elem_of_singleton in Hx'. by subst. }
  destruct (decide (length (queue st) < MAX_SENT_MESSAGE_IDS)%nat) as [Hlt|Hge].
  - rewrite trackSentMessage_below_max by done. simpl.
    split; [|split; [done|split]].
    + rewrite list_to_set_app_L, Hset. simpl. set_solver.
    + rewrite length_app. simpl. lia.
    + apply Forall_app. split; [done|]. by constructor.
  - destruct (queue st) as [|oldest rest] eqn:Eq.
    { simpl in Hge. unfold MAX_SENT_MESSAGE_IDS in Hge. lia. }
    rewrite (trackSentMessage_at_max st messageId oldest rest) by (try done; rewrite Eq; lia).
    simpl. apply Forall_cons in Hall as [Hold Hrest].
    rewrite truthy_nonempty by done.
    simpl in Hnd1. apply NoDup_cons in Hnd1 as [Hfresh Hnd1].
    split; [|split; [done|split]].
    + rewrite Hset. rewrite list_to_set_app_L. simpl.
      assert (oldest ∉ (list_to_set rest : gset jsstring)) as H1.
      { rewrite elem_of_list_to_set. intros H. apply Hfresh.
        apply elem_of_app. by left. }
      assert (oldest ≠ messageId) as H2.
      { intros ->. apply Hfresh. apply elem_of_app. right. by left. }
      set_solver.
    + rewrite length_app. simpl in *. lia.
    + apply Forall_app. split; [done|]. by constructor.
Qed.

Lemma trackAll_snoc (messageIds : list jsstring) (messageId : jsstring) (st : t) :
  trackAll (messageIds ++ [messageId]) st
  = trackSentMessage (trackAll messageIds st) messageId.
Proof. unfold trackAll. by rewrite foldl_app. Qed.

Lemma trackAll_preserves (messageIds : list jsstring) :
  Forall (fun x => x ≠ []) messageIds →
  let st := trackAll messageIds empty in
  ids st = list_to_set (queue st) ∧ NoDup (queue st)
  ∧ (length (queue st) ≤ MAX_SENT_MESSAGE_IDS)%nat
  ∧ Forall (fun x => x ≠ []) (queue st).
Proof.
  induction messageIds as [|messageId messageIds IH] using rev_ind; intros Hall.
  - simpl. split; [done|]. split; [constructor|].
    split; [unfold MAX_SENT_MESSAGE_IDS; lia | constructor].
  - apply Forall_app in Hall as [Hall Hlast].
    rewrite Forall_singleton in Hlast.
    destruct (IH Hall) as (H1 & H2 & H3 & H4).
    cbv zeta. rewrite trackAll_snoc. by apply trackSentMessage_preserves.
Qed.

(** The function on its own: after any sequence of track operations on
    non-empty ids, from the empty registry, the set and the queue hold the
    same ids, the queue holds no id twice, and neither holds more than 200
    entries. *)
Lemma trackAll_invariant (messageIds : list jsstring) :
  Forall (fun x => x ≠ []) messageIds →
  invariant (trackAll messageIds empty).
Proof.
  intros Hall. destruct (trackAll_preserves messageIds Hall) as (H1 & H2 & H3 & _).
  split; [|split; [done|split; [|done]]].
  - intros x. rewrite H1. apply elem_of_list_to_set.
  - rewrite H1, size_list_to_set by done. done.
Qed.

Lemma trackAll_invariant_witness :
  invariant (trackAll (ids200 ++ [freshId]) empty).
Proof.
  apply (trackAll_invariant (ids200 ++ [freshId])).
  apply (bool_decide_unpack _). vm_compute. exact I.
Defined.

(** The function on its own, given the empty id, which the plugin never
    passes it: once the empty id is the oldest entry and is evicted, it
    leaves the queue and stays in the set. *)
Lemma trackAll_empty_id_stays :
  ¬ (∀ messageIds : list jsstring, invariant (trackAll messageIds empty)).
Proof.
  intros H. destruct (H ([] :: ids200)) as (Hsync & _ & _).
  assert ([] ∈ queue (trackAll ([] :: ids200) empty)) as Hin.
  { apply Hsync. vm_compute. reflexivity. }
  revert Hin. apply (bool_decide_unpack _). vm_compute. exact I.
Qed.

Lemma filter_all_present (rest tail : list jsstring) :
  filter (fun x => x ∉ rest ++ tail) rest = [].
Proof.
  assert (∀ l : list jsstring, l ⊆ rest → filter (fun x => x ∉ rest ++ tail) l = []) as H.
  { induction l as [|y l IH]; intros Hsub; [done|].
    rewrite filter_cons_False.
    - apply IH. intros x Hx. apply Hsub. by right.
    - intros Hy. apply Hy. apply elem_of_app. left. apply Hsub. by left. }
  by apply H.
Qed.

(** C7, as the code has it.  Inserting a new id into a registry whose
    queue is at its maximum size of 200 evicts one entry, the oldest: the
    queue loses its head and gains the new id at its end, keeping its
    size; the oldest id, when it is not the empty string, leaves the set;
    and of the old queue entries the oldest is the only one missing
    afterwards. *)
Theorem trackSentMessage_evicts_oldest (st : t) (messageId oldest : jsstring)
    (rest : list jsstring) :
  messageId ∉ ids st →
  queue st = oldest :: rest →
  length (queue st) = MAX_SENT_MESSAGE_IDS →
  queue (trackSentMessage st messageId) = rest ++ [messageId]
  ∧ length (queue (trackSentMessage st messageId)) = MAX_SENT_MESSAGE_IDS
  ∧ (oldest ≠ [] →
     ids (trackSentMessage st messageId) = ({[messageId]} ∪ ids st) ∖ {[oldest]})
  ∧ (NoDup (queue st) → messageId ∉ queue st →
     evictedBy st messageId = [oldest]).
Proof.
  intros Hnew Hq Hlen.
  assert (trackSentMessage st messageId
          = {| ids := if truthy oldest
                      then ({[messageId]} ∪ ids st) ∖ {[oldest]}
                      else {[messageId]} ∪ ids st;
               queue := rest ++ [messageId] |}) as Hstep.
  { apply trackSentMessage_at_max; [done|done|lia]. }
  split; [by rewrite Hstep|]. split; [|split].
  - rewrite Hstep. simpl. rewrite length_app. simpl.
    rewrite Hq in Hlen. simpl in Hlen. lia.
  - intros Hne. rewrite Hstep. simpl. by rewrite truthy_nonempty.
  - intros Hnd Hfresh. unfold evictedBy. rewrite Hstep, Hq. simpl.
    rewrite Hq in Hnd, Hfresh. apply NoDup_cons in Hnd as [Hold _].
    rewrite filter_cons_True.
    + by rewrite filter_all_present.
    + rewrite elem_of_app, list_elem_of_singleton.
      intros [H|H]; [done|]. subst. apply Hfresh. by left.
Qed.

Lemma trackSentMessage_evicts_oldest_witness :
  queue (trackSentMessage fullRegistry freshId) = drop 1 ids200 ++ [freshId]
  ∧ length (queue (trackSentMessage fullRegistry freshId)) = 200%nat.
Proof.
  destruct (trackSentMessage_evicts_oldest fullRegistry freshId [1]
              (drop 1 ids200)) as (H1 & H2 & _).
  - apply (bool_decide_unpack _). vm_compute. exact I.
  - vm_compute. reflexivity.
  - vm_compute. reflexivity.
  - split; [exact H1 | exact H2].
Defined.

(** C7, as stated, fails: a batch would evict at least two entries, but
    the full registry loses one entry to a new id. *)
Lemma trackSentMessage_batch_counterexample :
  ¬ (∀ (st : t) (messageId : jsstring),
       messageId ∉ ids st →
       length (queue st) = MAX_SENT_MESSAGE_IDS →
       (2 ≤ length (evictedBy st messageId))%nat).
Proof.
  intros H. specialize (H fullRegistry freshId).
  assert (length (evictedBy fullRegistry freshId) = 1%nat) as E
    by (vm_compute; reflexivity).
  rewrite E in H. enough (2 ≤ 1)%nat by lia. apply H.
  - apply (bool_decide_unpack _). vm_compute. exact I.
  - vm_compute. reflexivity.
Qed.

End SentMessageTrackerFacts.

(** ** Accumulation of message parts *)

Section MessagePartsFacts.
Import MessageParts.

Lemma setPartContent_textByPartId (state : MessagePartsState) (partId content : jsstring) :
  textByPartId (setPartContent state partId content) = textByPartId state.
Proof. unfold setPartContent. by destruct (negb (truthy content)). Qed.

Lemma getMessageState_lookup (messageId : jsstring)
    (registry : gmap jsstring MessagePartsState) :
  textByPartId (getMessageState messageId registry).1
  = default ∅ (textByPartId <$> registry !! messageId).
Proof.
  unfold getMessageState. by destruct (registry !! messageId).
Qed.

Lemma handlePartUpdate_lookup (part : Part) (delta : option jsstring)
    (messageId : jsstring) (registry : gmap jsstring MessagePartsState) :
  messageID part = Some messageId → messageId ≠ [] →
  handlePartUpdate part delta registry !! messageId
  = Some (updateState (getMessageState messageId registry).1 part delta).
Proof.
  intros Hm Hne. unfold handlePartUpdate. rewrite Hm.
  rewrite truthy_nonempty by done. simpl.
  destruct (getMessageState messageId registry) as [state registry']. simpl.
  by rewrite lookup_insert_eq.
Qed.

(** C4, as the code has it.  For a text part of a message with a
    non-empty id: an event that carries a delta appends the delta to the
    text accumulated for the part so far (the empty text when there is
    none); an event without a delta replaces the accumulated text by the
    event's full text when that text is not empty, and keeps the
    accumulated text when it is.  The deltas Hel and lo accumulate to
    Hello, which is also what the message assembles to, and a full-text
    event after them overwrites. *)
Theorem handlePartUpdate_text :
  (∀ (messageId partId text : jsstring) (delta : option jsstring)
     (registry : gmap jsstring MessagePartsState),
     messageId ≠ [] →
     accumulatedText messageId partId
       (handlePartUpdate (textPart messageId partId text) delta registry)
     = Some (let before := default [] (accumulatedText messageId partId registry) in
             match delta with
             | Some d => before ++ d
             | None => if truthy text then text else before
             end))
  ∧ (let m := js "msg_1" in
     let p := js "prt_1" in
     let r1 := handlePartUpdate (textPart m p (js "Hel")) (Some (js "Hel")) ∅ in
     let r2 := handlePartUpdate (textPart m p (js "Hello")) (Some (js "lo")) r1 in
     let r3 := handlePartUpdate (textPart m p (js "Bye")) None r2 in
     accumulatedText m p r2 = Some (js "Hello")
     ∧ buildMessageContent m r2 = js "Hello"
     ∧ accumulatedText m p r3 = Some (js "Bye")
     ∧ buildMessageContent m r3 = js "Bye").
Proof.
  split; [|by vm_compute].
  intros messageId partId text delta registry Hne.
  unfold accumulatedText at 1.
  rewrite (handlePartUpdate_lookup _ _ messageId) by done. simpl.
  pose proof (getMessageState_lookup messageId registry) as Hstate.
  destruct (getMessageState messageId registry) as [state registry']. simpl in *.
  unfold updateState. simpl.
  rewrite setPartContent_textByPartId. simpl. rewrite lookup_insert_eq.
  assert (default [] (textByPartId state !! partId)
          = default [] (accumulatedText messageId partId registry)) as ->; [|done].
  rewrite Hstate. unfold accumulatedText.
  by destruct (registry !! messageId).
Qed.

Lemma handlePartUpdate_text_witness :
  accumulatedText (js "m") (js "p")
    (handlePartUpdate (textPart (js "m") (js "p") (js "Hello")) (Some (js "lo"))
       (handlePartUpdate (textPart (js "m") (js "p") (js "Hel")) (Some (js "Hel")) ∅))
  = Some (js "Hello").
Proof.
  rewrite (proj1 handlePartUpdate_text (js "m") (js "p") (js "Hello") (Some (js "lo")))
    by (vm_compute; congruence).
  vm_compute. reflexivity.
Defined.

(** C4, as stated, fails: a full-text event whose text is empty does not
    replace the accumulated text, it keeps it. *)
Lemma handlePartUpdate_text_counterexample :
  ¬ (∀ (messageId partId text : jsstring)
       (registry : gmap jsstring MessagePartsState),
       messageId ≠ [] →
       accumulatedText messageId partId
         (handlePartUpdate (textPart messageId partId text) None registry)
       = Some text).
Proof.
  intros H.
  specialize (H (js "m") (js "p") []
                (handlePartUpdate (textPart (js "m") (js "p") (js "Hello"))
                   (Some (js "Hello")) ∅)).
  vm_compute in H. specialize (H ltac:(congruence)). congruence.
Qed.

Lemma trim_nil : trim [] = [].
Proof. reflexivity. Qed.

Lemma buildMessageContent_no_state (messageId : jsstring)
    (registry : gmap jsstring MessagePartsState) :
  registry !! messageId = None → buildMessageContent messageId registry = [].
Proof. intros H. unfold buildMessageContent. by rewrite H. Qed.

Lemma buildMessageContent_blank (messageId : jsstring)
    (registry : gmap jsstring MessagePartsState) :
  allPartsBlank messageId registry →
  buildMessageContent messageId registry = [].
Proof.
  intros Hblank. unfold buildMessageContent.
  destruct (registry !! messageId) as [state|] eqn:E; [|done].
  assert (∀ l : list jsstring, l ⊆ order state →
          omap (fun part : option jsstring =>
                  match part with
                  | Some p =>
                      if truthy p && (0 <? length (trim p))%nat
                      then Some p else None
                  | None => None
                  end)
               (map (fun partId => parts state !! partId) l) = []) as Hkept.
  { induction l as [|partId l IH]; intros Hsub; [done|].
    csimpl. rewrite IH by (intros x Hx; apply Hsub; by right).
    destruct (parts state !! partId) as [p|] eqn:Ep; [|done].
    rewrite (Hblank state partId p E) by (try done; apply Hsub; by left).
    simpl. by rewrite andb_false_r. }
  rewrite Hkept by done. reflexivity.
Qed.

End MessagePartsFacts.

(** ** Forwarding of completed assistant messages *)

Section OrchestratorFacts.
Import Orchestrator.

Lemma trackReportedAgent_assistant (message : Message) (st : State) :
  role message = assistant → trackReportedAgent message st = (st, []).
Proof. intros H. unfold trackReportedAgent. by rewrite H. Qed.

Lemma trackReportedAgent_no_send (message : Message) (st : State)
    (content : jsstring) :
  SendMessage content ∉ (trackReportedAgent message st).2.
Proof.
  unfold trackReportedAgent.
  destruct (role message), (agent message) as [a|]; simpl;
    try apply not_elem_of_nil.
  destruct (truthy a); simpl; [|apply not_elem_of_nil].
  destruct (decide _); [apply not_elem_of_nil|].
  intros H. apply list_elem_of_singleton in H. discriminate.
Qed.

Lemma trackReportedAgent_registry (message : Message) (st : State) :
  messagePartsById (trackReportedAgent message st).1 = messagePartsById st.
Proof.
  unfold trackReportedAgent.
  destruct (role message), (agent message) as [a|]; simpl; try done.
  by destruct (truthy a).
Qed.

(** C8. A message whose rendered parts are all blank, or that has no
    state, assembles to the empty string; on such a message the
    [message.updated] handler of an assistant message calls the remote
    side not at all and tracks nothing; and whatever the message, the
    handler forwards a text only for a completed assistant message, and
    then the text is the assembled one and is not empty. *)
Theorem empty_assembly_not_forwarded :
  (∀ (messageId : jsstring)
     (registry : gmap jsstring MessageParts.MessagePartsState),
     MessageParts.allPartsBlank messageId registry →
     MessageParts.buildMessageContent messageId registry = [])
  ∧ (∀ (message : Message) (st : State),
       role message = assistant →
       MessageParts.allPartsBlank (id message) (messagePartsById st) →
       (onMessageUpdated message st).2 = []
       ∧ sent (onMessageUpdated message st).1 = sent st)
  ∧ (∀ (message : Message) (st : State) (content : jsstring),
       SendMessage content ∈ (onMessageUpdated message st).2 →
       role message = assistant
       ∧ isCompleted message = true
       ∧ content = MessageParts.buildMessageContent (id message) (messagePartsById st)
       ∧ content ≠ []).
Proof.
  split; [exact buildMessageContent_blank|]. split.
  - intros message st Hrole Hblank. unfold onMessageUpdated.
    rewrite trackReportedAgent_assistant by done. rewrite Hrole.
    rewrite buildMessageContent_blank by done. simpl.
    by destruct (negb (isCompleted message)).
  - intros message st content. unfold onMessageUpdated.
    pose proof (trackReportedAgent_no_send message st content) as Hno.
    pose proof (trackReportedAgent_registry message st) as Hreg.
    destruct (trackReportedAgent message st) as [st1 calls1]. simpl in *.
    destruct (role message); [done|].
    destruct (isCompleted message); simpl; [|done].
    rewrite Hreg.
    destruct (0 <? length _)%nat eqn:Elen; simpl; [|done].
    destruct (negb (SentMessageTracker.has (sent st1) (id message))); simpl; [|done].
    rewrite elem_of_app, list_elem_of_singleton. intros [H|H]; [done|].
    injection H as ->. split; [done|]. split; [done|]. split; [done|].
    intros Hnil. rewrite Hnil in Elen. discriminate.
Qed.

Lemma blankState_allPartsBlank :
  MessageParts.allPartsBlank (js "msg_1") (messagePartsById blankState).
Proof.
  intros state partId p Hstate Hin Hp.
  vm_compute in Hstate. injection Hstate as <-.
  apply list_elem_of_singleton in Hin. subst partId.
  vm_compute in Hp. injection Hp as <-. reflexivity.
Qed.

Lemma empty_assembly_not_forwarded_witness :
  (onMessageUpdated (completedAssistant (js "msg_1")) blankState).2 = []
  ∧ sent (onMessageUpdated (completedAssistant (js "msg_1")) blankState).1
    = sent blankState.
Proof.
  apply (proj1 (proj2 empty_assembly_not_forwarded)
           (completedAssistant (js "msg_1")) blankState).
  - reflexivity.
  - exact blankState_allPartsBlank.
Defined.

(** The registry of part states never has an entry for the empty id. *)
Lemma handlePartUpdate_no_empty_id (part : MessageParts.Part)
    (delta : option jsstring)
    (registry : gmap jsstring MessageParts.MessagePartsState) :
  registry !! [] = None →
  MessageParts.handlePartUpdate part delta registry !! [] = None.
Proof.
  intros H. unfold MessageParts.handlePartUpdate.
  destruct (MessageParts.messageID part) as [messageId|]; [|done].
  destruct messageId as [|c messageId]; [done|]. simpl.
  unfold MessageParts.getMessageState.
  destruct (registry !! (c :: messageId)); simpl.
  - by rewrite lookup_insert_ne.
  - by rewrite !lookup_insert_ne.
Qed.

(** The orchestrator tracks non-empty ids only: the handler leaves the
    tracker alone or tracks the id of the message, and that id is not
    empty because it has part state. *)
Lemma onMessageUpdated_tracks_nonempty (message : Message) (st : State) :
  messagePartsById st !! [] = None →
  messagePartsById (onMessageUpdated message st).1 !! [] = None
  ∧ (sent (onMessageUpdated message st).1 = sent st
     ∨ (id message ≠ []
        ∧ sent (onMessageUpdated message st).1
          = SentMessageTracker.trackSentMessage (sent st) (id message))).
Proof.
  intros Hreg. unfold onMessageUpdated.
  pose proof (trackReportedAgent_registry message st) as Hreg1.
  assert (sent (trackReportedAgent message st).1 = sent st) as Hsent1.
  { unfold trackReportedAgent.
    destruct (role message), (agent message) as [a|]; simpl; try done.
    by destruct (truthy a). }
  destruct (trackReportedAgent message st) as [st1 calls1]. simpl in *.
  destruct (role message); simpl.
  { split; [by rewrite Hreg1 | by left]. }
  destruct (isCompleted message); simpl.
  2:{ split; [by rewrite Hreg1 | by left]. }
  rewrite Hreg1.
  assert (delete (id message) (messagePartsById st) !! [] = None) as Hdel.
  { destruct (decide (id message = [])) as [->|Hne].
    - by rewrite lookup_delete_eq.
    - by rewrite lookup_delete_ne. }
  destruct (0 <? length _)%nat eqn:Elen; simpl.
  2:{ split; [done | by left]. }
  destruct (negb (SentMessageTracker.has (sent st1) (id message))); simpl.
  2:{ split; [done | by left]. }
  split; [done|]. right. split; [|by rewrite Hsent1].
  intros Hnil. rewrite Hnil in Elen.
  rewrite buildMessageContent_no_state in Elen by done.
  discriminate.
Qed.


End OrchestratorFacts.

(** ** Cycling the agent indicator *)

Section ControlFacts.
Import Control.

Lemma findIndex_Some {A} (pred : A → bool) (l : list A) (i : nat) :
  findIndex pred l = Some i ↔
  (∃ a, l !! i = Some a ∧ pred a = true)
  ∧ ∀ k a, (k < i)%nat → l !! k = Some a → pred a = false.
Proof.
  revert i. induction l as [|x l IH]; intros i; simpl.
  - split; [done|]. intros [(a & Ha & _) _]. done.
  - destruct (pred x) eqn:Ex.
    + split.
      * intros [= <-]. split; [by exists x|]. intros k a Hk. lia.
      * intros [(a & Ha & Hp) Hfirst]. destruct i as [|i]; [done|].
        specialize (Hfirst 0%nat x ltac:(lia) eq_refl). congruence.
    + destruct i as [|i].
      * split.
        -- destruct (findIndex pred l); simpl; done.
        -- intros [(a & Ha & Hp) _]. simpl in Ha. congruence.
      * assert (S <$> findIndex pred l = Some (S i)
                ↔ findIndex pred l = Some i) as ->.
        { destruct (findIndex pred l); simpl; split; intros H;
            try done; by injection H as ->. }
        rewrite IH. simpl. split.
        -- intros [Hex Hfirst]. split; [done|].
           intros [|k] a Hk Ha; simpl in Ha; [congruence|].
           eapply Hfirst; [|done]. lia.
        -- intros [Hex Hfirst]. split; [done|].
           intros k a Hk Ha. apply (Hfirst (S k) a); [lia|done].
Qed.

Lemma findIndex_lt {A} (pred : A → bool) (l : list A) (i : nat) :
  findIndex pred l = Some i → (i < length l)%nat.
Proof.
  intros H. apply findIndex_Some in H as [(a & Ha & _) _].
  by eapply lookup_lt_Some.
Qed.

Lemma findIndex_isIndexOf (agents : list Agent) (n : jsstring) (i : nat) :
  findIndex (fun a => bool_decide (name a = n)) agents = Some i
  ↔ isIndexOf agents n i.
Proof.
  rewrite findIndex_Some. unfold isIndexOf. split.
  - intros [(a & Ha & Hp) Hfirst]. split.
    + exists a. split; [done|]. by apply bool_decide_eq_true in Hp.
    + intros k b Hk Hb. specialize (Hfirst k b Hk Hb).
      by apply bool_decide_eq_false in Hfirst.
  - intros [(a & Ha & Hp) Hfirst]. split.
    + exists a. split; [done|]. by apply bool_decide_eq_true.
    + intros k b Hk Hb. apply bool_decide_eq_false. by eapply Hfirst.
Qed.

Lemma findIndex_ext {A} (p q : A → bool) (l : list A) :
  (∀ a, p a = q a) → findIndex p l = findIndex q l.
Proof.
  intros H. induction l as [|x l IH]; simpl; [done|]. by rewrite H, IH.
Qed.

Lemma findIndex_current (agents : list Agent) (c : jsstring) :
  findIndex (fun a => bool_decide (Some (name a) = Some c)) agents
  = findIndex (fun a => bool_decide (name a = c)) agents.
Proof.
  apply findIndex_ext. intros a. apply bool_decide_ext.
  split; [by intros [= ->] | by intros ->].
Qed.

(** The remainder the code computes is the mathematical one. *)
Lemma cycle_rem (i j len : nat) :
  (i < len)%nat → (j < len)%nat →
  Z.rem (Z.of_nat j - Z.of_nat i + Z.of_nat len) (Z.of_nat len)
  = ((Z.of_nat j - Z.of_nat i + Z.of_nat len) `mod` Z.of_nat len)%Z.
Proof. intros Hi Hj. apply Z.rem_mod_nonneg; lia. Qed.

Lemma stepsTo_found (agents : list Agent) (target : jsstring)
    (current : option jsstring) (steps : Z) :
  stepsTo agents target current = Some steps →
  ∃ i j : nat,
    isIndexOf agents target j
    ∧ match current with
      | Some c => isIndexOf agents c i
      | None => i = 0%nat
      end
    ∧ (i < length agents)%nat ∧ (j < length agents)%nat
    ∧ steps = ((Z.of_nat j - Z.of_nat i + Z.of_nat (length agents))
               `mod` Z.of_nat (length agents))%Z.
Proof.
  unfold stepsTo.
  destruct (findIndex _ agents) as [j|] eqn:Ej; [|done].
  destruct (findIndex (fun a => bool_decide (Some (name a) = _)) agents)
    as [i|] eqn:Ei; [|done].
  intros [= <-]. exists i, j.
  pose proof (findIndex_lt _ _ _ Ej) as Hj.
  pose proof (findIndex_lt _ _ _ Ei) as Hi.
  split; [by apply findIndex_isIndexOf|]. split.
  - destruct current as [c|].
    + rewrite findIndex_current in Ei. by apply findIndex_isIndexOf.
    + destruct agents as [|a agents]; [done|]. simpl in Ei.
      rewrite bool_decide_eq_true_2 in Ei by done. by injection Ei.
  - split; [done|]. split; [done|]. by apply cycle_rem.
Qed.

Lemma stepsTo_computed (agents : list Agent) (target : jsstring)
    (current : option jsstring) (i j : nat) :
  isIndexOf agents target j →
  match current with
  | Some c => isIndexOf agents c i
  | None => i = 0%nat
  end →
  stepsTo agents target current
  = Some ((Z.of_nat j - Z.of_nat i + Z.of_nat (length agents))
          `mod` Z.of_nat (length agents))%Z.
Proof.
  intros Hj Hi. unfold stepsTo.
  pose proof Hj as Hj'. apply findIndex_isIndexOf in Hj'. rewrite Hj'.
  pose proof (findIndex_lt _ _ _ Hj') as Hjlt.
  assert (findIndex
            (fun a => bool_decide
               (Some (name a)
                = match current with
                  | Some c => Some c
                  | None => name <$> head agents
                  end)) agents = Some i) as Ei.
  { destruct current as [c|].
    - rewrite findIndex_current. by apply findIndex_isIndexOf.
    - subst i. destruct agents as [|a agents]; [simpl in Hjlt; lia|].
      simpl. by rewrite bool_decide_eq_true_2. }
  rewrite Ei. pose proof (findIndex_lt _ _ _ Ei) as Hilt.
  by rewrite cycle_rem.
Qed.

Lemma cycleLoop_trace (client : Client) (remaining : nat) (issued : list jsstring) :
  ∃ n : nat,
    (n ≤ remaining)%nat
    ∧ (cycleLoop client remaining issued).2
      = issued ++ replicate n (js "agent.cycle").
Proof.
  revert issued. induction remaining as [|k IH]; intros issued.
  - exists 0%nat. split; [lia|]. simpl. by rewrite app_nil_r.
  - simpl. destruct (tui_completes client issued (js "agent.cycle")).
    + destruct (IH (issued ++ [js "agent.cycle"])) as (n & Hn & Ht).
      exists (S n). split; [lia|]. rewrite Ht. simpl.
      by rewrite <- app_assoc.
    + exists 1%nat. split; [lia|]. done.
Qed.

Lemma cycleLoop_steady (client : Client) (remaining : nat) (issued : list jsstring) :
  (∀ done command, tui_completes client done command = true) →
  cycleLoop client remaining issued
  = (true, issued ++ replicate remaining (js "agent.cycle")).
Proof.
  intros Hok. revert issued. induction remaining as [|k IH]; intros issued.
  - simpl. by rewrite app_nil_r.
  - simpl. rewrite Hok, IH. simpl. by rewrite <- app_assoc.
Qed.

(** C1. For an agent list that contains the target, the coordinator
    computes the number of forward steps as
    (index(target) - index(current) + length) mod length, where an
    undefined current agent counts as index 0, and, on a terminal whose
    commands complete, issues that many [agent.cycle] commands and no
    other; a current agent that is defined but not in the list leaves no
    index to count from, and no step count is computed.  With the agents
    A, B, C, D, current C and target A it issues 2; with A, B, C, current
    undefined and target C it issues 2. *)
Theorem cycleTuiToAgent_steps :
  (∀ (agents : list Agent) (target : jsstring) (current : option jsstring)
     (i j : nat),
     isIndexOf agents target j →
     match current with
     | Some c => isIndexOf agents c i
     | None => i = 0%nat
     end →
     stepsTo agents target current
     = Some ((Z.of_nat j - Z.of_nat i + Z.of_nat (length agents))
             `mod` Z.of_nat (length agents))%Z)
  ∧ (∀ (client : Client) (allAgents : list Agent) (target : jsstring)
       (current : option jsstring) (issued : list jsstring) (steps : Z),
       app_agents client = Some allAgents →
       stepsTo (filter (fun a => isPrimary a = true) allAgents) target current
       = Some steps →
       (∀ done command, tui_completes client done command = true) →
       cycleTuiToAgent client target current issued
       = (true, issued ++ replicate (Z.to_nat steps) (js "agent.cycle")))
  ∧ (∀ (agents : list Agent) (target c : jsstring),
       (∀ i, ¬ isIndexOf agents c i) →
       stepsTo agents target (Some c) = None)
  ∧ (let agents := [primary "A"; primary "B"; primary "C"; primary "D"] in
     stepsTo agents (js "A") (Some (js "C")) = Some 2%Z
     ∧ cycleTuiToAgent (steadyClient agents) (js "A") (Some (js "C")) []
       = (true, [js "agent.cycle"; js "agent.cycle"]))
  ∧ (let agents := [primary "A"; primary "B"; primary "C"] in
     stepsTo agents (js "C") None = Some 2%Z
     ∧ cycleTuiToAgent (steadyClient agents) (js "C") None []
       = (true, [js "agent.cycle"; js "agent.cycle"])).
Proof.
  split; [exact stepsTo_computed|]. split; [|split; [|split; by vm_compute]].
  - intros client allAgents target current issued steps Hagents Hsteps Hok.
    unfold cycleTuiToAgent. rewrite Hagents, Hsteps.
    by apply cycleLoop_steady.
  - intros agents target c Hnone. unfold stepsTo.
    destruct (findIndex _ agents) as [j|]; [|done].
    rewrite findIndex_current.
    destruct (findIndex _ agents) as [i|] eqn:Ei; [|done].
    apply findIndex_isIndexOf in Ei. by apply Hnone in Ei.
Qed.

Lemma cycleTuiToAgent_steps_witness :
  stepsTo [primary "A"; primary "B"; primary "C"; primary "D"]
          (js "A") (Some (js "C"))
  = Some ((Z.of_nat 0 - Z.of_nat 2 + Z.of_nat 4) `mod` Z.of_nat 4)%Z.
Proof.
  apply (proj1 cycleTuiToAgent_steps
           [primary "A"; primary "B"; primary "C"; primary "D"]
           (js "A") (Some (js "C")) 2%nat 0%nat).
  - apply findIndex_isIndexOf. reflexivity.
  - apply findIndex_isIndexOf. reflexivity.
Defined.

(** C10. A computed step count lies between 0 and length - 1; whatever
    the terminal does, the coordinator issues [agent.cycle] commands
    only, at most length - 1 of them for the list of agents it cycles
    through; and it issues none when the current agent, or the first
    agent when the current one is undefined, is the target. *)
Theorem stepsTo_bounds :
  (∀ (agents : list Agent) (target : jsstring) (current : option jsstring)
     (steps : Z),
     stepsTo agents target current = Some steps →
     (0 ≤ steps < Z.of_nat (length agents))%Z)
  ∧ (∀ (client : Client) (target : jsstring) (current : option jsstring)
       (issued : list jsstring),
       ∃ n : nat,
         (cycleTuiToAgent client target current issued).2
         = issued ++ replicate n (js "agent.cycle")
         ∧ match app_agents client with
           | Some allAgents =>
               (n ≤ length (filter (fun a => isPrimary a = true) allAgents) - 1)%nat
           | None => n = 0%nat
           end)
  ∧ (∀ (agents : list Agent) (target : jsstring) (current : option jsstring)
       (j : nat),
       isIndexOf agents target j →
       current = Some target ∨ (current = None ∧ j = 0%nat) →
       stepsTo agents target current = Some 0%Z)
  ∧ (∀ (client : Client) (allAgents : list Agent) (target : jsstring)
       (current : option jsstring) (issued : list jsstring) (j : nat),
       app_agents client = Some allAgents →
       isIndexOf (filter (fun a => isPrimary a = true) allAgents) target j →
       current = Some target ∨ (current = None ∧ j = 0%nat) →
       cycleTuiToAgent client target current issued = (true, issued)).
Proof.
  assert (∀ (agents : list Agent) (target : jsstring) (current : option jsstring)
            (j : nat),
       isIndexOf agents target j →
       current = Some target ∨ (current = None ∧ j = 0%nat) →
       stepsTo agents target current = Some 0%Z) as Hzero.
  { intros agents target current j Hj Hcur.
    assert (j < length agents)%nat as Hlt.
    { apply findIndex_isIndexOf in Hj. by eapply findIndex_lt. }
    rewrite (stepsTo_computed agents target current j j Hj).
    - f_equal. replace (Z.of_nat j - Z.of_nat j + Z.of_nat (length agents))%Z
        with (Z.of_nat (length agents)) by lia.
      apply Z_mod_same_full.
    - destruct Hcur as [->|[-> ->]]; done. }
  split; [|split; [|split; [exact Hzero|]]].
  - intros agents target current steps H.
    apply stepsTo_found in H as (i & j & _ & _ & Hi & Hj & ->).
    apply Z.mod_pos_bound. lia.
  - intros client target current issued. unfold cycleTuiToAgent.
    destruct (app_agents client) as [allAgents|].
    2:{ exists 0%nat. simpl. by rewrite app_nil_r. }
    destruct (stepsTo _ target current) as [steps|] eqn:Es.
    2:{ exists 0%nat. simpl. rewrite app_nil_r. split; [done|lia]. }
    destruct (cycleLoop_trace client (Z.to_nat steps) issued) as (n & Hn & Ht).
    exists n. split; [done|].
    apply stepsTo_found in Es as (i & j & _ & _ & Hi & Hj & ->).
    revert Hn Hi Hj.
    generalize (length (filter (fun a => isPrimary a = true) allAgents)).
    intros len Hn Hi Hj.
    pose proof (Z.mod_pos_bound
      (Z.of_nat j - Z.of_nat i + Z.of_nat len) (Z.of_nat len)) as Hb.
    lia.
  - intros client allAgents target current issued j Hagents Hj Hcur.
    unfold cycleTuiToAgent. rewrite Hagents.
    by rewrite (Hzero _ target current j Hj Hcur).
Qed.

Lemma stepsTo_bounds_witness :
  (0 ≤ 2 < Z.of_nat (length [primary "A"; primary "B"; primary "C"]))%Z
  ∧ cycleTuiToAgent (steadyClient [primary "A"; primary "B"; primary "C"])
      (js "B") (Some (js "B")) [] = (true, []).
Proof.
  split.
  - apply (proj1 stepsTo_bounds [primary "A"; primary "B"; primary "C"]
             (js "C") None 2%Z).
    reflexivity.
  - apply (proj2 (proj2 (proj2 stepsTo_bounds))
             (steadyClient [primary "A"; primary "B"; primary "C"])
             [primary "A"; primary "B"; primary "C"]
             (js "B") (Some (js "B")) [] 1%nat).
    + reflexivity.
    + apply findIndex_isIndexOf. reflexivity.
    + by left.
Defined.

End ControlFacts.

(** ** Matching a reply against permission options *)

Section PermissionFacts.
Import Permission.

Lemma canonicalize_inj (c d : N) :
  ¬ isCapital c → ¬ isCapital d → canonicalize c = canonicalize d → c = d.
Proof.
  unfold isCapital, canonicalize. intros Hc Hd.
  destruct (N.leb_spec 97 c), (N.leb_spec c 122),
    (N.leb_spec 97 d), (N.leb_spec d 122); simpl; lia.
Qed.

Lemma map_canonicalize_inj (s w : jsstring) :
  Forall (fun c => ¬ isCapital c) s → Forall (fun c => ¬ isCapital c) w →
  map canonicalize w = map canonicalize s → w = s.
Proof.
  intros Hs. revert w. induction Hs as [|c s Hc Hs IH]; intros w Hw Heq.
  - by destruct w.
  - destruct Hw as [|d w Hd Hw]; [done|]. simpl in Heq.
    injection Heq as H1 H2. f_equal.
    + by apply canonicalize_inj.
    + by apply IH.
Qed.

Lemma testAnyOf_elem_of (words : list jsstring) (s : jsstring) :
  Forall (Forall (fun c => ¬ isCapital c)) words →
  Forall (fun c => ¬ isCapital c) s →
  testAnyOf words s = true ↔ s ∈ words.
Proof.
  intros Hwords Hs. unfold testAnyOf. rewrite existsb_exists. split.
  - intros (w & Hin & Heq). apply bool_decide_eq_true in Heq.
    apply list_elem_of_In in Hin.
    rewrite Forall_forall in Hwords.
    rewrite <- (map_canonicalize_inj s w); auto.
  - intros Hin. exists s. split; [by apply list_elem_of_In|].
    by apply bool_decide_eq_true.
Qed.

Lemma keywords_lower_case :
  Forall (Forall (fun c => ¬ isCapital c))
         (affirmativeWords ++ persistenceWords ++ negativeWords).
Proof.
  unfold isCapital. apply (bool_decide_unpack _). vm_compute. exact I.
Qed.

Lemma keywords_disjoint :
  Forall (fun w => w ∉ affirmativeWords) (persistenceWords ++ negativeWords)
  ∧ Forall (fun w => w ∉ persistenceWords) negativeWords.
Proof. split; apply (bool_decide_unpack _); vm_compute; exact I. Qed.

Lemma matchNumber_in_range (options : list PermissionOption) (num : Z) :
  (1 ≤ num ≤ Z.of_nat (length options))%Z →
  is_Some (options !! Z.to_nat (num - 1)).
Proof. intros H. apply lookup_lt_is_Some. lia. Qed.

(** *** Reading an integer *)

Lemma isDigit_bounds (c : N) : isDigit c = true ↔ 48 ≤ c ∧ c ≤ 57.
Proof.
  unfold isDigit. rewrite andb_true_iff, !N.leb_le. done.
Qed.

Lemma digitsValue_snoc (s : jsstring) (d : N) :
  digitsValue (s ++ [d]) = (10 * digitsValue s + (Z.of_N d - 48))%Z.
Proof. unfold digitsValue. by rewrite fold_left_app. Qed.

Lemma isNumeral_digits (s : jsstring) (n : Z) :
  isNumeral s n →
  s ≠ [] ∧ Forall (fun c => isDigit c = true) s ∧ digitsValue s = n.
Proof.
  induction 1 as [d Hd|s n d Hs (Hne & Hall & Hv) Hd].
  - split; [done|]. split; [|done].
    constructor; [by apply isDigit_bounds|constructor].
  - split; [by destruct s|]. split.
    + apply Forall_app. split; [done|].
      constructor; [by apply isDigit_bounds|constructor].
    + by rewrite digitsValue_snoc, Hv.
Qed.

Lemma digits_isNumeral (s : jsstring) :
  s ≠ [] → Forall (fun c => isDigit c = true) s → isNumeral s (digitsValue s).
Proof.
  induction s as [|d s IH] using rev_ind; [done|].
  intros _ Hall. apply Forall_app in Hall as [Hs Hd].
  apply Forall_cons in Hd as [Hd _]. apply isDigit_bounds in Hd.
  destruct s as [|c s].
  - by apply (numeral_digit d).
  - rewrite digitsValue_snoc. apply numeral_snoc; [|done]. by apply IH.
Qed.

Lemma digitsPrefix_split (s : jsstring) :
  ∃ rest,
    s = digitsPrefix s ++ rest
    ∧ Forall (fun c => isDigit c = true) (digitsPrefix s)
    ∧ ∀ c, head rest = Some c → ¬ (48 ≤ c ∧ c ≤ 57).
Proof.
  induction s as [|c s (rest & E & Hall & Hrest)].
  - exists []. by repeat split.
  - simpl. destruct (isDigit c) eqn:Ec.
    + exists rest. split; [simpl; by f_equal|]. split; [by constructor|done].
    + exists (c :: s). split; [done|]. split; [constructor|].
      intros d [= <-] Hd. apply isDigit_bounds in Hd. congruence.
Qed.

Lemma digitsPrefix_front (digits rest : jsstring) :
  Forall (fun c => isDigit c = true) digits →
  (∀ c, head rest = Some c → ¬ (48 ≤ c ∧ c ≤ 57)) →
  digitsPrefix (digits ++ rest) = digits.
Proof.
  intros Hall Hrest. induction Hall as [|d digits Hd Hall IH]; simpl.
  - destruct rest as [|c rest]; [done|]. simpl.
    destruct (isDigit c) eqn:Ec; [|done].
    apply isDigit_bounds in Ec. by destruct (Hrest c eq_refl).
  - by rewrite Hd, IH.
Qed.

Lemma trimStart_front (s : jsstring) :
  ∃ blank,
    s = blank ++ trimStart s
    ∧ Forall (fun c => isWhiteSpace c = true) blank.
Proof.
  induction s as [|c s (blank & E & Hb)].
  - by exists [].
  - simpl. destruct (isWhiteSpace c) eqn:Ec.
    + exists (c :: blank). split; [simpl; by f_equal|by constructor].
    + by exists [].
Qed.

Lemma trimStart_skips (blank s : jsstring) (c : N) :
  Forall (fun c => isWhiteSpace c = true) blank →
  isWhiteSpace c = false →
  trimStart (blank ++ c :: s) = c :: s.
Proof.
  intros Hb Hc. induction Hb as [|b blank Hbw Hb IH]; simpl.
  - by rewrite Hc.
  - by rewrite Hbw.
Qed.

Lemma digit_no_space (c : N) : 48 ≤ c ∧ c ≤ 57 → isWhiteSpace c = false.
Proof.
  intros [H1 H2]. unfold isWhiteSpace.
  repeat match goal with
         | |- context [?a <=? ?b] => destruct (N.leb_spec a b)
         | |- context [?a =? ?b] => destruct (N.eqb_spec a b)
         end; simpl; try done; lia.
Qed.

(** [parseInt] reads the integer a text starts with. *)
Lemma parseInt10_startsWithInteger (s : jsstring) (k : Z) :
  parseInt10 s = Some k ↔ startsWithInteger s k.
Proof.
  unfold parseInt10, startsWithInteger. split.
  - destruct (trimStart_front s) as (blank & Es & Hblank).
    assert (∀ (sign : Z) (s2 front0 : jsstring),
              trimStart s = front0 ++ s2 →
              (front0 = [] ∧ sign = 1%Z ∨ front0 = [43] ∧ sign = 1%Z
               ∨ front0 = [45] ∧ sign = (-1)%Z) →
              match digitsPrefix s2 with
              | [] => None
              | digits => Some (sign * digitsValue digits)%Z
              end = Some k →
              ∃ blank front rest,
                s = blank ++ front ++ rest
                ∧ Forall (fun c => isWhiteSpace c = true) blank
                ∧ isInteger front k
                ∧ ∀ c, head rest = Some c → ¬ (48 ≤ c ∧ c ≤ 57)) as Hgen.
    { intros sign s2 front0 E1 Hsign Hk.
      destruct (digitsPrefix_split s2) as (rest & E2 & Hall & Hrest).
      destruct (digitsPrefix s2) as [|d digits] eqn:Ed; [done|].
      injection Hk as <-.
      exists blank, (front0 ++ d :: digits), rest.
      split; [by rewrite Es at 1; rewrite E1, E2, <- !app_assoc|].
      split; [done|]. split; [|done].
      exists (d :: digits), (digitsValue (d :: digits)).
      split; [by apply digits_isNumeral|].
      destruct Hsign as [[-> ->]|[[-> ->]|[-> ->]]].
      - left. split; [done|lia].
      - right. left. split; [done|lia].
      - right. right. split; [done|lia]. }
    destruct (trimStart s) as [|c r] eqn:Et.
    + apply (Hgen 1%Z [] []); [done|by left].
    + destruct (N.eqb_spec c 45) as [->|H45].
      { apply (Hgen (-1)%Z r [45]); [done|]. right. by right. }
      destruct (N.eqb_spec c 43) as [->|H43].
      { apply (Hgen 1%Z r [43]); [done|]. right. by left. }
      apply (Hgen 1%Z (c :: r) []); [done|by left].
  - intros (blank & front & rest & -> & Hblank & (digits & n & Hnum & Hfront)
            & Hrest).
    apply isNumeral_digits in Hnum as (Hne & Hall & <-).
    destruct digits as [|d digits]; [done|].
    pose proof (Forall_inv Hall) as Hd. apply isDigit_bounds in Hd.
    pose proof (digitsPrefix_front _ _ Hall Hrest) as Hprefix.
    cbn [app] in Hprefix.
    destruct Hfront as [[-> ->]|[[-> ->]|[-> ->]]].
    + cbn [app]. rewrite trimStart_skips by (done || by apply digit_no_space).
      destruct (N.eqb_spec d 45); [lia|]. destruct (N.eqb_spec d 43); [lia|].
      rewrite Hprefix. f_equal. lia.
    + cbn [app]. rewrite trimStart_skips by done.
      change (43 =? 45) with false. change (43 =? 43) with true. cbv iota.
      rewrite Hprefix. f_equal. lia.
    + cbn [app]. rewrite trimStart_skips by done.
      change (45 =? 45) with true. cbv iota.
      rewrite Hprefix. f_equal; lia.
Qed.

Section CaseTable.
Variable toLowerCase : jsstring → jsstring.
Hypothesis noCapital : leavesNoCapital toLowerCase.
Hypothesis onAscii : lowersAscii toLowerCase.

Lemma matchLabel_selected (trimmed : jsstring) (options : list PermissionOption)
    (r : Response) :
  matchLabel toLowerCase trimmed options = Some r
  ↔ selectedByLabel toLowerCase trimmed options r.
Proof.
  unfold selectedByLabel, labelMatches. split.
  - induction options as [|opt options IH]; simpl; [done|].
    destruct (decide (toLowerCase (label opt) = trimmed)) as [Heq|Hne].
    + intros [= <-]. exists [], opt, options. by repeat split.
    + intros H. destruct (IH H) as (before & o & after & -> & Hm & Hb & ->).
      exists (opt :: before), o, after. split; [done|]. split; [done|].
      split; [|done]. by constructor.
  - intros (before & opt & after & -> & Hm & Hb & ->).
    induction Hb as [|o before Ho Hb IH]; simpl.
    + by rewrite decide_True.
    + by rewrite decide_False.
Qed.

Lemma matchLabel_none (trimmed : jsstring) (options : list PermissionOption) :
  matchLabel toLowerCase trimmed options = None
  ↔ noLabelMatches toLowerCase trimmed options.
Proof.
  unfold noLabelMatches, labelMatches.
  induction options as [|opt options IH]; simpl.
  - split; [by constructor|done].
  - destruct (decide (toLowerCase (label opt) = trimmed)) as [Heq|Hne].
    + split; [done|]. intros H. by apply Forall_cons in H as [H _].
    + rewrite IH. split.
      * intros H. by constructor.
      * intros H. by apply Forall_cons in H as [_ H].
Qed.

Lemma matchNumber_selected (trimmed : jsstring) (options : list PermissionOption)
    (r : Response) :
  matchNumber trimmed options = Some r
  ↔ selectedByNumber startsWithInteger trimmed options r.
Proof.
  unfold matchNumber, selectedByNumber. split.
  - destruct (parseInt10 trimmed) as [num|] eqn:Ep; [|done].
    destruct ((1 <=? num) && (num <=? Z.of_nat (length options)))%Z eqn:E; [|done].
    apply andb_true_iff in E as [E1 E2].
    apply Z.leb_le in E1. apply Z.leb_le in E2.
    destruct (options !! Z.to_nat (num - 1)) as [opt|] eqn:Eo; [|done].
    simpl. intros [= <-]. exists num, opt.
    split; [by apply parseInt10_startsWithInteger|]. by repeat split.
  - intros (k & opt & Hread & Hk & Ho & ->).
    apply parseInt10_startsWithInteger in Hread. rewrite Hread.
    assert ((1 <=? k) && (k <=? Z.of_nat (length options)) = true)%Z as ->.
    { apply andb_true_iff. split; apply Z.leb_le; lia. }
    by rewrite Ho.
Qed.

Lemma matchNumber_none (trimmed : jsstring) (options : list PermissionOption) :
  matchNumber trimmed options = None
  ↔ noNumberMatches startsWithInteger trimmed options.
Proof.
  unfold matchNumber, noNumberMatches. split.
  - destruct (parseInt10 trimmed) as [num|] eqn:Ep.
    2:{ intros _ k Hread. apply parseInt10_startsWithInteger in Hread.
        congruence. }
    destruct ((1 <=? num) && (num <=? Z.of_nat (length options)))%Z eqn:E.
    + apply andb_true_iff in E as [E1 E2].
      apply Z.leb_le in E1. apply Z.leb_le in E2.
      destruct (matchNumber_in_range options num ltac:(lia)) as [opt ->].
      done.
    + intros _ k Hread Hk. apply parseInt10_startsWithInteger in Hread.
      assert (k = num) as -> by congruence.
      apply andb_false_iff in E as [E|E]; apply Z.leb_gt in E; lia.
  - intros H. destruct (parseInt10 trimmed) as [num|] eqn:Ep; [|done].
    destruct ((1 <=? num) && (num <=? Z.of_nat (length options)))%Z eqn:E; [|done].
    apply andb_true_iff in E as [E1 E2].
    apply Z.leb_le in E1. apply Z.leb_le in E2.
    exfalso. apply (H num); [by apply parseInt10_startsWithInteger|done].
Qed.

Lemma testAnyOf_keyword (words : list jsstring) (userReply : jsstring) :
  words ⊆ affirmativeWords ++ persistenceWords ++ negativeWords →
  testAnyOf words (toLowerCase (trim userReply)) = true
  ↔ toLowerCase (trim userReply) ∈ words.
Proof.
  intros Hsub. apply testAnyOf_elem_of; [|apply noCapital].
  apply Forall_forall. intros w Hw.
  pose proof keywords_lower_case as H. rewrite Forall_forall in H.
  apply H. by apply Hsub.
Qed.

Lemma matchKeyword_selected (userReply : jsstring) (r : Response) :
  matchKeyword (toLowerCase (trim userReply)) = Some r
  ↔ selectedByKeyword (toLowerCase (trim userReply)) r.
Proof.
  unfold matchKeyword, selectedByKeyword.
  pose proof (testAnyOf_keyword affirmativeWords userReply
                ltac:(intros w Hw; apply elem_of_app; by left)) as Ha.
  pose proof (testAnyOf_keyword persistenceWords userReply
                ltac:(intros w Hw; apply elem_of_app; right;
                      apply elem_of_app; by left)) as Hp.
  pose proof (testAnyOf_keyword negativeWords userReply
                ltac:(intros w Hw; apply elem_of_app; right;
                      apply elem_of_app; by right)) as Hn.
  destruct keywords_disjoint as [D1 D2].
  rewrite Forall_forall in D1. rewrite Forall_forall in D2.
  generalize dependent (toLowerCase (trim userReply)). intros trimmed Ha Hp Hn.
  assert (trimmed ∈ persistenceWords → trimmed ∉ affirmativeWords) as Dpa.
  { intros H. apply D1. apply elem_of_app. by left. }
  assert (trimmed ∈ negativeWords → trimmed ∉ affirmativeWords) as Dna.
  { intros H. apply D1. apply elem_of_app. by right. }
  destruct (testAnyOf affirmativeWords trimmed) eqn:Ea.
  { assert (trimmed ∈ affirmativeWords) as Hin by (by apply Ha).
    split; [intros [= <-]; by left|].
    intros [[_ ->]|[[H ->]|[H ->]]]; [done| |]; exfalso.
    - by apply Dpa.
    - by apply Dna. }
  assert (trimmed ∉ affirmativeWords) as Hna.
  { intros H. apply Ha in H. congruence. }
  destruct (testAnyOf persistenceWords trimmed) eqn:Ep.
  { assert (trimmed ∈ persistenceWords) as Hin by (by apply Hp).
    split; [intros [= <-]; right; by left|].
    intros [[H _]|[[_ ->]|[H ->]]]; [done|done|]. exfalso.
    by apply (D2 trimmed). }
  assert (trimmed ∉ persistenceWords) as Hnp.
  { intros H. apply Hp in H. congruence. }
  destruct (testAnyOf negativeWords trimmed) eqn:En.
  { assert (trimmed ∈ negativeWords) as Hin by (by apply Hn).
    split; [intros [= <-]; right; by right|].
    intros [[H _]|[[H _]|[_ ->]]]; done. }
  assert (trimmed ∉ negativeWords) as Hnn.
  { intros H. apply Hn in H. congruence. }
  split; [done|]. intros [[H _]|[[H _]|[H _]]]; done.
Qed.

Lemma matchKeyword_none (userReply : jsstring) :
  noKeywordMatches (toLowerCase (trim userReply)) →
  matchKeyword (toLowerCase (trim userReply)) = None.
Proof.
  unfold noKeywordMatches. intros Hno.
  destruct (matchKeyword (toLowerCase (trim userReply))) as [r|] eqn:E; [|done].
  apply matchKeyword_selected in E. exfalso. apply Hno.
  rewrite !elem_of_app.
  destruct E as [[H _]|[[H _]|[H _]]]; auto.
Qed.

Lemma parsePermissionReply_meets_policy (userReply : jsstring)
    (options : list PermissionOption) :
  policy toLowerCase userReply options
    (parsePermissionReply toLowerCase userReply options).
Proof.
  unfold policy, policyReading, parsePermissionReply.
  split; [|split; [|split]].
  - intros r Hr. apply matchLabel_selected in Hr. by rewrite Hr.
  - intros Hl r Hr. apply matchLabel_none in Hl. rewrite Hl.
    apply matchNumber_selected in Hr. by rewrite Hr.
  - intros Hl Hn r Hr. apply matchLabel_none in Hl. rewrite Hl.
    apply matchNumber_none in Hn. rewrite Hn.
    by apply matchKeyword_selected.
  - intros Hl Hn Hk. apply matchLabel_none in Hl. rewrite Hl.
    apply matchNumber_none in Hn. rewrite Hn.
    by apply matchKeyword_none.
Qed.

(** The policy leaves no choice: one of its four cases always applies. *)
Lemma policy_determines (userReply : jsstring) (options : list PermissionOption)
    (result : option Response) :
  policy toLowerCase userReply options result →
  result = parsePermissionReply toLowerCase userReply options.
Proof.
  intros (P1 & P2 & P3 & P4). unfold parsePermissionReply.
  destruct (matchLabel toLowerCase (toLowerCase (trim userReply)) options)
    as [r|] eqn:El.
  { apply P1. by apply matchLabel_selected. }
  apply matchLabel_none in El.
  destruct (matchNumber (toLowerCase (trim userReply)) options) as [r|] eqn:En.
  { apply P2; [done|]. by apply matchNumber_selected. }
  apply matchNumber_none in En.
  destruct (matchKeyword (toLowerCase (trim userReply))) as [r|] eqn:Ek.
  { apply P3; [done|done|]. by apply matchKeyword_selected. }
  apply P4; [done|done|].
  unfold noKeywordMatches. rewrite !elem_of_app. intros Hin.
  assert (∃ r, selectedByKeyword (toLowerCase (trim userReply)) r) as [r Hr].
  { unfold selectedByKeyword.
    destruct Hin as [H|[H|H]]; [exists once|exists always|exists reject]; auto. }
  apply matchKeyword_selected in Hr. congruence.
Qed.

(** C2, as the code has it.  [parsePermissionReply] applies three rules
    to the trimmed, lower-cased reply, the first that matches winning: an
    option whose lower-cased label equals it gives that option's decision
    (the first such option); otherwise, a reply that starts with an
    integer k between 1 and the number of options, after white space and
    an optional sign and whatever follows its digits, gives the decision
    of option k; otherwise an affirmative, persistence or negative
    keyword gives once, always or reject; and no match gives null.  The
    result of the function is the one result this policy allows.  With
    the default options, the reply 2 gives always, ALLOW gives once and
    nah gives null. *)
Theorem parsePermissionReply_policy :
  (∀ (userReply : jsstring) (options : list PermissionOption)
     (result : option Response),
     policy toLowerCase userReply options result
     ↔ parsePermissionReply toLowerCase userReply options = result)
  ∧ parsePermissionReply toLowerCase (js "2") DEFAULT_PERMISSION_OPTIONS = Some always
  ∧ parsePermissionReply toLowerCase (js "ALLOW") DEFAULT_PERMISSION_OPTIONS = Some once
  ∧ parsePermissionReply toLowerCase (js "nah") DEFAULT_PERMISSION_OPTIONS = None.
Proof.
  split.
  - intros userReply options result. split.
    + intros H. symmetry. by apply policy_determines.
    + intros <-. apply parsePermissionReply_meets_policy.
  - assert (∀ s, Forall (fun c => isAscii c = true) s →
                 Forall (fun c => isAscii c = true) (trim s) →
                 parsePermissionReply toLowerCase s DEFAULT_PERMISSION_OPTIONS
                 = parsePermissionReply asciiToLowerCase s DEFAULT_PERMISSION_OPTIONS)
      as Hsame.
    { intros s Hs Ht. unfold parsePermissionReply.
      rewrite (onAscii (trim s)) by done. simpl.
      rewrite !onAscii by (apply (bool_decide_unpack _); vm_compute; exact I).
      done. }
    repeat split; rewrite Hsame;
      try (apply (bool_decide_unpack _); vm_compute; exact I);
      vm_compute; reflexivity.
Qed.

End CaseTable.

Lemma asciiToLowerCase_noCapital : leavesNoCapital asciiToLowerCase.
Proof.
  intros s. unfold asciiToLowerCase. apply Forall_forall. intros c Hc.
  apply list_elem_of_fmap in Hc as (d & -> & _).
  unfold isCapital, asciiLower.
  destruct (N.leb_spec 65 d), (N.leb_spec d 90); simpl; lia.
Qed.

Lemma asciiToLowerCase_onAscii : lowersAscii asciiToLowerCase.
Proof. by intros s _. Qed.

Lemma parsePermissionReply_policy_witness :
  parsePermissionReply asciiToLowerCase (js " Allow Always ")
    DEFAULT_PERMISSION_OPTIONS = Some always.
Proof.
  destruct (parsePermissionReply_policy asciiToLowerCase
              asciiToLowerCase_noCapital asciiToLowerCase_onAscii) as [H _].
  destruct (proj2 (H (js " Allow Always ") DEFAULT_PERMISSION_OPTIONS _) eq_refl)
    as [H1 _].
  apply H1.
  exists [{| label := js "Allow"; response := once |}],
         {| label := js "Allow always"; response := always |},
         [{| label := js "Reject"; response := reject |}].
  split; [reflexivity|]. split; [reflexivity|]. split; [|reflexivity].
  apply Forall_singleton. vm_compute. congruence.
Defined.

(** C2, as stated, fails: the reply 2abc is no label, no integer and no
    keyword, so the policy of the design document gives null; the
    function reads the 2 it starts with and answers always. *)
Lemma parsePermissionReply_policy_counterexample :
  ¬ (∀ (userReply : jsstring) (options : list PermissionOption),
       claimedPolicy asciiToLowerCase userReply options
         (parsePermissionReply asciiToLowerCase userReply options)).
Proof.
  intros H.
  destruct (H (js "2abc") DEFAULT_PERMISSION_OPTIONS) as (_ & _ & _ & Hnull).
  assert (parsePermissionReply asciiToLowerCase (js "2abc")
            DEFAULT_PERMISSION_OPTIONS = Some always) as E
    by (vm_compute; reflexivity).
  rewrite E in Hnull. cbv zeta in Hnull.
  assert (asciiToLowerCase (trim (js "2abc")) = js "2abc") as Et
    by (vm_compute; reflexivity).
  rewrite Et in Hnull.
  enough (Some always = @None Response) by done. apply Hnull.
  - unfold noLabelMatches, labelMatches.
    repeat constructor; vm_compute; discriminate.
  - intros k (digits & n & Hnum & Hs) _.
    apply isNumeral_digits in Hnum as (_ & Hall & _).
    assert (Forall (fun c => isDigit c = true) (js "2abc") → False) as Hno.
    { intros Hd. do 3 apply Forall_inv_tail in Hd.
      apply Forall_inv in Hd. vm_compute in Hd. discriminate. }
    destruct Hs as [[E1 _]|[[E1 _]|[E1 _]]].
    + apply Hno. by rewrite E1.
    + vm_compute in E1. discriminate.
    + vm_compute in E1. discriminate.
  - unfold noKeywordMatches. apply (bool_decide_unpack _). vm_compute. exact I.
Qed.

End PermissionFacts.

(** ** JSON parsing: the fuel suffices *)

Section JsonFacts.
Import Json.

Lemma skipSpace_length (s : jsstring) : (length (skipSpace s) ≤ length s)%nat.
Proof.
  induction s as [|c s IH]; simpl; [done|].
  destruct (isJsonSpace c); simpl; lia.
Qed.

Lemma skipSpace_cons_length (s r : jsstring) (c : N) :
  skipSpace s = c :: r → (length r < length s)%nat.
Proof.
  intros H. pose proof (skipSpace_length s) as Hl. rewrite H in Hl.
  simpl in Hl. lia.
Qed.

Lemma expect_length (word s rest : jsstring) :
  expect word s = Some rest → (length rest + length word = length s)%nat.
Proof.
  revert s. induction word as [|w word IH]; intros s; simpl.
  - intros [= <-]. lia.
  - destruct s as [|c s]; [done|]. destruct (c =? w); [|done].
    intros H. apply IH in H. simpl. lia.
Qed.

Lemma parseLiteral_rest (s : jsstring) (v : value) (rest : jsstring) :
  parseLiteral s = Ok v rest → (length rest < length s)%nat.
Proof.
  unfold parseLiteral. intros H.
  repeat case_match; try done; injection H as <- <-;
    match goal with E : expect _ _ = Some _ |- _ =>
      apply expect_length in E; simpl in E; lia end.
Qed.

Lemma parseLiteral_fuel (s : jsstring) : parseLiteral s ≠ OutOfFuel.
Proof. unfold parseLiteral. by repeat case_match. Qed.

Lemma parseChars_props (n : nat) (s acc : jsstring) :
  (length s ≤ n)%nat →
  parseChars s acc ≠ OutOfFuel
  ∧ ∀ str rest, parseChars s acc = Ok str rest → (length rest < length s)%nat.
Proof.
  revert s acc. induction n as [|n IH]; intros s acc Hlen.
  - destruct s; [|simpl in Hlen; lia]. simpl. by split.
  - destruct s as [|c r]; [by split|]. simpl in Hlen.
    cbn [parseChars].
    destruct (c =? 34).
    { split; [done|]. intros str rest [= <- <-]. simpl. lia. }
    destruct (c =? 92).
    + destruct r as [|e r1]; [by split|].
      destruct (e =? 117).
      * destruct r1 as [|h1 [|h2 [|h3 [|h4 r2]]]]; try by split.
        destruct (hexDigit h1) as [d1|], (hexDigit h2) as [d2|],
          (hexDigit h3) as [d3|], (hexDigit h4) as [d4|];
          try by split.
        destruct (IH r2 (((d1 * 16 + d2) * 16 + d3) * 16 + d4 :: acc))
          as [H1 H2]; [simpl in Hlen; lia|].
        split; [done|]. intros str rest H. apply H2 in H. simpl. lia.
      * destruct (simpleEscape e) as [u|]; [|by split].
        destruct (IH r1 (u :: acc)) as [H1 H2]; [simpl in Hlen; lia|].
        split; [done|]. intros str rest H. apply H2 in H. simpl. lia.
    + destruct (c <? 32); [by split|].
      destruct (IH r (c :: acc)) as [H1 H2]; [lia|].
      split; [done|]. intros str rest H. apply H2 in H. simpl. lia.
Qed.

Lemma parseChars_rest (s acc str rest : jsstring) :
  parseChars s acc = Ok str rest → (length rest < length s)%nat.
Proof. apply (parseChars_props (length s) s acc). lia. Qed.

Lemma parseChars_fuel (s acc : jsstring) : parseChars s acc ≠ OutOfFuel.
Proof. apply (parseChars_props (length s) s acc). lia. Qed.

Lemma parseNumber_fuel (s : jsstring) : parseNumber s ≠ OutOfFuel.
Proof. unfold parseNumber. by repeat case_match. Qed.

Lemma parseNumber_rest (s : jsstring) (n : Number) (rest : jsstring) :
  parseNumber s = Ok n rest → (length rest < length s)%nat.
Proof.
  unfold parseNumber. intros H.
  repeat case_match; simplify_eq;
    repeat match goal with
    | E : @eq (list _) _ _ |- _ =>
        apply (f_equal length) in E;
        rewrite ?length_drop, ?length_app in E; simpl in E
    end.
  all: rewrite ?length_drop; simpl; lia.
Qed.

Lemma parseValue_S (fuel : nat) (s : jsstring) :
  parseValue (S fuel) s
  = match skipSpace s with
    | [] => SyntaxError
    | c :: r =>
        if c =? 123 then
          match skipSpace r with
          | d :: r1 =>
              if d =? 125 then Ok (JObject []) r1
              else parseMembers fuel r []
          | [] => SyntaxError
          end
        else if c =? 91 then
          match skipSpace r with
          | d :: r1 =>
              if d =? 93 then Ok (JArray []) r1
              else parseElements fuel r []
          | [] => SyntaxError
          end
        else if c =? 34 then
          bind (parseChars r []) (fun str rest => Ok (JString str) rest)
        else if (c =? 45) || isDigit c then
          bind (parseNumber (c :: r)) (fun n rest => Ok (JNumber n) rest)
        else parseLiteral (c :: r)
    end.
Proof. reflexivity. Qed.

Lemma parseElements_S (fuel : nat) (s : jsstring) (acc : list value) :
  parseElements (S fuel) s acc
  = bind (parseValue fuel s) (fun v rest =>
      match skipSpace rest with
      | d :: r1 =>
          if d =? 44 then parseElements fuel r1 (v :: acc)
          else if d =? 93 then Ok (JArray (rev (v :: acc))) r1
          else SyntaxError
      | [] => SyntaxError
      end).
Proof. reflexivity. Qed.

Lemma parseMembers_S (fuel : nat) (s : jsstring) (acc : list (jsstring * value)) :
  parseMembers (S fuel) s acc
  = match skipSpace s with
    | q :: r =>
        if q =? 34 then
          bind (parseChars r []) (fun key rest =>
            match skipSpace rest with
            | colon :: r1 =>
                if colon =? 58 then
                  bind (parseValue fuel r1) (fun v rest1 =>
                    match skipSpace rest1 with
                    | d :: r2 =>
                        if d =? 44 then parseMembers fuel r2 ((key, v) :: acc)
                        else if d =? 125
                             then Ok (JObject (rev ((key, v) :: acc))) r2
                             else SyntaxError
                    | [] => SyntaxError
                    end)
                else SyntaxError
            | [] => SyntaxError
            end)
        else SyntaxError
    | [] => SyntaxError
    end.
Proof. reflexivity. Qed.

(** With fuel above twice the length of the input, the parser never runs
    out of fuel, and a result leaves less input than it was given. *)
Lemma parse_fuel_enough (fuel : nat) :
  (∀ s, (2 * length s < fuel)%nat →
        parseValue fuel s ≠ OutOfFuel
        ∧ ∀ v rest, parseValue fuel s = Ok v rest → (length rest < length s)%nat)
  ∧ (∀ s acc, (2 * length s + 1 < fuel)%nat →
        parseElements fuel s acc ≠ OutOfFuel
        ∧ ∀ v rest, parseElements fuel s acc = Ok v rest →
                    (length rest < length s)%nat)
  ∧ (∀ s acc, (2 * length s + 1 < fuel)%nat →
        parseMembers fuel s acc ≠ OutOfFuel
        ∧ ∀ v rest, parseMembers fuel s acc = Ok v rest →
                    (length rest < length s)%nat).
Proof.
  induction fuel as [|fuel (IHv & IHe & IHm)].
  { repeat split; intros; lia. }
  split; [|split].
  - intros s Hfuel. rewrite parseValue_S.
    destruct (skipSpace s) as [|c r] eqn:Es; [by split|].
    apply skipSpace_cons_length in Es.
    destruct (c =? 123).
    { destruct (skipSpace r) as [|d r1] eqn:Er; [by split|].
      apply skipSpace_cons_length in Er.
      destruct (d =? 125).
      - split; [done|]. intros v rest [= <- <-]. lia.
      - destruct (IHm r []) as [H1 H2]; [lia|]. split; [done|].
        intros v rest H. apply H2 in H. lia. }
    destruct (c =? 91).
    { destruct (skipSpace r) as [|d r1] eqn:Er; [by split|].
      apply skipSpace_cons_length in Er.
      destruct (d =? 93).
      - split; [done|]. intros v rest [= <- <-]. lia.
      - destruct (IHe r []) as [H1 H2]; [lia|]. split; [done|].
        intros v rest H. apply H2 in H. lia. }
    destruct (c =? 34).
    { pose proof (parseChars_fuel r []) as Hf.
      destruct (parseChars r []) as [str rest'| |] eqn:Ec; simpl; [|by split|done].
      apply parseChars_rest in Ec.
      split; [done|]. intros v rest [= <- <-]. lia. }
    destruct ((c =? 45) || isDigit c).
    { pose proof (parseNumber_fuel (c :: r)) as Hf.
      destruct (parseNumber (c :: r)) as [n rest'| |] eqn:En; simpl;
        [|by split|done].
      apply parseNumber_rest in En. simpl in En.
      split; [done|]. intros v rest [= <- <-]. lia. }
    split; [apply parseLiteral_fuel|].
    intros v rest H. apply parseLiteral_rest in H. simpl in H. lia.
  - intros s acc Hfuel. rewrite parseElements_S.
    destruct (IHv s) as [H1 H2]; [lia|].
    destruct (parseValue fuel s) as [v rest'| |] eqn:Ev; simpl; [|by split|done].
    specialize (H2 v rest' eq_refl).
    destruct (skipSpace rest') as [|d r1] eqn:Er; [by split|].
    apply skipSpace_cons_length in Er.
    destruct (d =? 44).
    { destruct (IHe r1 (v :: acc)) as [H3 H4]; [lia|]. split; [done|].
      intros v' rest H. apply H4 in H. lia. }
    destruct (d =? 93); [|by split].
    split; [done|]. intros v' rest [= <- <-]. lia.
  - intros s acc Hfuel. rewrite parseMembers_S.
    destruct (skipSpace s) as [|q r] eqn:Es; [by split|].
    apply skipSpace_cons_length in Es.
    destruct (q =? 34); [|by split].
    pose proof (parseChars_fuel r []) as Hf.
    destruct (parseChars r []) as [key rest'| |] eqn:Ec; simpl; [|by split|done].
    apply parseChars_rest in Ec.
    destruct (skipSpace rest') as [|colon r1] eqn:Er; [by split|].
    apply skipSpace_cons_length in Er.
    destruct (colon =? 58); [|by split].
    destruct (IHv r1) as [H1 H2]; [lia|].
    destruct (parseValue fuel r1) as [v rest1| |] eqn:Ev; simpl; [|by split|done].
    specialize (H2 v rest1 eq_refl).
    destruct (skipSpace rest1) as [|d r2] eqn:Er2; [by split|].
    apply skipSpace_cons_length in Er2.
    destruct (d =? 44).
    { destruct (IHm r2 ((key, v) :: acc)) as [H3 H4]; [lia|]. split; [done|].
      intros v' rest H. apply H4 in H. lia. }
    destruct (d =? 125); [|by split].
    split; [done|]. intros v' rest [= <- <-]. lia.
Qed.

Lemma parse_never_out_of_fuel (text : jsstring) :
  parseValue (fuelFor text) text ≠ OutOfFuel.
Proof.
  apply (proj1 (parse_fuel_enough (fuelFor text))). unfold fuelFor. lia.
Qed.

(** More fuel does not change a result. *)
Lemma parse_fuel_mono (fuel : nat) :
  (∀ s, parseValue fuel s ≠ OutOfFuel →
        parseValue (S fuel) s = parseValue fuel s)
  ∧ (∀ s acc, parseElements fuel s acc ≠ OutOfFuel →
        parseElements (S fuel) s acc = parseElements fuel s acc)
  ∧ (∀ s acc, parseMembers fuel s acc ≠ OutOfFuel →
        parseMembers (S fuel) s acc = parseMembers fuel s acc).
Proof.
  induction fuel as [|fuel (IHv & IHe & IHm)].
  { repeat split; intros; simpl in *; done. }
  split; [|split].
  - intros s. rewrite (parseValue_S (S fuel)), (parseValue_S fuel).
    destruct (skipSpace s) as [|c r]; [done|].
    destruct (c =? 123).
    { destruct (skipSpace r) as [|d r1]; [done|].
      destruct (d =? 125); [done|]. apply IHm. }
    destruct (c =? 91); [|done].
    destruct (skipSpace r) as [|d r1]; [done|].
    destruct (d =? 93); [done|]. apply IHe.
  - intros s acc. rewrite (parseElements_S (S fuel)), (parseElements_S fuel).
    intros Hfuel. rewrite IHv.
    2:{ intros E. rewrite E in Hfuel. done. }
    destruct (parseValue fuel s) as [v rest| |]; cbn [bind] in *; [|done|done].
    destruct (skipSpace rest) as [|d r1]; [done|].
    destruct (d =? 44); [|done]. by apply IHe.
  - intros s acc. rewrite (parseMembers_S (S fuel)), (parseMembers_S fuel).
    destruct (skipSpace s) as [|q r]; [done|].
    destruct (q =? 34); [|done].
    destruct (parseChars r []) as [key rest| |]; cbn [bind]; [|done|done].
    destruct (skipSpace rest) as [|colon r1]; [done|].
    destruct (colon =? 58); [|done].
    intros Hfuel. rewrite IHv.
    2:{ intros E. rewrite E in Hfuel. done. }
    destruct (parseValue fuel r1) as [v rest1| |]; cbn [bind] in *; [|done|done].
    destruct (skipSpace rest1) as [|d r2]; [done|].
    destruct (d =? 44); [|done]. by apply IHm.
Qed.

(** The result of [parse] is that of the grammar, whatever fuel above the
    bound the parser is given. *)
Lemma parseValue_fuel_irrelevant (text : jsstring) (extra : nat) :
  parseValue (fuelFor text + extra) text = parseValue (fuelFor text) text.
Proof.
  induction extra as [|extra IH].
  - by rewrite Nat.add_0_r.
  - rewrite Nat.add_succ_r. rewrite <- IH.
    apply (proj1 (parse_fuel_mono (fuelFor text + extra))).
    rewrite IH. apply parse_never_out_of_fuel.
Qed.

End JsonFacts.

(** ** Extraction of a control payload *)

Section ControlParserFacts.
Import Json ControlParser.

Lemma isString_true (v : option value) (s : jsstring) :
  isString v s = true ↔ v = Some (JString s).
Proof.
  unfold isString. destruct v as [[| | |s'| |]|]; try by split.
  rewrite bool_decide_eq_true. split; [by intros -> | by intros [= ->]].
Qed.

Lemma payloadOf_shape (parsed payload : value) :
  (payloadOf parsed = Some payload ∧ isTruthy payload = true)
  ↔ hasControlShape parsed payload.
Proof.
  unfold hasControlShape, payloadOf.
  destruct (isString (getProp parsed (js "type")) (js "control")) eqn:Et.
  - apply isString_true in Et.
    assert (isTruthy parsed = true) as Htruthy.
    { destruct parsed; try done. }
    assert (parsed ≠ JNull) as Hnn by (by destruct parsed).
    destruct parsed; try done;
      (destruct (getProp _ (js "control_command")) as [cc|] eqn:Ec;
       [destruct cc|]); split;
      try (intros [[= <-] Ht]; (by left) || (right; split; [auto|done]));
      intros [(H1 & H2 & H3)|(H1 & H2 & H3)]; simplify_eq; try done;
      destruct H1; simplify_eq.
  - assert (getProp parsed (js "type") ≠ Some (JString (js "control"))) as Hnt.
    { intros H. apply isString_true in H. congruence. }
    destruct parsed; try (split; [by intros [? ?]|];
                           intros [(H1 & H2 & H3)|(H1 & H2 & H3)]; done);
      (destruct (getProp _ (js "control_command")) as [cc|] eqn:Ec;
       [destruct cc|]); split;
      try (intros [[= <-] Ht]; (by left) || done);
      intros [(H1 & H2 & H3)|(H1 & H2 & H3)]; simplify_eq; done.
Qed.

Lemma tryPayload_matches (text : jsstring) (payload : value) :
  tryPayload text = Some payload ↔ matchesControl text payload.
Proof.
  unfold tryPayload, matchesControl. split.
  - destruct (parse text) as [parsed|]; [|done].
    destruct (payloadOf parsed) as [p|] eqn:Ep; [|done].
    destruct (isTruthy p) eqn:Et; [|done].
    intros [= <-]. exists parsed. split; [done|]. by apply payloadOf_shape.
  - intros (parsed & -> & Hshape). apply payloadOf_shape in Hshape as [-> ->].
    done.
Qed.

Lemma tryPayload_none (text : jsstring) :
  tryPayload text = None ↔ matchesNoControl text.
Proof.
  unfold matchesNoControl. split.
  - intros H payload Hm. apply tryPayload_matches in Hm. congruence.
  - intros H. destruct (tryPayload text) as [payload|] eqn:E; [|done].
    apply tryPayload_matches in E. by apply H in E.
Qed.

Lemma firstPayload_first (before after : list jsstring) (c : jsstring)
    (payload : value) :
  Forall matchesNoControl before → matchesControl c payload →
  firstPayload (before ++ c :: after) = Some payload.
Proof.
  intros Hb Hc. induction Hb as [|b before Hnone Hb IH]; simpl.
  - apply tryPayload_matches in Hc. by rewrite Hc.
  - apply tryPayload_none in Hnone. by rewrite Hnone.
Qed.

Lemma firstPayload_none (cands : list jsstring) :
  Forall matchesNoControl cands → firstPayload cands = None.
Proof.
  intros H. induction H as [|c cands Hnone H IH]; simpl; [done|].
  apply tryPayload_none in Hnone. by rewrite Hnone.
Qed.

(** Scanning for candidates. *)

Lemma scanBraces_restart (pre rest : jsstring) (open : option jsstring) :
  scanBraces (pre ++ 123 :: rest) open
  = scanBraces pre open ++ scanBraces (123 :: rest) None.
Proof.
  revert open. induction pre as [|c pre IH]; intros open; [done|].
  simpl. destruct (c =? 123); [by rewrite IH|].
  destruct (c =? 125); [|by rewrite IH].
  destruct open; by rewrite IH.
Qed.

Lemma scanBraces_close (body post acc : jsstring) :
  noBrace body →
  scanBraces (body ++ 125 :: post) (Some acc)
  = rev (125 :: rev body ++ acc) :: scanBraces post None.
Proof.
  intros Hbody. revert acc.
  induction Hbody as [|c body [Hc1 Hc2] Hbody IH]; intros acc; [done|].
  simpl. apply N.eqb_neq in Hc1. apply N.eqb_neq in Hc2.
  rewrite Hc1, Hc2. simpl. rewrite IH.
  by rewrite <- (app_assoc (rev body) [c] acc).
Qed.

Lemma candidates_split (pre body post : jsstring) :
  noBrace body →
  candidates (pre ++ 123 :: body ++ 125 :: post)
  = candidates pre ++ (123 :: body ++ [125]) :: candidates post.
Proof.
  intros Hbody. unfold candidates. rewrite scanBraces_restart. f_equal.
  simpl. rewrite scanBraces_close by done. f_equal.
  simpl. by rewrite rev_app_distr, rev_involutive.
Qed.

Lemma scanBraces_candidates (s : jsstring) (open : option jsstring) :
  (∀ acc, open = Some acc → ∃ body, acc = rev body ++ [123] ∧ noBrace body) →
  Forall isBraceCandidate (scanBraces s open).
Proof.
  revert open. induction s as [|c s IH]; intros open Hopen; [constructor|].
  simpl. destruct (c =? 123) eqn:E1.
  { apply IH. intros acc [= <-]. exists []. split; [|constructor].
    apply N.eqb_eq in E1. by subst. }
  destruct (c =? 125) eqn:E2.
  { destruct open as [acc|].
    - constructor; [|apply IH; by intros].
      destruct (Hopen acc eq_refl) as (body & -> & Hbody).
      exists body. split; [|done]. apply N.eqb_eq in E2. subst c.
      simpl. rewrite rev_app_distr, rev_involutive. done.
    - apply IH. by intros. }
  apply IH. intros acc Hacc. destruct open as [acc'|]; [|done].
  simpl in Hacc. injection Hacc as <-.
  destruct (Hopen acc' eq_refl) as (body & -> & Hbody).
  exists (body ++ [c]). split.
  - rewrite rev_app_distr. done.
  - apply Forall_app. split; [done|]. constructor; [|constructor].
    apply N.eqb_neq in E1. apply N.eqb_neq in E2. done.
Qed.

Lemma candidates_are_brace_delimited (text : jsstring) :
  Forall isBraceCandidate (candidates text).
Proof. apply scanBraces_candidates. by intros. Qed.

(** C3, as the code has it.  The extractor first parses the whole
    trimmed text as JSON and accepts its [control_command] field when
    that is neither null nor otherwise falsy or, when the field is
    missing or null, the object itself when its [type] is control; when
    that gives nothing it scans the trimmed text for the substrings made
    of a left brace, code units that are no braces, and a right brace, in
    order of occurrence, and returns the payload of the first one of the
    same shape; when no candidate has it the result is null.  The notice
    Agent changed to Reviewer. followed by the control object of setting
    agent_type and value reviewer yields the payload with that setting
    and value. *)
Theorem extractControlPayload_order :
  (∀ (content : jsstring) (payload : value),
     matchesControl (trim content) payload →
     extractControlPayload content = Some payload)
  ∧ (∀ (content : jsstring) (before after : list jsstring) (c : jsstring)
       (payload : value),
       matchesNoControl (trim content) →
       candidates (trim content) = before ++ c :: after →
       Forall matchesNoControl before →
       matchesControl c payload →
       extractControlPayload content = Some payload)
  ∧ (∀ content : jsstring,
       matchesNoControl (trim content) →
       Forall matchesNoControl (candidates (trim content)) →
       extractControlPayload content = None)
  ∧ (∀ text : jsstring, Forall isBraceCandidate (candidates text))
  ∧ (∀ pre body post : jsstring,
       noBrace body →
       candidates (pre ++ 123 :: body ++ 125 :: post)
       = candidates pre ++ (123 :: body ++ [125]) :: candidates post)
  ∧ (∃ payload : value,
       extractControlPayload reviewerNotice = Some payload
       ∧ getProp payload (js "setting") = Some (JString (js "agent_type"))
       ∧ getProp payload (js "value") = Some (JString (js "reviewer"))).
Proof.
  split; [|split; [|split; [|split; [|split]]]].
  - intros content payload Hm. unfold extractControlPayload.
    apply tryPayload_matches in Hm. by rewrite Hm.
  - intros content before after c payload Hwhole Hcands Hbefore Hc.
    unfold extractControlPayload.
    apply tryPayload_none in Hwhole. rewrite Hwhole, Hcands.
    by apply firstPayload_first.
  - intros content Hwhole Hcands. unfold extractControlPayload.
    apply tryPayload_none in Hwhole. rewrite Hwhole.
    by apply firstPayload_none.
  - exact candidates_are_brace_delimited.
  - exact candidates_split.
  - eexists. split; [vm_compute; reflexivity|]. split; vm_compute; reflexivity.
Qed.

Lemma extractControlPayload_order_witness :
  extractControlPayload interruptText = Some interruptPayload
  ∧ extractControlPayload reviewerNotice = Some reviewerPayload.
Proof.
  split.
  - apply (proj1 extractControlPayload_order interruptText interruptPayload).
    apply tryPayload_matches. vm_compute. reflexivity.
  - apply (proj1 (proj2 extractControlPayload_order) reviewerNotice
             [] [] (drop 27 reviewerNotice) reviewerPayload).
    + apply tryPayload_none. vm_compute. reflexivity.
    + vm_compute. reflexivity.
    + constructor.
    + apply tryPayload_matches. vm_compute. reflexivity.
Defined.

(** C3, as stated, fails: a text that parses as a top-level object of
    type control has the shape of the design document, but when its
    [control_command] field is [false] the extractor takes that field,
    finds it falsy, and returns null for the whole text and for its one
    candidate. *)
Lemma extractControlPayload_order_counterexample :
  ¬ (∀ (content : jsstring) (parsed payload : value),
       parse (trim content) = Some parsed →
       claimedShape parsed payload →
       ∃ accepted,
         extractControlPayload content = Some accepted
         ∧ claimedShape parsed accepted).
Proof.
  intros H.
  destruct (H declinedText declinedValue declinedValue) as (accepted & E & _).
  - vm_compute. reflexivity.
  - right. split; [vm_compute; reflexivity|done].
  - vm_compute in E. discriminate.
Qed.

End ControlParserFacts.

(** ** The agent indicator lands on the target *)

Section AgentRingFacts.
Import Control AgentRing.

Lemma executeAll_cycles (len position k : nat) :
  (position < len)%nat →
  executeAll len position (replicate k (js "agent.cycle"))
  = ((position + k) mod len)%nat.
Proof.
  intros Hpos. revert position Hpos. induction k as [|k IH]; intros position Hpos.
  - simpl. rewrite Nat.add_0_r. by rewrite Nat.mod_small.
  - change (executeAll len position (replicate (S k) (js "agent.cycle")))
      with (executeAll len (execute len position (js "agent.cycle"))
              (replicate k (js "agent.cycle"))).
    unfold execute. rewrite decide_True by done.
    unfold cycleOnce. rewrite IH by (apply Nat.mod_upper_bound; lia).
    rewrite Nat.Div0.add_mod_idemp_l. f_equal. lia.
Qed.

Lemma steps_land (i j len : nat) :
  (i < len)%nat → (j < len)%nat →
  ((i + Z.to_nat ((Z.of_nat j - Z.of_nat i + Z.of_nat len) `mod` Z.of_nat len))
   mod len)%nat = j.
Proof.
  intros Hi Hj.
  destruct (decide (i ≤ j)%nat) as [Hle|Hgt].
  - replace ((Z.of_nat j - Z.of_nat i + Z.of_nat len) `mod` Z.of_nat len)%Z
      with (Z.of_nat (j - i)).
    + rewrite Nat2Z.id. replace (i + (j - i))%nat with j by lia.
      by apply Nat.mod_small.
    + replace (Z.of_nat j - Z.of_nat i + Z.of_nat len)%Z
        with (Z.of_nat (j - i) + 1 * Z.of_nat len)%Z by lia.
      rewrite Z_mod_plus_full. symmetry. apply Z.mod_small. lia.
  - replace ((Z.of_nat j - Z.of_nat i + Z.of_nat len) `mod` Z.of_nat len)%Z
      with (Z.of_nat (j + len - i)).
    + rewrite Nat2Z.id. replace (i + (j + len - i))%nat with (j + 1 * len)%nat by lia.
      rewrite Nat.Div0.mod_add. by apply Nat.mod_small.
    + symmetry. replace (Z.of_nat j - Z.of_nat i + Z.of_nat len)%Z
        with (Z.of_nat (j + len - i)) by lia.
      apply Z.mod_small. lia.
Qed.

(** X1. Cycling lands on the target.  When the indicator of the terminal
    stands on the agent the plugin believes current (on the first agent
    when it believes none), and every command completes, the commands
    [cycleTuiToAgent] issues move the indicator onto the target agent. *)
Theorem cycleTuiToAgent_lands_on_target (client : Client)
    (allAgents : list Agent) (target : jsstring) (current : option jsstring)
    (i j : nat) (issued : list jsstring) :
  app_agents client = Some allAgents →
  (∀ done command, tui_completes client done command = true) →
  isIndexOf (filter (fun a => isPrimary a = true) allAgents) target j →
  match current with
  | Some c => isIndexOf (filter (fun a => isPrimary a = true) allAgents) c i
  | None => i = 0%nat
  end →
  ∃ commands,
    cycleTuiToAgent client target current issued = (true, issued ++ commands)
    ∧ executeAll (length (filter (fun a => isPrimary a = true) allAgents))
        i commands = j.
Proof.
  intros Hagents Hok Hj Hi.
  set (agents := filter (fun a => isPrimary a = true) allAgents) in *.
  pose proof (stepsTo_computed agents target current i j Hj Hi) as Hsteps.
  assert (j < length agents)%nat as Hjlt.
  { apply findIndex_isIndexOf in Hj. by eapply findIndex_lt. }
  assert (i < length agents)%nat as Hilt.
  { destruct current as [c|].
    - apply findIndex_isIndexOf in Hi. by eapply findIndex_lt.
    - subst i. lia. }
  eexists. split.
  - unfold cycleTuiToAgent. rewrite Hagents. fold agents. rewrite Hsteps.
    by apply cycleLoop_steady.
  - rewrite executeAll_cycles by done. by apply steps_land.
Qed.

Lemma cycleTuiToAgent_lands_on_target_witness :
  ∃ commands,
    cycleTuiToAgent
      (steadyClient [primary "A"; primary "B"; primary "C"; primary "D"])
      (js "A") (Some (js "C")) [] = (true, [] ++ commands)
    ∧ executeAll 4 2 commands = 0%nat.
Proof.
  apply (cycleTuiToAgent_lands_on_target
           (steadyClient [primary "A"; primary "B"; primary "C"; primary "D"])
           [primary "A"; primary "B"; primary "C"; primary "D"]
           (js "A") (Some (js "C")) 2 0 []).
  - reflexivity.
  - reflexivity.
  - apply findIndex_isIndexOf. reflexivity.
  - apply findIndex_isIndexOf. reflexivity.
Defined.

(** Fewer [agent.cycle] commands than the computed step count leave the
    indicator short of the first agent named as the target. *)
Lemma stepsTo_short_of_index (agents : list Agent) (target : jsstring)
    (current : option jsstring) (i j : nat) (steps : Z) (k : nat) :
  isIndexOf agents target j →
  match current with
  | Some c => isIndexOf agents c i
  | None => i = 0%nat
  end →
  stepsTo agents target current = Some steps →
  (k < Z.to_nat steps)%nat →
  executeAll (length agents) i (replicate k (js "agent.cycle")) ≠ j.
Proof.
  intros Hj Hi Hsteps Hk.
  rewrite (stepsTo_computed agents target current i j Hj Hi) in Hsteps.
  injection Hsteps as <-.
  assert (j < length agents)%nat as Hjlt.
  { apply findIndex_isIndexOf in Hj. by eapply findIndex_lt. }
  assert (i < length agents)%nat as Hilt.
  { destruct current as [c|].
    - apply findIndex_isIndexOf in Hi. by eapply findIndex_lt.
    - subst i. lia. }
  rewrite executeAll_cycles by done.
  revert Hk. generalize (length agents) Hjlt Hilt. clear. intros len Hj Hi Hk.
  destruct (decide (i ≤ j)%nat) as [Hle|Hgt].
  - assert (((Z.of_nat j - Z.of_nat i + Z.of_nat len) `mod` Z.of_nat len)%Z
            = Z.of_nat (j - i)) as E.
    { replace (Z.of_nat j - Z.of_nat i + Z.of_nat len)%Z
        with (Z.of_nat (j - i) + 1 * Z.of_nat len)%Z by lia.
      rewrite Z_mod_plus_full. apply Z.mod_small. lia. }
    rewrite E, Nat2Z.id in Hk. rewrite Nat.mod_small by lia. lia.
  - assert (((Z.of_nat j - Z.of_nat i + Z.of_nat len) `mod` Z.of_nat len)%Z
            = Z.of_nat (j + len - i)) as E.
    { replace (Z.of_nat j - Z.of_nat i + Z.of_nat len)%Z
        with (Z.of_nat (j + len - i)) by lia.
      apply Z.mod_small. lia. }
    rewrite E, Nat2Z.id in Hk.
    destruct (decide (i + k < len)%nat) as [Hlt|Hge].
    + rewrite Nat.mod_small by lia. lia.
    + replace (i + k)%nat with ((i + k - len) + 1 * len)%nat by lia.
      rewrite Nat.Div0.mod_add. rewrite Nat.mod_small by lia. lia.
Qed.

(** X2. No shorter run of forward cycles lands on the target.  When the
    agents of the terminal have distinct names, fewer [agent.cycle]
    commands than the computed step count leave the indicator, from the
    current position, on an agent whose name is not the target's. *)
Theorem stepsTo_minimal (agents : list Agent) (target : jsstring)
    (current : option jsstring) (i j : nat) (steps : Z) (k : nat) :
  NoDup (name <$> agents) →
  isIndexOf agents target j →
  match current with
  | Some c => isIndexOf agents c i
  | None => i = 0%nat
  end →
  stepsTo agents target current = Some steps →
  (k < Z.to_nat steps)%nat →
  ∃ a,
    agents !! executeAll (length agents) i (replicate k (js "agent.cycle"))
    = Some a
    ∧ name a ≠ target.
Proof.
  intros Hnd Hj Hi Hsteps Hk.
  pose proof (stepsTo_short_of_index agents target current i j steps k
                Hj Hi Hsteps Hk) as Hne.
  assert (j < length agents)%nat as Hjlt.
  { apply findIndex_isIndexOf in Hj. by eapply findIndex_lt. }
  assert (i < length agents)%nat as Hilt.
  { destruct current as [c|].
    - apply findIndex_isIndexOf in Hi. by eapply findIndex_lt.
    - subst i. lia. }
  set (position := executeAll (length agents) i (replicate k (js "agent.cycle")))
    in *.
  assert (position < length agents)%nat as Hpos.
  { unfold position. rewrite executeAll_cycles by done.
    apply Nat.mod_upper_bound. lia. }
  destruct (lookup_lt_is_Some_2 agents position Hpos) as [a Ha].
  exists a. split; [done|]. intros Hname.
  destruct Hj as [(b & Hb & Hbn) _].
  apply Hne. apply (NoDup_lookup (name <$> agents) position j target); [done| |].
  - by rewrite list_lookup_fmap, Ha, <- Hname.
  - by rewrite list_lookup_fmap, Hb, <- Hbn.
Qed.

Lemma stepsTo_minimal_witness :
  ∃ a,
    [primary "A"; primary "B"; primary "C"; primary "D"]
      !! executeAll 4 2 (replicate 1 (js "agent.cycle")) = Some a
    ∧ name a ≠ js "A".
Proof.
  apply (stepsTo_minimal [primary "A"; primary "B"; primary "C"; primary "D"]
           (js "A") (Some (js "C")) 2 0 2%Z 1).
  - apply (bool_decide_unpack _). vm_compute. exact I.
  - apply findIndex_isIndexOf. reflexivity.
  - apply findIndex_isIndexOf. reflexivity.
  - reflexivity.
  - vm_compute. lia.
Defined.

End AgentRingFacts.

(** ** Streams of part events *)

Section PartStreamFacts.
Import MessageParts PartStream.

Lemma applyAll_snoc (events : list PartEvent) (event : PartEvent)
    (registry : gmap jsstring MessagePartsState) :
  applyAll (events ++ [event]) registry
  = handlePartUpdate event.1 event.2 (applyAll events registry).
Proof. unfold applyAll. by rewrite foldl_app. Qed.

Lemma applyAll_cons (events : list PartEvent) (event : PartEvent)
    (registry : gmap jsstring MessagePartsState) :
  applyAll (event :: events) registry
  = applyAll events (handlePartUpdate event.1 event.2 registry).
Proof. reflexivity. Qed.

Lemma setPartContent_order (state : MessagePartsState) (partId content : jsstring) :
  order (setPartContent state partId content)
  = if bool_decide (partId ∈ order state) then order state
    else order state ++ [partId].
Proof. unfold setPartContent. by destruct (negb (truthy content)). Qed.

Lemma setPartContent_parts (state : MessagePartsState) (partId content : jsstring) :
  parts (setPartContent state partId content)
  = if truthy content then <[partId := content]> (parts state)
    else delete partId (parts state).
Proof. unfold setPartContent. by destruct (truthy content). Qed.

Lemma setPartContent_wellFormed (state : MessagePartsState)
    (partId content : jsstring) :
  wellFormed state → wellFormed (setPartContent state partId content).
Proof.
  intros (Hnd & Hdom & Hne). unfold wellFormed.
  rewrite setPartContent_order, setPartContent_parts.
  assert (partId ∈ (if bool_decide (partId ∈ order state) then order state
                    else order state ++ [partId])) as Hin.
  { case_bool_decide; [done|]. apply elem_of_app. right. by left. }
  assert (order state ⊆ (if bool_decide (partId ∈ order state) then order state
                         else order state ++ [partId])) as Hsub.
  { case_bool_decide; [done|]. intros x Hx. apply elem_of_app. by left. }
  split; [|split].
  - case_bool_decide as Hp; [done|]. apply NoDup_app. split; [done|].
    split; [|apply NoDup_singleton].
    intros x Hx Hx'. apply list_elem_of_singleton in Hx'. by subst.
  - intros q Hq. destruct (decide (q = partId)) as [->|Hneq]; [done|].
    apply Hsub, Hdom.
    destruct (truthy content);
      [by rewrite lookup_insert_ne in Hq | by rewrite lookup_delete_ne in Hq].
  - intros q c Hq. destruct (truthy content) eqn:Et.
    + destruct (decide (q = partId)) as [->|Hneq].
      * rewrite lookup_insert_eq in Hq. injection Hq as <-.
        by destruct content.
      * rewrite lookup_insert_ne in Hq by done. by eapply Hne.
    + destruct (decide (q = partId)) as [->|Hneq].
      * by rewrite lookup_delete_eq in Hq.
      * rewrite lookup_delete_ne in Hq by done. by eapply Hne.
Qed.

Lemma updateState_wellFormed (state : MessagePartsState) (part : Part)
    (delta : option jsstring) :
  wellFormed state → wellFormed (updateState state part delta).
Proof.
  intros Hwf. unfold updateState.
  destruct (body part) as [text|file| |text|]; try done.
  - by apply setPartContent_wellFormed.
  - destruct (Format.isImageWithUrl file); [|done].
    by apply setPartContent_wellFormed.
  - by apply setPartContent_wellFormed.
Qed.

Lemma emptyState_wellFormed : wellFormed emptyState.
Proof.
  split; [constructor|]. split.
  - intros partId [c Hc]. simpl in Hc. by rewrite lookup_empty in Hc.
  - intros partId c Hc. simpl in Hc. by rewrite lookup_empty in Hc.
Qed.

Lemma handlePartUpdate_cases (part : Part) (delta : option jsstring)
    (registry : gmap jsstring MessagePartsState) :
  handlePartUpdate part delta registry = registry
  ∨ ∃ messageId,
      messageID part = Some messageId ∧ messageId ≠ []
      ∧ handlePartUpdate part delta registry
        = <[messageId :=
              updateState (default emptyState (registry !! messageId)) part delta]>
            registry.
Proof.
  unfold handlePartUpdate.
  destruct (messageID part) as [messageId|]; [|by left].
  destruct messageId as [|c messageId]; [by left|]. right.
  exists (c :: messageId). split; [done|]. split; [done|]. simpl.
  unfold getMessageState.
  destruct (registry !! (c :: messageId)) as [state|] eqn:E; simpl; [done|].
  by rewrite insert_insert_eq.
Qed.

Lemma handlePartUpdate_wellFormed (part : Part) (delta : option jsstring)
    (registry : gmap jsstring MessagePartsState) :
  registry !! [] = None →
  (∀ messageId state, registry !! messageId = Some state → wellFormed state) →
  handlePartUpdate part delta registry !! [] = None
  ∧ ∀ messageId state,
      handlePartUpdate part delta registry !! messageId = Some state →
      wellFormed state.
Proof.
  intros Hempty Hwf.
  destruct (handlePartUpdate_cases part delta registry)
    as [->|(m & Hm & Hne & ->)]; [done|].
  split; [by rewrite lookup_insert_ne|].
  intros messageId state. destruct (decide (m = messageId)) as [->|Hneq].
  - rewrite lookup_insert_eq. intros [= <-]. apply updateState_wellFormed.
    destruct (registry !! messageId) as [st|] eqn:E; simpl.
    + by eapply Hwf.
    + apply emptyState_wellFormed.
  - rewrite lookup_insert_ne by done. apply Hwf.
Qed.

(** X3. Whatever part events arrive, in whatever order, the registry
    holds no state under the empty message id, and in the state of every
    message no part id is listed twice, every part that has content is
    listed, and no stored content is empty. *)
Theorem applyAll_wellFormed (events : list PartEvent) (messageId : jsstring)
    (state : MessagePartsState) :
  applyAll events ∅ !! messageId = Some state →
  messageId ≠ [] ∧ wellFormed state.
Proof.
  assert (applyAll events ∅ !! [] = None
          ∧ ∀ m st, applyAll events ∅ !! m = Some st → wellFormed st) as [H1 H2].
  { induction events as [|event events IH] using rev_ind.
    - split; [done|]. intros m st Hst. simpl in Hst.
      by rewrite lookup_empty in Hst.
    - rewrite applyAll_snoc. destruct IH as [IH1 IH2].
      by apply handlePartUpdate_wellFormed. }
  intros Hst. split; [|by eapply H2]. intros ->. congruence.
Qed.

Lemma applyAll_wellFormed_witness :
  js "m" ≠ []
  ∧ wellFormed
      (updateState
         (updateState emptyState (textPart (js "m") (js "p") (js "a")) None)
         (textPart (js "m") (js "p") []) (Some (js "b"))).
Proof.
  apply (applyAll_wellFormed
           [(textPart (js "m") (js "p") (js "a"), None);
            (textPart (js "m") (js "p") [], Some (js "b"))]
           (js "m")).
  vm_compute. reflexivity.
Defined.

Lemma updateState_order_prefix (state : MessagePartsState) (part : Part)
    (delta : option jsstring) :
  order state `prefix_of` order (updateState state part delta).
Proof.
  assert (∀ st partId content,
            order st `prefix_of` order (setPartContent st partId content)) as Hset.
  { intros st partId content. rewrite setPartContent_order.
    case_bool_decide; [done|]. by apply prefix_app_r. }
  unfold updateState.
  destruct (body part) as [text|file| |text|].
  - apply (Hset {| order := order state; parts := parts state;
                   textByPartId := _ |}).
  - destruct (Format.isImageWithUrl file); [apply Hset|done].
  - done.
  - apply Hset.
  - done.
Qed.

Lemma handlePartUpdate_order_prefix (part : Part) (delta : option jsstring)
    (registry : gmap jsstring MessagePartsState) (messageId : jsstring)
    (state : MessagePartsState) :
  registry !! messageId = Some state →
  ∃ state',
    handlePartUpdate part delta registry !! messageId = Some state'
    ∧ order state `prefix_of` order state'.
Proof.
  intros Hst.
  destruct (handlePartUpdate_cases part delta registry)
    as [->|(m & Hm & Hne & ->)]; [by exists state|].
  destruct (decide (m = messageId)) as [->|Hneq].
  - rewrite lookup_insert_eq, Hst. simpl. eexists. split; [done|].
    apply updateState_order_prefix.
  - rewrite lookup_insert_ne by done. by exists state.
Qed.

(** X4. Parts keep their first-seen order.  Once a message has state, no
    sequence of part events drops that state, removes a part id from its
    order or moves one: the order it had is a prefix of the order it has
    afterwards. *)
Theorem applyAll_order_prefix (events : list PartEvent)
    (registry : gmap jsstring MessagePartsState) (messageId : jsstring)
    (state : MessagePartsState) :
  registry !! messageId = Some state →
  ∃ state',
    applyAll events registry !! messageId = Some state'
    ∧ order state `prefix_of` order state'.
Proof.
  revert registry state. induction events as [|event events IH];
    intros registry state Hst.
  - by exists state.
  - rewrite applyAll_cons.
    destruct (handlePartUpdate_order_prefix event.1 event.2 registry
                messageId state Hst) as (st1 & H1 & Hp1).
    destruct (IH _ _ H1) as (st2 & H2 & Hp2).
    exists st2. split; [done|]. by etrans.
Qed.

Lemma applyAll_order_prefix_witness :
  ∃ state',
    applyAll [(textPart (js "m") (js "p") (js "x"), None);
              (textPart (js "m") (js "r") (js "z"), None)]
             (handlePartUpdate (textPart (js "m") (js "q") (js "y")) None ∅)
      !! js "m" = Some state'
    ∧ [js "q"] `prefix_of` order state'.
Proof.
  apply (applyAll_order_prefix
           [(textPart (js "m") (js "p") (js "x"), None);
            (textPart (js "m") (js "r") (js "z"), None)]
           (handlePartUpdate (textPart (js "m") (js "q") (js "y")) None ∅)
           (js "m")
           (updateState emptyState (textPart (js "m") (js "q") (js "y")) None)).
  vm_compute. reflexivity.
Defined.

(** X5. A part event of one message never disturbs another: the state of
    every message the part does not name, and so the text that message
    assembles to, are as before. *)
Theorem handlePartUpdate_frame (part : Part) (delta : option jsstring)
    (registry : gmap jsstring MessagePartsState) (other : jsstring) :
  messageID part ≠ Some other →
  handlePartUpdate part delta registry !! other = registry !! other
  ∧ buildMessageContent other (handlePartUpdate part delta registry)
    = buildMessageContent other registry.
Proof.
  intros Hother.
  assert (handlePartUpdate part delta registry !! other = registry !! other) as H.
  { destruct (handlePartUpdate_cases part delta registry)
      as [->|(m & Hm & Hne & ->)]; [done|].
    apply lookup_insert_ne. congruence. }
  split; [done|]. unfold buildMessageContent. by rewrite H.
Qed.

Lemma handlePartUpdate_frame_witness :
  buildMessageContent (js "m1")
    (handlePartUpdate (textPart (js "m2") (js "p") (js "x")) None
       (handlePartUpdate (textPart (js "m1") (js "p") (js "kept")) None ∅))
  = buildMessageContent (js "m1")
      (handlePartUpdate (textPart (js "m1") (js "p") (js "kept")) None ∅).
Proof.
  apply (handlePartUpdate_frame (textPart (js "m2") (js "p") (js "x")) None
           (handlePartUpdate (textPart (js "m1") (js "p") (js "kept")) None ∅)
           (js "m1")).
  vm_compute. congruence.
Defined.

End PartStreamFacts.

(** ** Trimming *)

Section TextFacts.
Import Text.

Lemma trimStart_blank_app (pre s : jsstring) :
  isBlank pre → trimStart (pre ++ s) = trimStart s.
Proof.
  intros H. induction H as [|c pre Hc H IH]; [done|]. simpl. by rewrite Hc.
Qed.

Lemma trimStart_blank (s : jsstring) : isBlank s → trimStart s = [].
Proof.
  intros H. rewrite <- (app_nil_r s). by rewrite trimStart_blank_app.
Qed.

Lemma trimStart_head (s : jsstring) (c : N) :
  head s = Some c → isWhiteSpace c = false → trimStart s = s.
Proof. destruct s as [|d s]; [done|]. simpl. intros [= ->] ->. done. Qed.

Lemma trimStart_split (s : jsstring) :
  ∃ pre, s = pre ++ trimStart s ∧ isBlank pre
         ∧ ∀ c, head (trimStart s) = Some c → isWhiteSpace c = false.
Proof.
  induction s as [|c s (pre & Hs & Hpre & Hhead)].
  - exists []. repeat split; [constructor|done].
  - simpl. destruct (isWhiteSpace c) eqn:Ec.
    + exists (c :: pre). split; [simpl; by f_equal|].
      split; [by constructor|done].
    + exists []. split; [done|]. split; [constructor|].
      simpl. by intros ? [= <-].
Qed.

Lemma trimEnd_blank_app (s post : jsstring) :
  isBlank post → trimEnd (s ++ post) = trimEnd s.
Proof.
  intros H. unfold trimEnd. rewrite rev_app_distr.
  rewrite trimStart_blank_app; [done|]. by apply Forall_rev.
Qed.

Lemma last_rev_head {A} (s : list A) : head (rev s) = last s.
Proof.
  induction s as [|c s IH] using rev_ind; [done|].
  rewrite rev_app_distr, last_snoc. done.
Qed.

Lemma trimEnd_last (s : jsstring) (c : N) :
  last s = Some c → isWhiteSpace c = false → trimEnd s = s.
Proof.
  intros Hl Hc. unfold trimEnd.
  rewrite (trimStart_head (rev s) c); [apply rev_involutive| |done].
  by rewrite last_rev_head.
Qed.

(** Trimming a text that is trimmed and wrapped in white space gives the
    text back. *)
Lemma trim_wrapped (pre core post : jsstring) :
  isBlank pre → isBlank post → isTrimmed core →
  trim (pre ++ core ++ post) = core.
Proof.
  intros Hpre Hpost [Hhead Hlast]. unfold trim.
  rewrite trimStart_blank_app by done.
  destruct core as [|c core].
  - simpl. by rewrite trimStart_blank.
  - rewrite (trimStart_head _ c); [|done|by apply Hhead].
    rewrite trimEnd_blank_app by done.
    destruct (last (c :: core)) as [d|] eqn:El.
    + by apply (trimEnd_last _ d); [|apply Hlast].
    + by apply last_None in El.
Qed.

(** Every text is its trimmed form wrapped in white space. *)
Lemma trim_split (s : jsstring) :
  ∃ pre post,
    s = pre ++ trim s ++ post ∧ isBlank pre ∧ isBlank post ∧ isTrimmed (trim s).
Proof.
  destruct (trimStart_split s) as (pre & Hs & Hpre & Hhead).
  destruct (trimStart_split (rev (trimStart s))) as (post' & Hr & Hpost & Hlast).
  exists pre, (rev post').
  assert (trimStart s = trim s ++ rev post') as Hts.
  { unfold trim, trimEnd. rewrite <- rev_app_distr, <- Hr.
    by rewrite rev_involutive. }
  split; [by rewrite <- Hts|]. split; [done|].
  split; [by apply Forall_rev|]. split.
  - intros c Hc. apply Hhead. rewrite Hts.
    destruct (trim s); [done|]. done.
  - intros c Hc. apply Hlast. unfold trim, trimEnd in Hc.
    by rewrite <- last_rev_head, rev_involutive in Hc.
Qed.

Lemma trim_isTrimmed (s : jsstring) : isTrimmed (trim s).
Proof. by destruct (trim_split s) as (? & ? & _ & _ & _ & H). Qed.

Lemma trim_idemp (s : jsstring) : trim (trim s) = trim s.
Proof.
  rewrite <- (app_nil_r (trim s)) at 1.
  apply (trim_wrapped [] (trim s) []); [constructor|constructor|].
  apply trim_isTrimmed.
Qed.

Lemma trim_blank_wrap (pre s post : jsstring) :
  isBlank pre → isBlank post → trim (pre ++ s ++ post) = trim s.
Proof.
  intros Hpre Hpost.
  destruct (trim_split s) as (p & q & Hs & Hp & Hq & Ht).
  rewrite Hs at 1.
  replace (pre ++ (p ++ trim s ++ q) ++ post)
    with ((pre ++ p) ++ trim s ++ (q ++ post))
    by (by rewrite <- !app_assoc).
  apply trim_wrapped; [by apply Forall_app|by apply Forall_app|done].
Qed.

End TextFacts.

(** ** A streamed text part *)

Section StreamedTextFacts.
Import MessageParts PartStream.

(** The state of a message whose one part is a text part with the
    accumulated text [text]. *)
Lemma stream_state (messageId partId : jsstring)
    (chunks : list (jsstring * jsstring))
    (registry : gmap jsstring MessagePartsState) :
  messageId ≠ [] → registry !! messageId = None → chunks ≠ [] →
  applyAll (deltaEvents messageId partId chunks) registry !! messageId
  = Some {| order := [partId];
            parts := if truthy (streamedText chunks)
                     then {[partId := streamedText chunks]} else ∅;
            textByPartId := {[partId := streamedText chunks]} |}.
Proof.
  intros Hne Hfresh.
  induction chunks as [|chunk chunks IH] using rev_ind; [done|]. intros _.
  unfold deltaEvents. rewrite map_app. simpl. rewrite applyAll_snoc. simpl.
  rewrite (handlePartUpdate_lookup _ _ messageId) by done.
  unfold streamedText. rewrite map_app, concat_app. simpl. rewrite app_nil_r.
  fold (streamedText chunks). fold (deltaEvents messageId partId chunks).
  f_equal. unfold getMessageState.
  destruct chunks as [|c0 chunks'] eqn:Ec.
  - simpl. rewrite Hfresh. simpl. unfold updateState. simpl.
    rewrite lookup_empty. simpl. unfold setPartContent. simpl.
    destruct (truthy chunk.2); simpl; f_equal; try apply delete_empty.
  - rewrite <- Ec in *. rewrite IH by (subst; done). simpl.
    unfold updateState. simpl. rewrite lookup_singleton_eq. simpl.
    unfold setPartContent. simpl.
    rewrite bool_decide_eq_true_2 by (by left).
    rewrite insert_singleton_eq.
    destruct (truthy (streamedText chunks ++ chunk.2)) eqn:Et; simpl; f_equal.
    + destruct (truthy (streamedText chunks)).
      * by rewrite insert_singleton_eq.
      * by rewrite insert_empty.
    + destruct (truthy (streamedText chunks)).
      * by rewrite delete_singleton_eq.
      * by rewrite delete_empty.
Qed.

Lemma buildMessageContent_single (messageId partId text : jsstring)
    (registry : gmap jsstring MessagePartsState) :
  registry !! messageId
  = Some {| order := [partId];
            parts := if truthy text then {[partId := text]} else ∅;
            textByPartId := {[partId := text]} |} →
  buildMessageContent messageId registry = trim text.
Proof.
  intros H. unfold buildMessageContent. rewrite H. simpl.
  destruct text as [|c text]; simpl.
  - by rewrite lookup_empty.
  - rewrite lookup_singleton_eq. simpl.
    destruct (trim (c :: text)) as [|d rest] eqn:Et; simpl; [done|].
    by rewrite <- Et.
Qed.

(** X6. A streamed text part assembles to its text.  When the deltas of
    one text part arrive for a message that had no state, the message
    assembles to the concatenation of the deltas, trimmed; the full text
    the events carry beside their delta plays no part. *)
Theorem deltas_assemble (messageId partId : jsstring)
    (chunks : list (jsstring * jsstring))
    (registry : gmap jsstring MessagePartsState) :
  messageId ≠ [] → registry !! messageId = None →
  buildMessageContent messageId
    (applyAll (deltaEvents messageId partId chunks) registry)
  = trim (streamedText chunks).
Proof.
  intros Hne Hfresh. destruct chunks as [|chunk chunks].
  - simpl. by rewrite buildMessageContent_no_state.
  - apply (buildMessageContent_single _ partId).
    by apply stream_state.
Qed.

Lemma deltas_assemble_witness :
  buildMessageContent (js "m")
    (applyAll (deltaEvents (js "m") (js "p")
                 [(js "Hel", js " Hel"); (js "Hello", js "lo ")]) ∅)
  = trim (streamedText [(js "Hel", js " Hel"); (js "Hello", js "lo ")]).
Proof.
  apply (deltas_assemble (js "m") (js "p")
           [(js "Hel", js " Hel"); (js "Hello", js "lo ")] ∅).
  - vm_compute. congruence.
  - reflexivity.
Defined.

End StreamedTextFacts.

(** ** Clean-up and replays *)

Section ReplayFacts.
Import Orchestrator Replay.

(** The registry after a [message.updated] event: the state of a
    completed assistant message is deleted, whether or not a text was
    forwarded; any other event leaves the registry as it is. *)
Lemma onMessageUpdated_discards_state (message : Message) (st : State) :
  (role message = assistant → isCompleted message = true →
   messagePartsById (onMessageUpdated message st).1
   = delete (id message) (messagePartsById st))
  ∧ (role message = user ∨ isCompleted message = false →
     messagePartsById (onMessageUpdated message st).1 = messagePartsById st).
Proof.
  unfold onMessageUpdated.
  pose proof (trackReportedAgent_registry message st) as Hreg.
  destruct (trackReportedAgent message st) as [st1 calls1]. simpl in Hreg.
  split.
  - intros -> ->. simpl. rewrite Hreg.
    by destruct (_ && _).
  - intros [->| ->]; [done|]. destruct (role message); [done|]. done.
Qed.

Lemma onMessageUpdated_known_not_forwarded (message : Message) (st : State) :
  SentMessageTracker.has (sent st) (id message) = true →
  ¬ forwards (onMessageUpdated message st).2.
Proof.
  intros Hhas [content Hin]. revert Hin. unfold onMessageUpdated.
  pose proof (trackReportedAgent_no_send message st content) as Hno.
  assert (sent (trackReportedAgent message st).1 = sent st) as Hsent.
  { unfold trackReportedAgent.
    destruct (role message), (agent message) as [a|]; simpl; try done.
    by destruct (truthy a). }
  destruct (trackReportedAgent message st) as [st1 calls1]. simpl in *.
  destruct (role message); [done|].
  destruct (negb (isCompleted message)); [done|].
  rewrite Hsent, Hhas. simpl. rewrite andb_false_r. done.
Qed.

Lemma trackSentMessage_remembers (st : SentMessageTracker.t) (messageId : jsstring) :
  messageId ≠ [] →
  SentMessageTracker.ids st = list_to_set (SentMessageTracker.queue st) →
  messageId ∈ SentMessageTracker.ids
                (SentMessageTracker.trackSentMessage st messageId).
Proof.
  intros Hne Hset.
  destruct (decide (messageId ∈ SentMessageTracker.ids st)) as [Hin|Hnew].
  { by rewrite trackSentMessage_known. }
  destruct (decide (length (SentMessageTracker.queue st)
                    < SentMessageTracker.MAX_SENT_MESSAGE_IDS)%nat) as [Hlt|Hge].
  - rewrite trackSentMessage_below_max by done. simpl. set_solver.
  - destruct (SentMessageTracker.queue st) as [|oldest rest] eqn:Eq.
    { simpl in Hge. unfold SentMessageTracker.MAX_SENT_MESSAGE_IDS in Hge. lia. }
    rewrite (trackSentMessage_at_max st messageId oldest rest);
      [|done|done|rewrite Eq; simpl in *; lia].
    simpl. destruct (truthy oldest); [|set_solver].
    assert (oldest ≠ messageId).
    { intros ->. apply Hnew. rewrite Hset. set_solver. }
    set_solver.
Qed.

End ReplayFacts.

Section ReplayTheorems.
Import Orchestrator Replay.

Lemma run_snoc (events : list Event) (event : Event) (st : State) :
  run (events ++ [event]) st = (handleEvent event (run events st)).1.
Proof. unfold run. by rewrite foldl_app. Qed.

Lemma run_reachable (events : list Event) :
  messagePartsById (run events initial) !! [] = None
  ∧ SentMessageTracker.ids (sent (run events initial))
    = list_to_set (SentMessageTracker.queue (sent (run events initial)))
  ∧ NoDup (SentMessageTracker.queue (sent (run events initial)))
  ∧ (length (SentMessageTracker.queue (sent (run events initial)))
     ≤ SentMessageTracker.MAX_SENT_MESSAGE_IDS)%nat
  ∧ Forall (fun x => x ≠ [])
      (SentMessageTracker.queue (sent (run events initial))).
Proof.
  induction events as [|event events IH] using rev_ind.
  - simpl. split; [done|]. split; [done|]. split; [constructor|].
    split; [unfold SentMessageTracker.MAX_SENT_MESSAGE_IDS; lia|constructor].
  - rewrite run_snoc. destruct IH as (Hreg & H1 & H2 & H3 & H4).
    destruct event as [terminal formatted|part delta|message]; simpl.
    + done.
    + split; [|done]. by apply handlePartUpdate_no_empty_id.
    + destruct (onMessageUpdated_tracks_nonempty message _ Hreg)
        as [Hreg' [Hsame|[Hne Htrack]]].
      * rewrite Hsame. done.
      * rewrite Htrack. split; [done|].
        by apply trackSentMessage_preserves.
Qed.

Lemma run_part_events_sent (events : list Event) (st : State) :
  Forall (fun e => isPartEvent e = true) events →
  sent (run events st) = sent st.
Proof.
  intros H. induction events as [|event events IH] using rev_ind; [done|].
  apply Forall_app in H as [H He]. rewrite Forall_singleton in He.
  rewrite run_snoc. destruct event; simpl; try done; by apply IH.
Qed.

Lemma onMessageUpdated_forward_tracks (message : Message) (st : State) :
  messagePartsById st !! [] = None →
  forwards (onMessageUpdated message st).2 →
  id message ≠ []
  ∧ sent (onMessageUpdated message st).1
    = SentMessageTracker.trackSentMessage (sent st) (id message).
Proof.
  intros Hreg [content Hin]. revert Hin. unfold onMessageUpdated.
  pose proof (trackReportedAgent_no_send message st content) as Hno.
  pose proof (trackReportedAgent_registry message st) as Hreg1.
  assert (sent (trackReportedAgent message st).1 = sent st) as Hsent.
  { unfold trackReportedAgent.
    destruct (role message), (agent message) as [a|]; simpl; try done.
    by destruct (truthy a). }
  destruct (trackReportedAgent message st) as [st1 calls1]. simpl in *.
  destruct (role message); [done|].
  destruct (negb (isCompleted message)); [done|].
  rewrite Hreg1.
  destruct (0 <? length _)%nat eqn:Elen; simpl; [|done].
  destruct (negb (SentMessageTracker.has (sent st1) (id message))); simpl; [|done].
  intros _. split; [|by rewrite Hsent].
  intros Hnil. rewrite Hnil in Elen.
  rewrite buildMessageContent_no_state in Elen by done. discriminate.
Qed.

(** X8. A forwarded message is not forwarded again on a replay.  In any
    state the plugin reaches on its event stream, once the completion of
    an assistant message has forwarded its text, a repeated completion
    event for the same message forwards nothing, whatever part events
    (also parts of that message, arriving again) come in between. *)
Theorem completion_forwarded_once (history parts : list Event)
    (message : Message) :
  Forall (fun e => isPartEvent e = true) parts →
  forwards (onMessageUpdated message (run history initial)).2 →
  ¬ forwards
      (onMessageUpdated message
         (run parts (onMessageUpdated message (run history initial)).1)).2.
Proof.
  intros Hparts Hfwd.
  destruct (run_reachable history) as (Hreg & Hset & _).
  destruct (onMessageUpdated_forward_tracks message _ Hreg Hfwd) as [Hne Htrack].
  apply onMessageUpdated_known_not_forwarded.
  rewrite run_part_events_sent by done. rewrite Htrack.
  unfold SentMessageTracker.has. apply bool_decide_eq_true.
  by apply trackSentMessage_remembers.
Qed.

End ReplayTheorems.

Section ReplayWitness.
Import Orchestrator Replay.

Lemma completion_forwarded_once_witness :
  ¬ forwards
      (onMessageUpdated (completedAssistant (js "m"))
         (run [PartUpdated (MessageParts.textPart (js "m") (js "p") (js "Hello")) None]
            (onMessageUpdated (completedAssistant (js "m"))
               (run [PartUpdated
                       (MessageParts.textPart (js "m") (js "p") (js "Hello")) None]
                    initial)).1)).2.
Proof.
  apply (completion_forwarded_once
           [PartUpdated (MessageParts.textPart (js "m") (js "p") (js "Hello")) None]
           [PartUpdated (MessageParts.textPart (js "m") (js "p") (js "Hello")) None]
           (completedAssistant (js "m"))).
  - repeat constructor.
  - exists (js "Hello"). vm_compute. left.
Defined.

End ReplayWitness.

(** ** The echo buffer under interleaved use *)

Section EchoOpsFacts.
Import EchoSuppressor EchoOps Text.

Lemma isFromUI_length (content : jsstring) (buf : list jsstring) :
  (length (isFromUI content buf).2 ≤ length buf)%nat.
Proof.
  unfold isFromUI. destruct (indexOf _ buf) as [i|] eqn:E; simpl; [|done].
  apply indexOf_Some in E as [Hi _]. rewrite length_delete by eauto. lia.
Qed.

(** X9. The echo buffer never holds more than 50 texts, however records
    by the poller and checks by the terminal hook interleave. *)
Theorem echo_buffer_bounded (ops : list Op) :
  (length (applyOps ops []) ≤ MAX_UI_MESSAGES)%nat.
Proof.
  induction ops as [|op ops IH] using rev_ind.
  - simpl. unfold MAX_UI_MESSAGES. lia.
  - unfold applyOps in *. rewrite foldl_app. simpl.
    destruct op as [content|content]; simpl.
    + by apply addUIMessage_within_capacity.
    + etrans; [apply isFromUI_length|done].
Qed.

Lemma replaceCRLF_toCRLF (s : jsstring) :
  noCR s → replaceCRLF (toCRLF s) = s.
Proof.
  intros H. induction H as [|c s Hc H IH]; [done|].
  simpl. destruct (c =? 10) eqn:E10.
  - apply N.eqb_eq in E10. subst c.
    change (replaceCRLF (13 :: 10 :: toCRLF s)) with (10 :: replaceCRLF (toCRLF s)).
    by rewrite IH.
  - assert (replaceCRLF (c :: toCRLF s) = c :: replaceCRLF (toCRLF s)) as ->.
    { apply N.eqb_neq in Hc. simpl. destruct (toCRLF s); [done|].
      by rewrite Hc. }
    by rewrite IH.
Qed.

Lemma replaceCRLF_blank (s : jsstring) : isBlank s → isBlank (replaceCRLF s).
Proof.
  intros H. unfold isBlank in *.
  assert (∀ n s, (length s ≤ n)%nat →
                 Forall (fun c => isWhiteSpace c = true) s →
                 Forall (fun c => isWhiteSpace c = true) (replaceCRLF s)) as Hn.
  { clear. induction n as [|n IH]; intros s Hlen Hs.
    - destruct s; [constructor|simpl in Hlen; lia].
    - destruct s as [|c [|d r]]; [constructor|done|].
      apply Forall_cons in Hs as [Hc Hs]. simpl in Hlen.
      change (replaceCRLF (c :: d :: r))
        with (if (c =? 13) && (d =? 10) then 10 :: replaceCRLF r
              else c :: replaceCRLF (d :: r)).
      destruct ((c =? 13) && (d =? 10)).
      + apply Forall_cons. split; [done|]. apply IH; [lia|].
        by apply Forall_cons in Hs as [_ Hs].
      + apply Forall_cons. split; [done|]. apply IH; [simpl; lia|done]. }
  by apply (Hn (length s)).
Qed.

End EchoOpsFacts.

Section LineEndingFacts.
Import EchoSuppressor Text.

Lemma replaceCRLF_cons_cons (c d : N) (r : jsstring) :
  replaceCRLF (c :: d :: r)
  = if (c =? 13) && (d =? 10) then 10 :: replaceCRLF r
    else c :: replaceCRLF (d :: r).
Proof. reflexivity. Qed.

Lemma replaceCRLF_app (a b : jsstring) :
  last a ≠ Some 13 ∨ head b ≠ Some 10 →
  replaceCRLF (a ++ b) = replaceCRLF a ++ replaceCRLF b.
Proof.
  assert (∀ n a, (length a ≤ n)%nat →
                 last a ≠ Some 13 ∨ head b ≠ Some 10 →
                 replaceCRLF (a ++ b) = replaceCRLF a ++ replaceCRLF b) as Hn.
  { induction n as [|n IH]; intros a' Hlen Hend.
    - destruct a'; [done|simpl in Hlen; lia].
    - destruct a' as [|c [|d r]]; [done| |].
      + destruct b as [|e b']; [done|].
        change (replaceCRLF ([c] ++ e :: b'))
          with (if (c =? 13) && (e =? 10) then 10 :: replaceCRLF b'
                else c :: replaceCRLF (e :: b')).
        destruct (N.eqb_spec c 13) as [->|Hc]; simpl.
        * destruct (N.eqb_spec e 10) as [->|He]; [|done].
          by destruct Hend.
        * done.
      + simpl in Hlen.
        change ((c :: d :: r) ++ b) with (c :: d :: (r ++ b)).
        rewrite !replaceCRLF_cons_cons.
        destruct ((c =? 13) && (d =? 10)).
        * simpl. f_equal. apply IH; [lia|].
          destruct r as [|x r']; [by left|].
          destruct Hend as [Hend|Hend]; [|by right]. left.
          by rewrite !last_cons_cons in Hend.
        * simpl. f_equal. apply (IH (d :: r)); [simpl; lia|].
          destruct Hend as [Hend|Hend]; [|by right]. left.
          by rewrite last_cons_cons in Hend. }
  by apply (Hn (length a)).
Qed.

Lemma replaceCRLF_noCR (s : jsstring) : noCR s → replaceCRLF s = s.
Proof.
  intros H. induction H as [|c s Hc H IH]; [done|].
  destruct s as [|d r]; [done|]. rewrite replaceCRLF_cons_cons.
  apply N.eqb_neq in Hc. rewrite Hc. cbn [andb]. by rewrite IH.
Qed.

Lemma toCRLF_head (s : jsstring) : noCR s → head (toCRLF s) ≠ Some 10.
Proof.
  destruct s as [|c s]; [done|]. simpl.
  destruct (N.eqb_spec c 10) as [->|Hc]; simpl; [done|]. congruence.
Qed.

Lemma toCRLF_last (s : jsstring) : noCR s → last (toCRLF s) ≠ Some 13.
Proof.
  intros H. induction H as [|c s Hc H IH]; [done|]. simpl.
  destruct (N.eqb_spec c 10) as [->|Hc10].
  - destruct (toCRLF s) as [|x r] eqn:E; [done|].
    by rewrite !last_cons_cons.
  - destruct (toCRLF s) as [|x r] eqn:E; [simpl; congruence|].
    by rewrite last_cons_cons.
Qed.

Lemma normalizeMessage_blank (s : jsstring) :
  isBlank s → normalizeMessage s = [].
Proof.
  intros H. unfold normalizeMessage, trim.
  rewrite trimStart_blank; [done|]. by apply replaceCRLF_blank.
Qed.

Lemma normalizeMessage_wrapped (pre post t : jsstring) :
  noCR t → isBlank pre → isBlank post →
  normalizeMessage (pre ++ toCRLF t ++ post) = normalizeMessage t.
Proof.
  intros Ht Hpre Hpost.
  destruct (decide (t = [])) as [->|Hne].
  { simpl. by rewrite normalizeMessage_blank by (by apply Forall_app). }
  assert (head (toCRLF t ++ post) ≠ Some 10) as Hhead.
  { pose proof (toCRLF_head t Ht) as H.
    destruct t as [|c t']; [done|]. simpl in *. by destruct (c =? 10). }
  unfold normalizeMessage.
  rewrite replaceCRLF_app by (by right).
  rewrite replaceCRLF_app by (left; by apply toCRLF_last).
  rewrite replaceCRLF_toCRLF by done.
  rewrite (replaceCRLF_noCR t) by done.
  apply trim_blank_wrap; by apply replaceCRLF_blank.
Qed.

(** X10. Echo suppression ignores line endings and surrounding white
    space.  After a text without carriage returns is recorded, the check
    recognises it when it comes back with every line feed turned into
    CR LF and with white space of any kind before and after it. *)
Theorem isFromUI_line_endings (t pre post : jsstring) (buf : list jsstring) :
  noCR t → isBlank pre → isBlank post →
  (isFromUI (pre ++ toCRLF t ++ post) (addUIMessage t buf)).1 = true.
Proof.
  intros Ht Hpre Hpost. unfold isFromUI.
  rewrite normalizeMessage_wrapped by done.
  destruct (indexOf (normalizeMessage t) (addUIMessage t buf)) as [i|] eqn:E;
    [done|].
  apply indexOf_None in E. exfalso. apply E.
  rewrite addUIMessage_snoc. apply elem_of_app. right. by left.
Qed.

Lemma isFromUI_line_endings_witness :
  (isFromUI ([32; 13] ++ toCRLF (js "a" ++ [10] ++ js "b") ++ [10; 9])
     (addUIMessage (js "a" ++ [10] ++ js "b") [js "x"])).1 = true.
Proof.
  apply (isFromUI_line_endings (js "a" ++ [10] ++ js "b") [32; 13] [10; 9]
           [js "x"]).
  - apply (bool_decide_unpack _). vm_compute. exact I.
  - repeat constructor.
  - repeat constructor.
Defined.

End LineEndingFacts.

(** ** What the registry of forwarded ids remembers *)

Section TrackerHistoryFacts.
Import SentMessageTracker TrackerHistory.

Lemma lastN_snoc_short {A} (n : nat) (l : list A) (x : A) :
  (length l < n)%nat → lastN n (l ++ [x]) = lastN n l ++ [x].
Proof.
  intros H. unfold lastN. rewrite length_app. simpl.
  replace (length l + 1 - n)%nat with 0%nat by lia.
  replace (length l - n)%nat with 0%nat by lia. done.
Qed.

Lemma lastN_snoc_full {A} (n : nat) (l : list A) (x : A) :
  (0 < n)%nat → (n ≤ length l)%nat →
  lastN n (l ++ [x]) = drop 1 (lastN n l) ++ [x].
Proof.
  intros Hn H. unfold lastN. rewrite length_app. simpl.
  rewrite drop_app_le by lia. rewrite drop_drop. f_equal. f_equal. lia.
Qed.

Lemma lastN_length {A} (n : nat) (l : list A) :
  length (lastN n l) = Nat.min n (length l).
Proof. unfold lastN. rewrite length_drop. lia. Qed.

Lemma lastN_subseteq {A} (n : nat) (l : list A) : lastN n l ⊆ l.
Proof.
  intros x Hx. apply list_elem_of_lookup in Hx as [i Hi].
  unfold lastN in Hi. rewrite lookup_drop in Hi.
  by eapply list_elem_of_lookup_2.
Qed.

Lemma trackAll_queue (messageIds : list jsstring) :
  NoDup messageIds → Forall (fun x => x ≠ []) messageIds →
  queue (trackAll messageIds empty) = lastN MAX_SENT_MESSAGE_IDS messageIds.
Proof.
  induction messageIds as [|x l IH] using rev_ind; intros Hnd Hne; [done|].
  apply NoDup_app in Hnd as (Hnd & Hx & _).
  pose proof Hne as Hall. apply Forall_app in Hne as [Hne _].
  specialize (IH Hnd Hne).
  destruct (trackAll_preserves l Hne) as (Hset & _).
  rewrite trackAll_snoc.
  assert (x ∉ ids (trackAll l empty)) as Hnew.
  { rewrite Hset, IH, elem_of_list_to_set. intros Hin.
    apply lastN_subseteq in Hin. apply (Hx x Hin). by left. }
  destruct (decide (length l < MAX_SENT_MESSAGE_IDS)%nat) as [Hlt|Hge].
  - rewrite trackSentMessage_below_max; [|done|].
    + simpl. rewrite IH. by rewrite lastN_snoc_short.
    + rewrite IH, lastN_length. lia.
  - destruct (queue (trackAll l empty)) as [|oldest rest] eqn:Eq.
    { apply (f_equal length) in IH. rewrite lastN_length in IH.
      cbn [length] in IH. unfold MAX_SENT_MESSAGE_IDS in *. lia. }
    rewrite (trackSentMessage_at_max _ x oldest rest); [|done|done|].
    + simpl. rewrite lastN_snoc_full by (unfold MAX_SENT_MESSAGE_IDS in *; lia).
      by rewrite <- IH.
    + rewrite Eq, IH, lastN_length. lia.
Qed.

(** X11. The registry remembers the 200 ids forwarded last.  From the
    empty registry, after a sequence of distinct non-empty ids, the queue
    holds the last 200 of them (all of them when there are fewer), oldest
    first, and the set holds exactly these: an id is known if and only if
    it is among them. *)
Theorem trackAll_keeps_last (messageIds : list jsstring) :
  NoDup messageIds → Forall (fun x => x ≠ []) messageIds →
  queue (trackAll messageIds empty) = lastN MAX_SENT_MESSAGE_IDS messageIds
  ∧ ∀ x, has (trackAll messageIds empty) x = true
         ↔ x ∈ lastN MAX_SENT_MESSAGE_IDS messageIds.
Proof.
  intros Hnd Hne. pose proof (trackAll_queue messageIds Hnd Hne) as Hq.
  split; [done|]. intros x.
  destruct (trackAll_preserves messageIds Hne) as (Hset & _).
  unfold has. rewrite bool_decide_eq_true, Hset, Hq.
  apply elem_of_list_to_set.
Qed.

Lemma trackAll_keeps_last_witness :
  queue (trackAll (ids200 ++ [freshId]) empty)
  = lastN MAX_SENT_MESSAGE_IDS (ids200 ++ [freshId])
  ∧ ∀ x, has (trackAll (ids200 ++ [freshId]) empty) x = true
         ↔ x ∈ lastN MAX_SENT_MESSAGE_IDS (ids200 ++ [freshId]).
Proof.
  apply (trackAll_keeps_last (ids200 ++ [freshId])).
  - apply (bool_decide_unpack _). vm_compute. exact I.
  - apply (bool_decide_unpack _). vm_compute. exact I.
Defined.

End TrackerHistoryFacts.

(** ** Permission options and the numbers that select them *)

Section PermissionOptionsFacts.
Import Permission PermissionOptions.

Lemma DEFAULT_positional (i : nat) (opt : PermissionOption) :
  DEFAULT_PERMISSION_OPTIONS !! i = Some opt →
  responses !! i = Some (response opt).
Proof.
  destruct i as [|[|[|i]]]; simpl; intros [= <-]; done.
Qed.

(** X12. The options offered for a permission are never empty and never
    more than three, and the decision of each is fixed by its position:
    once for the first, always for the second, reject for the third.
    Labels supplied by the permission replace the default labels, in
    order, the fourth and later ones being dropped; without any, the
    default options are offered. *)
Theorem buildPermissionOptions_positional (metaOptions : option (list jsstring)) :
  (1 ≤ length (buildPermissionOptions metaOptions) ≤ 3)%nat
  ∧ (∀ i opt, buildPermissionOptions metaOptions !! i = Some opt →
              responses !! i = Some (response opt))
  ∧ match metaOptions with
    | Some (l :: labels) =>
        label <$> buildPermissionOptions metaOptions = take 3 (l :: labels)
    | _ => buildPermissionOptions metaOptions = DEFAULT_PERMISSION_OPTIONS
    end.
Proof.
  destruct metaOptions as [[|l labels]|].
  - simpl. split; [lia|]. split; [apply DEFAULT_positional|done].
  - change (buildPermissionOptions (Some (l :: labels)))
      with (imap (fun i l => {| label := l;
                                response := default reject (responses !! i) |})
                 (take 3 (l :: labels))).
    split; [|split].
    + rewrite length_imap, length_take. cbn [length]. lia.
    + intros i opt. rewrite list_lookup_imap.
      destruct (take 3 (l :: labels) !! i) as [x|] eqn:E; [|done].
      simpl. intros [= <-]. simpl.
      apply lookup_lt_Some in E. rewrite length_take in E.
      destruct i as [|[|[|i]]]; [done|done|done|]. exfalso. lia.
    + apply list_eq. intros i. rewrite list_lookup_fmap, list_lookup_imap.
      by destruct (take 3 (l :: labels) !! i).
  - simpl. split; [lia|]. split; [apply DEFAULT_positional|done].
Qed.

End PermissionOptionsFacts.

Section OrdinalFacts.
Import Permission PermissionOptions Text.

Lemma buildPermissionOptions_positional_witness :
  responses !! 1%nat = Some always
  ∧ label <$> buildPermissionOptions (Some [js "A"; js "B"; js "C"; js "D"])
    = [js "A"; js "B"; js "C"].
Proof.
  destruct (buildPermissionOptions_positional
              (Some [js "A"; js "B"; js "C"; js "D"])) as (_ & H2 & H3).
  split; [|exact H3].
  apply (H2 1%nat {| label := js "B"; response := always |}). reflexivity.
Defined.

Lemma digitsValue_from (init : Z) (l : jsstring) :
  fold_left (fun acc d => (10 * acc + (Z.of_N d - 48))%Z) l init
  = (init * 10 ^ Z.of_nat (length l) + digitsValue l)%Z.
Proof.
  unfold digitsValue. revert init. induction l as [|d l IH]; intros init.
  - simpl. lia.
  - cbn [fold_left length]. rewrite IH, (IH (10 * 0 + (Z.of_N d - 48))%Z).
    rewrite Nat2Z.inj_succ, Z.pow_succ_r by lia. lia.
Qed.

Lemma digitsValue_cons (d : N) (l : jsstring) :
  digitsValue (d :: l)
  = ((Z.of_N d - 48) * 10 ^ Z.of_nat (length l) + digitsValue l)%Z.
Proof.
  unfold digitsValue at 1. cbn [fold_left]. rewrite digitsValue_from. lia.
Qed.

Lemma decimalDigits_spec (fuel n : nat) (acc : jsstring) :
  (n < fuel)%nat → Forall (fun c => isDigit c = true) acc →
  Forall (fun c => isDigit c = true) (decimalDigits fuel n acc)
  ∧ decimalDigits fuel n acc ≠ []
  ∧ digitsValue (decimalDigits fuel n acc)
    = (Z.of_nat n * 10 ^ Z.of_nat (length acc) + digitsValue acc)%Z.
Proof.
  revert n acc. induction fuel as [|fuel IH]; intros n acc Hn Hacc; [lia|].
  cbn [decimalDigits].
  assert (isDigit (48 + N.of_nat (n mod 10)) = true) as Hd.
  { unfold isDigit. pose proof (Nat.mod_upper_bound n 10).
    apply andb_true_iff. split; apply N.leb_le; lia. }
  assert (Z.of_N (48 + N.of_nat (n mod 10)) - 48 = Z.of_nat (n mod 10))%Z as Hv
    by lia.
  pose proof (Nat.div_mod_eq n 10) as Hdm.
  destruct (n / 10 =? 0)%nat eqn:E.
  - apply Nat.eqb_eq in E. split; [by constructor|]. split; [done|].
    rewrite digitsValue_cons, Hv. f_equal. f_equal. lia.
  - apply Nat.eqb_neq in E.
    destruct (IH (n / 10)%nat (48 + N.of_nat (n mod 10) :: acc)) as (H1 & H2 & H3).
    + lia.
    + by constructor.
    + split; [done|]. split; [done|]. rewrite H3, digitsValue_cons, Hv.
      cbn [length]. rewrite Nat2Z.inj_succ, Z.pow_succ_r by lia.
      assert (Z.of_nat n = 10 * Z.of_nat (n / 10) + Z.of_nat (n mod 10))%Z as ->
        by lia.
      lia.
Qed.

Lemma decimal_spec (n : nat) :
  Forall (fun c => isDigit c = true) (decimal n)
  ∧ decimal n ≠ []
  ∧ digitsValue (decimal n) = Z.of_nat n.
Proof.
  destruct (decimalDigits_spec (S n) n []) as (H1 & H2 & H3); [lia|constructor|].
  split; [done|]. split; [done|]. unfold decimal. rewrite H3. simpl.
  unfold digitsValue. simpl. lia.
Qed.

Lemma isDigit_not_space (c : N) : isDigit c = true → isWhiteSpace c = false.
Proof.
  unfold isDigit. intros H. apply andb_true_iff in H as [H1 H2].
  apply N.leb_le in H1. apply N.leb_le in H2. unfold isWhiteSpace.
  repeat (apply orb_false_iff; split);
    try (apply andb_false_iff; (left; apply N.leb_gt; lia) || (right; apply N.leb_gt; lia));
    apply N.eqb_neq; lia.
Qed.

Lemma digits_trimmed (s : jsstring) :
  Forall (fun c => isDigit c = true) s → isTrimmed s.
Proof.
  intros H. rewrite Forall_forall in H. split; intros c Hc.
  - apply isDigit_not_space, H. destruct s; [done|]. injection Hc as <-. by left.
  - apply isDigit_not_space, H. by apply last_Some_elem_of.
Qed.

Lemma digitsPrefix_all (s : jsstring) :
  Forall (fun c => isDigit c = true) s → digitsPrefix s = s.
Proof.
  intros H. induction H as [|c s Hc H IH]; [done|]. simpl. by rewrite Hc, IH.
Qed.

Lemma parseInt10_decimal (n : nat) : parseInt10 (decimal n) = Some (Z.of_nat n).
Proof.
  destruct (decimal_spec n) as (Hd & Hne & Hv). unfold parseInt10.
  destruct (decimal n) as [|c s] eqn:E; [done|].
  pose proof Hd as Hd'. apply Forall_cons in Hd' as [Hc _].
  rewrite (trimStart_head _ c); [|done|by apply isDigit_not_space].
  assert ((c =? 45) = false ∧ (c =? 43) = false) as [-> ->].
  { unfold isDigit in Hc. apply andb_true_iff in Hc as [H1 H2].
    apply N.leb_le in H1. split; apply N.eqb_neq; lia. }
  rewrite digitsPrefix_all by done. rewrite Hv. f_equal. lia.
Qed.

Lemma trim_decimal (n : nat) : trim (decimal n) = decimal n.
Proof.
  destruct (decimal_spec n) as (Hd & _).
  rewrite <- (app_nil_r (decimal n)) at 1.
  apply (trim_wrapped [] (decimal n) []); [constructor|constructor|].
  by apply digits_trimmed.
Qed.

Lemma lower_decimal (toLowerCase : jsstring → jsstring) (n : nat) :
  lowersAscii toLowerCase → toLowerCase (decimal n) = decimal n.
Proof.
  intros Hlow. destruct (decimal_spec n) as (Hd & _).
  rewrite Hlow.
  - induction Hd as [|c s Hc Hd IH]; [done|]. simpl. rewrite IH. f_equal.
    unfold isDigit in Hc. apply andb_true_iff in Hc as [H1 H2].
    apply N.leb_le in H2. unfold asciiLower.
    destruct (N.leb_spec 65 c); [lia|done].
  - eapply Forall_impl; [exact Hd|]. intros c Hc. unfold isAscii.
    unfold isDigit in Hc. apply andb_true_iff in Hc as [H1 H2].
    apply N.leb_le in H2. apply N.ltb_lt. lia.
Qed.

(** X13. The number shown beside an option selects it.  The line of the
    options block for the option at index i reads i + 1, a full stop, a
    space and the label; and a reply that is just that number yields the
    decision of that option, provided no label of the list is itself that
    number. *)
Theorem ordinal_selects_option (toLowerCase : jsstring → jsstring)
    (options : list PermissionOption) (i : nat) (opt : PermissionOption) :
  lowersAscii toLowerCase →
  options !! i = Some opt →
  optionLines options !! i = Some (decimal (i + 1) ++ js ". " ++ label opt)
  ∧ (Forall (fun o => toLowerCase (label o) ≠ decimal (i + 1)) options →
     parsePermissionReply toLowerCase (decimal (i + 1)) options
     = Some (response opt)).
Proof.
  intros Hlow Hopt. split.
  - unfold optionLines. by rewrite list_lookup_imap, Hopt.
  - intros Hlabels. unfold parsePermissionReply.
    rewrite trim_decimal, lower_decimal by done.
    assert (matchLabel toLowerCase (decimal (i + 1)) options = None) as ->.
    { by apply matchLabel_none. }
    unfold matchNumber. rewrite parseInt10_decimal.
    apply lookup_lt_Some in Hopt as Hlt.
    assert ((1 <=? Z.of_nat (i + 1)) && (Z.of_nat (i + 1) <=? Z.of_nat (length options))
            = true)%Z as ->.
    { apply andb_true_iff. split; apply Z.leb_le; lia. }
    replace (Z.to_nat (Z.of_nat (i + 1) - 1)) with i by lia.
    by rewrite Hopt.
Qed.

Lemma ordinal_selects_option_witness :
  parsePermissionReply asciiToLowerCase (decimal (1 + 1))
    DEFAULT_PERMISSION_OPTIONS = Some always.
Proof.
  apply (ordinal_selects_option asciiToLowerCase DEFAULT_PERMISSION_OPTIONS 1
           {| label := js "Allow always"; response := always |}).
  - exact asciiToLowerCase_onAscii.
  - reflexivity.
  - apply (bool_decide_unpack _). vm_compute. exact I.
Defined.

End OrdinalFacts.

(** ** Strings through JSON.stringify and JSON.parse *)

Section JsonTextFacts.
Import Json JsonText.

Lemma hexDigit_hexChar (k : N) : k < 16 → hexDigit (hexChar k) = Some k.
Proof.
  intros Hk. unfold hexChar, hexDigit.
  destruct (N.ltb_spec k 10).
  - destruct (N.leb_spec 48 (48 + k)); [|lia].
    destruct (N.leb_spec (48 + k) 57); [|lia]. simpl. f_equal. lia.
  - destruct (N.leb_spec 48 (87 + k)); [|lia].
    destruct (N.leb_spec (87 + k) 57); [lia|]. simpl.
    destruct (N.leb_spec 65 (87 + k)); [|lia].
    destruct (N.leb_spec (87 + k) 70); [lia|]. simpl.
    destruct (N.leb_spec 97 (87 + k)); [|lia].
    destruct (N.leb_spec (87 + k) 102); [|lia]. simpl. f_equal. lia.
Qed.

Lemma parseChars_unicodeEscape (c : N) (rest acc : jsstring) :
  c < 65536 →
  parseChars (unicodeEscape c ++ rest) acc = parseChars rest (c :: acc).
Proof.
  intros Hc. unfold unicodeEscape. cbn [app parseChars].
  change (92 =? 34) with false. change (92 =? 92) with true.
  change (117 =? 117) with true. cbv iota.
  assert (c / 4096 < 16) as H1 by (apply N.Div0.div_lt_upper_bound; lia).
  assert ((c / 256) mod 16 < 16) as H2 by (apply N.mod_lt; lia).
  assert ((c / 16) mod 16 < 16) as H3 by (apply N.mod_lt; lia).
  assert (c mod 16 < 16) as H4 by (apply N.mod_lt; lia).
  rewrite !hexDigit_hexChar by done.
  do 2 f_equal.
  pose proof (N.Div0.div_mod c 16) as D0.
  pose proof (N.Div0.div_mod (c / 16) 16) as D1.
  pose proof (N.Div0.div_mod (c / 16 / 16) 16) as D2.
  assert (c / 256 = c / 16 / 16) as E1 by (by rewrite N.Div0.div_div).
  assert (c / 4096 = c / 16 / 16 / 16) as E2 by (by rewrite !N.Div0.div_div).
  rewrite E1, E2 in *. lia.
Qed.

End JsonTextFacts.

Section JsonRoundTrip.
Import Json JsonText JsonObjectText.

Lemma parseChars_quoteUnit (c : N) (rest acc : jsstring) :
  c < 65536 →
  parseChars (quoteUnit c ++ rest) acc = parseChars rest (c :: acc).
Proof.
  intros Hc. unfold quoteUnit.
  destruct (N.eqb_spec c 8) as [->|H8]; [done|].
  destruct (N.eqb_spec c 9) as [->|H9]; [done|].
  destruct (N.eqb_spec c 10) as [->|H10]; [done|].
  destruct (N.eqb_spec c 12) as [->|H12]; [done|].
  destruct (N.eqb_spec c 13) as [->|H13]; [done|].
  destruct (N.eqb_spec c 34) as [->|H34]; [done|].
  destruct (N.eqb_spec c 92) as [->|H92]; [done|].
  destruct (N.ltb_spec c 32) as [Hlt|Hge].
  - by apply parseChars_unicodeEscape.
  - cbn [app parseChars].
    apply N.eqb_neq in H34. apply N.eqb_neq in H92. rewrite H34, H92.
    apply N.ltb_ge in Hge. by rewrite Hge.
Qed.

Lemma parseChars_quoteChars (s rest acc : jsstring) :
  isString s →
  parseChars (quoteChars s ++ 34 :: rest) acc = Ok (rev acc ++ s) rest.
Proof.
  assert (∀ n s acc, (length s ≤ n)%nat → isString s →
            parseChars (quoteChars s ++ 34 :: rest) acc = Ok (rev acc ++ s) rest)
    as Hn.
  { clear. induction n as [|n IH]; intros s acc Hlen Hs.
    - destruct s; [|simpl in Hlen; lia]. simpl. by rewrite app_nil_r.
    - destruct s as [|c r].
      { simpl. by rewrite app_nil_r. }
      apply Forall_cons in Hs as [Hc Hr]. simpl in Hlen.
      assert (∀ acc', rev (c :: acc') ++ r = rev acc' ++ c :: r) as Hrev.
      { intros acc'. simpl. by rewrite <- app_assoc. }
      cbn [quoteChars].
      destruct (isLeadSurrogate c) eqn:Elead.
      + unfold isLeadSurrogate in Elead. apply andb_true_iff in Elead as [L1 L2].
        apply N.leb_le in L1. apply N.leb_le in L2.
        destruct r as [|d r'].
        * by rewrite parseChars_unicodeEscape by done.
        * destruct (isTrailSurrogate d) eqn:Etrail.
          -- unfold isTrailSurrogate in Etrail.
             apply andb_true_iff in Etrail as [T1 T2].
             apply N.leb_le in T1. apply N.leb_le in T2.
             apply Forall_cons in Hr as [Hd Hr'].
             cbn [app parseChars].
             destruct (N.eqb_spec c 34); [lia|].
             destruct (N.eqb_spec c 92); [lia|].
             destruct (N.ltb_spec c 32); [lia|].
             destruct (N.eqb_spec d 34); [lia|].
             destruct (N.eqb_spec d 92); [lia|].
             destruct (N.ltb_spec d 32); [lia|].
             rewrite IH; [|simpl in Hlen; lia|done].
             f_equal. simpl. by rewrite <- !app_assoc.
          -- rewrite <- app_assoc, parseChars_unicodeEscape by done.
             rewrite IH; [|simpl in *; lia|done]. by rewrite Hrev.
      + destruct (isTrailSurrogate c).
        * rewrite <- app_assoc, parseChars_unicodeEscape by done.
          rewrite IH; [|lia|done]. by rewrite Hrev.
        * rewrite <- app_assoc, parseChars_quoteUnit by done.
          rewrite IH; [|lia|done]. by rewrite Hrev. }
  intros Hs. by apply (Hn (length s)).
Qed.

Lemma parseValue_stringify (fuel : nat) (s rest : jsstring) :
  isString s →
  parseValue (S fuel) (stringify s ++ rest) = Ok (JString s) rest.
Proof.
  intros Hs. rewrite parseValue_S. unfold stringify.
  cbn [app skipSpace]. change (isJsonSpace 34) with false. cbv iota.
  change (34 =? 123) with false. change (34 =? 91) with false.
  change (34 =? 34) with true. cbv iota.
  rewrite <- app_assoc. cbn [app].
  by rewrite parseChars_quoteChars.
Qed.

Lemma parseMembers_membersText (fuel : nat)
    (members : list (jsstring * jsstring)) (rest : jsstring)
    (acc : list (jsstring * value)) :
  members ≠ [] →
  Forall (fun m => isString m.1 ∧ isString m.2) members →
  (length members < fuel)%nat →
  parseMembers fuel (membersText members ++ 125 :: rest) acc
  = Ok (JObject (rev acc ++ map (fun m => (m.1, JString m.2)) members)) rest.
Proof.
  revert fuel acc. induction members as [|[k v] ms IH]; intros fuel acc Hne Hall Hf;
    [done|].
  apply Forall_cons in Hall as [[Hk Hv] Hall]. simpl in Hk, Hv.
  destruct fuel as [|fuel]; [simpl in Hf; lia|].
  destruct fuel as [|fuel]; [simpl in Hf; lia|].
  rewrite parseMembers_S.
  assert (∀ tail, membersText ((k, v) :: ms) ++ 125 :: rest
                  = 34 :: quoteChars k ++ 34 :: 58 :: stringify v ++ tail →
          skipSpace (membersText ((k, v) :: ms) ++ 125 :: rest)
          = 34 :: quoteChars k ++ 34 :: 58 :: stringify v ++ tail) as Hskip.
  { intros tail ->. done. }
  destruct ms as [|m ms'].
  - rewrite (Hskip (125 :: rest)).
    2:{ repeat first [rewrite <- app_assoc | progress cbn [app membersText]
                         | progress unfold stringify].
        done. }
    change (34 =? 34) with true. cbv iota.
    rewrite parseChars_quoteChars by done. cbn [bind rev app skipSpace].
    change (isJsonSpace 58) with false. cbv iota.
    change (58 =? 58) with true. cbv iota.
    rewrite parseValue_stringify by done. cbn [bind skipSpace].
    change (isJsonSpace 125) with false. cbv iota.
    change (125 =? 44) with false. change (125 =? 125) with true. cbv iota.
    done.
  - rewrite (Hskip (44 :: membersText (m :: ms') ++ 125 :: rest)).
    2:{ repeat first [rewrite <- app_assoc | progress cbn [app membersText]
                         | progress unfold stringify].
        done. }
    change (34 =? 34) with true. cbv iota.
    rewrite parseChars_quoteChars by done. cbn [bind rev app skipSpace].
    change (isJsonSpace 58) with false. cbv iota.
    change (58 =? 58) with true. cbv iota.
    rewrite parseValue_stringify by done. cbn [bind skipSpace].
    change (isJsonSpace 44) with false. cbv iota.
    change (44 =? 44) with true. cbv iota.
    rewrite IH; [|done|done|simpl in *; lia].
    f_equal. simpl. by rewrite <- !app_assoc.
Qed.

End JsonRoundTrip.


Section NoticeRoundTrip.
Import Json JsonText JsonObjectText ControlParser Text.

Lemma membersText_length (members : list (jsstring * jsstring)) :
  (length members ≤ length (membersText members))%nat.
Proof.
  induction members as [|[k v] ms IH]; [done|].
  destruct ms as [|m ms'].
  - cbn [membersText]. unfold stringify. rewrite !length_app. simpl. lia.
  - change (membersText ((k, v) :: m :: ms'))
      with (stringify k ++ [58] ++ stringify v ++ [44] ++ membersText (m :: ms')).
    rewrite !length_app. cbn [length] in *. lia.
Qed.

(** [JSON.parse] reads back what [JSON.stringify] writes for an object
    whose members are strings. *)
Lemma parse_objectText (members : list (jsstring * jsstring)) :
  Forall (fun m => JsonText.isString m.1 ∧ JsonText.isString m.2) members →
  parse (objectText members) = Some (objectValue members).
Proof.
  intros Hall. unfold parse, fuelFor.
  pose proof (membersText_length members) as Hlen.
  assert (length (objectText members) = S (S (length (membersText members))))
    as Hl.
  { unfold objectText. rewrite !length_app. simpl. lia. }
  rewrite Hl.
  replace (2 * S (S (length (membersText members))) + 2)%nat
    with (S (2 * length (membersText members) + 5))%nat by lia.
  rewrite parseValue_S. unfold objectText.
  cbn [app skipSpace]. change (isJsonSpace 123) with false. cbv iota.
  change (123 =? 123) with true. cbv iota.
  destruct members as [|m ms]; [done|].
  assert (∃ c r, membersText (m :: ms) ++ [125] = c :: r
                 ∧ isJsonSpace c = false ∧ (c =? 125) = false)
    as (c & r & E & Hsp & Hc).
  { destruct m as [k v]. exists 34.
    destruct ms as [|m' ms']; cbn [membersText]; unfold stringify;
      cbn [app]; eexists; done. }
  rewrite E. cbn [skipSpace]. rewrite Hsp, Hc. rewrite <- E.
  rewrite parseMembers_membersText; [|done|done|cbn [length] in *; lia].
  done.
Qed.

Lemma hexChar_noBrace (k : N) : k < 16 → hexChar k ≠ 123 ∧ hexChar k ≠ 125.
Proof. intros Hk. unfold hexChar. destruct (N.ltb_spec k 10); lia. Qed.

Lemma unicodeEscape_noBrace (c : N) : c < 65536 → noBrace (unicodeEscape c).
Proof.
  intros Hc. unfold unicodeEscape, noBrace.
  assert (c / 4096 < 16) by (apply N.Div0.div_lt_upper_bound; lia).
  repeat constructor; try lia;
    try (apply hexChar_noBrace; first [done | apply N.mod_lt; lia]).
Qed.

Lemma quoteUnit_noBrace (c : N) :
  c ≠ 123 → c ≠ 125 → c < 65536 → noBrace (quoteUnit c).
Proof.
  intros H1 H2 Hc. unfold quoteUnit.
  repeat case_match; try (repeat constructor; lia).
  by apply unicodeEscape_noBrace.
Qed.

Lemma quoteChars_noBrace (s : jsstring) :
  JsonText.isString s → noBrace s → noBrace (quoteChars s).
Proof.
  assert (∀ n s, (length s ≤ n)%nat → JsonText.isString s → noBrace s →
                 noBrace (quoteChars s)) as Hn.
  { induction n as [|n IH]; intros t Hlen Hs Hb.
    - destruct t; [constructor|simpl in Hlen; lia].
    - destruct t as [|c r]; [constructor|].
      apply Forall_cons in Hs as [Hc Hr].
      apply Forall_cons in Hb as [[B1 B2] Hbr]. simpl in Hlen.
      cbn [quoteChars].
      destruct (isLeadSurrogate c).
      + destruct r as [|d r'].
        * by apply unicodeEscape_noBrace.
        * destruct (isTrailSurrogate d).
          -- apply Forall_cons in Hr as [Hd Hr'].
             apply Forall_cons in Hbr as [Bd Hbr'].
             constructor; [done|]. constructor; [done|].
             apply IH; [simpl in Hlen; lia|done|done].
          -- apply Forall_app. split; [by apply unicodeEscape_noBrace|].
             apply IH; [lia|done|done].
      + destruct (isTrailSurrogate c).
        * apply Forall_app. split; [by apply unicodeEscape_noBrace|].
          apply IH; [lia|done|done].
        * apply Forall_app. split; [by apply quoteUnit_noBrace|].
          apply IH; [lia|done|done]. }
  intros Hs Hb. by apply (Hn (length s)).
Qed.

Lemma stringify_noBrace (s : jsstring) :
  JsonText.isString s → noBrace s → noBrace (stringify s).
Proof.
  intros Hs Hb. unfold stringify. constructor; [lia|].
  apply Forall_app. split; [by apply quoteChars_noBrace|].
  repeat constructor; lia.
Qed.

Lemma scanBraces_noBrace (s : jsstring) (open : option jsstring) :
  noBrace s → scanBraces s open = [].
Proof.
  intros Hs. revert open.
  induction Hs as [|c s [H1 H2] Hs IH]; intros open; [done|].
  simpl. apply N.eqb_neq in H1. apply N.eqb_neq in H2. by rewrite H1, H2.
Qed.

Lemma isString_js (s : string) : JsonText.isString (js s).
Proof.
  induction s as [|a s IH]; [constructor|].
  constructor; [|done].
  pose proof (Ascii.N_ascii_bounded a). lia.
Qed.

Lemma noBrace_check (s : jsstring) :
  forallb (fun c => negb (c =? 123) && negb (c =? 125)) s = true → noBrace s.
Proof.
  intros H. apply Forall_forall. intros c Hc. apply list_elem_of_In in Hc.
  rewrite forallb_forall in H. apply H in Hc.
  apply andb_true_iff in Hc as [H1 H2].
  apply negb_true_iff in H1, H2. apply N.eqb_neq in H1, H2. done.
Qed.

Section NoticeCaseTable.
Variable toLowerCase : jsstring → jsstring.

Lemma controlPayloadText_objectText (agentName : jsstring) :
  controlPayloadText toLowerCase agentName
  = objectText [ (js "type", js "control"); (js "setting", js "agent_type");
                 (js "value", toLowerCase agentName) ].
Proof.
  unfold controlPayloadText, objectText. cbn [membersText].
  change (js "{") with [123]. change (js "}") with [125].
  change (js ":") with [58]. change (js ",") with [44].
  by rewrite <- !app_assoc.
Qed.

(** X14.  The notice the plugin sends to the dashboard when the terminal
    changes agent reads back, through [extractControlPayload], as the
    control object it was built from: type control, setting agent_type
    and the agent's name in lower case.  It holds when neither the name
    nor its lower-case form contains a brace. *)
Theorem agentSwitchNotice_round_trip (agentName : jsstring) :
  noBrace agentName →
  noBrace (toLowerCase agentName) →
  JsonText.isString (toLowerCase agentName) →
  extractControlPayload (agentSwitchNotice toLowerCase agentName)
  = Some (agentSwitchPayload toLowerCase agentName).
Proof.
  intros Hname Hlow Hstr.
  set (members := [ (js "type", js "control"); (js "setting", js "agent_type");
                    (js "value", toLowerCase agentName) ]).
  set (pre := js "Agent changed to " ++ agentName ++ js ". ").
  assert (Forall (fun m => JsonText.isString m.1 ∧ JsonText.isString m.2)
            members) as Hall.
  { unfold members. constructor; [split; apply isString_js|].
    constructor; [split; apply isString_js|].
    constructor; [split; [apply isString_js|done]|]. constructor. }
  assert (noBrace (membersText members)) as Hbody.
  { unfold members. cbn [membersText].
    repeat (apply Forall_app; split);
      first [ apply stringify_noBrace;
              [first [apply isString_js | done]
              |first [by apply noBrace_check | done]]
            | by apply noBrace_check ]. }
  assert (noBrace pre) as Hpre.
  { unfold pre. repeat (apply Forall_app; split);
      first [by apply noBrace_check | done]. }
  assert (agentSwitchNotice toLowerCase agentName
          = pre ++ 123 :: membersText members ++ 125 :: []) as Enotice.
  { unfold agentSwitchNotice. rewrite controlPayloadText_objectText.
    unfold pre, objectText. fold members. by rewrite <- !app_assoc. }
  assert (∃ r, agentSwitchNotice toLowerCase agentName = 65 :: r) as [r Ehead].
  { unfold agentSwitchNotice. by eexists. }
  assert (trim (agentSwitchNotice toLowerCase agentName)
          = agentSwitchNotice toLowerCase agentName) as Etrim.
  { rewrite <- (app_nil_r (agentSwitchNotice toLowerCase agentName)) at 1.
    apply (trim_wrapped [] _ []); [constructor|constructor|].
    split.
    - rewrite Ehead. by intros c [= <-].
    - rewrite Enotice.
      replace (pre ++ 123 :: membersText members ++ [125])
        with ((pre ++ 123 :: membersText members) ++ [125])
        by (by rewrite <- app_assoc).
      rewrite last_snoc. by intros c [= <-]. }
  unfold extractControlPayload. rewrite Etrim.
  assert (tryPayload (agentSwitchNotice toLowerCase agentName) = None) as ->.
  { unfold tryPayload, parse, fuelFor. rewrite Ehead.
    rewrite Nat.add_comm. cbn [Nat.add]. by rewrite parseValue_S. }
  rewrite Enotice, candidates_split by done.
  unfold candidates at 1. rewrite scanBraces_noBrace by done.
  cbn [app candidates scanBraces firstPayload].
  assert (tryPayload (123 :: membersText members ++ [125])
          = Some (agentSwitchPayload toLowerCase agentName)) as ->; [|done].
  unfold tryPayload.
  change (123 :: membersText members ++ [125]) with (objectText members).
  by rewrite parse_objectText.
Qed.

End NoticeCaseTable.

Lemma agentSwitchNotice_round_trip_witness :
  extractControlPayload (agentSwitchNotice Permission.asciiToLowerCase (js "Reviewer"))
  = Some (agentSwitchPayload Permission.asciiToLowerCase (js "Reviewer")).
Proof.
  apply (agentSwitchNotice_round_trip Permission.asciiToLowerCase (js "Reviewer")).
  - by apply noBrace_check.
  - by apply noBrace_check.
  - apply Forall_forall. intros c Hc. apply list_elem_of_In in Hc.
    vm_compute in Hc. repeat (destruct Hc as [<-|Hc]; [done|]). done.
Defined.

End NoticeRoundTrip.


(** ** Control commands *)

Section ControlCommandFacts.
Import Json ControlParser Control AgentRing ControlCommand.

Lemma cycleTuiToAgent_trace (client : Client) (target : jsstring)
    (current : option jsstring) (issued : list jsstring) :
  ∃ n : nat,
    (cycleTuiToAgent client target current issued).2
    = issued ++ replicate n (js "agent.cycle").
Proof.
  unfold cycleTuiToAgent.
  destruct (app_agents client) as [allAgents|].
  2:{ exists 0%nat. simpl. by rewrite app_nil_r. }
  destruct (stepsTo _ target current) as [steps|].
  2:{ exists 0%nat. simpl. by rewrite app_nil_r. }
  destruct (cycleLoop_trace client (Z.to_nat steps) issued) as (n & _ & Hn).
  by exists n.
Qed.

Lemma executeAll_app (len position : nat) (l1 l2 : list jsstring) :
  executeAll len position (l1 ++ l2)
  = executeAll len (executeAll len position l1) l2.
Proof. unfold executeAll. by rewrite foldl_app. Qed.

Lemma inStep_lt (primaryAgents : list Agent) (position : nat)
    (believed : option jsstring) (target : jsstring) (j : nat) :
  inStep primaryAgents position believed →
  isIndexOf primaryAgents target j →
  (position < length primaryAgents)%nat.
Proof.
  intros Hin Hj.
  assert (j < length primaryAgents)%nat.
  { apply findIndex_isIndexOf in Hj. by eapply findIndex_lt. }
  destruct believed as [c|]; simpl in Hin.
  - apply findIndex_isIndexOf in Hin. by eapply findIndex_lt.
  - subst. lia.
Qed.

(** On a terminal where every command completes, cycling either leaves
    terminal and belief alone or lands on the target. *)
Lemma cycleTuiToAgent_inStep (client : Client) (allAgents : list Agent)
    (target : jsstring) (current : option jsstring) (position : nat)
    (issued : list jsstring) :
  app_agents client = Some allAgents →
  (∀ done command, tui_completes client done command = true) →
  inStep (filter (fun a => isPrimary a = true) allAgents) position current →
  (cycleTuiToAgent client target current issued = (false, issued))
  ∨ ∃ commands,
      cycleTuiToAgent client target current issued = (true, issued ++ commands)
      ∧ inStep (filter (fun a => isPrimary a = true) allAgents)
          (executeAll (length (filter (fun a => isPrimary a = true) allAgents))
             position commands)
          (Some target).
Proof.
  intros Hagents Hok Hin.
  set (agents := filter (fun a => isPrimary a = true) allAgents) in *.
  unfold cycleTuiToAgent. rewrite Hagents. fold agents.
  destruct (stepsTo agents target current) as [steps|] eqn:Esteps; [|by left].
  right.
  destruct (stepsTo_found _ _ _ _ Esteps) as (i & j & Hj & Hi & _).
  assert (i = position) as ->.
  { destruct current as [c|]; simpl in Hin.
    - apply findIndex_isIndexOf in Hin, Hi. congruence.
    - congruence. }
  pose proof (inStep_lt _ _ _ _ _ Hin Hj) as Hpos.
  assert (j < length agents)%nat as Hjlt.
  { apply findIndex_isIndexOf in Hj. by eapply findIndex_lt. }
  rewrite (stepsTo_computed agents target current position j Hj Hi) in Esteps.
  injection Esteps as <-.
  eexists. split; [by apply cycleLoop_steady|].
  rewrite executeAll_cycles by done. rewrite steps_land by done. done.
Qed.

Lemma executeAll_interrupts (len position : nat) (commands : list jsstring) :
  Forall (fun c => c = js "session.interrupt") commands →
  executeAll len position commands = position.
Proof.
  intros H. induction H as [|c l -> _ IH]; [done|].
  change (executeAll len position (js "session.interrupt" :: l))
    with (executeAll len (execute len position (js "session.interrupt")) l).
  unfold execute. rewrite decide_False; [done|].
  intros E. by vm_compute in E.
Qed.

Lemma interrupt_effects (client : Client) (w : World) :
  context (interrupt client w) = context w
  ∧ (∃ commands,
       terminal (interrupt client w) = terminal w ++ commands
       ∧ Forall (fun c => c = js "session.interrupt") commands
       ∧ (length commands ≤ 2)%nat)
  ∧ ∃ reply, dashboard (interrupt client w) = dashboard w ++ [reply].
Proof.
  unfold interrupt, executeTuiCommand.
  destruct (currentSessionId (context w)) as [[|c r]|].
  1,3: split; [done|]; split; [|by eexists];
       exists []; simpl; rewrite app_nil_r; repeat split; [constructor|lia].
  destruct (currentSessionStatus (context w)) as [[| |]|].
  1: split; [done|]; split; [|by eexists];
     exists []; simpl; rewrite app_nil_r; repeat split; [constructor|lia].
  all: destruct (tui_completes client (terminal w) (js "session.interrupt"));
    [destruct (tui_completes client _ (js "session.interrupt"))|];
    (split; [done|]; split; [|by eexists]); simpl;
    first [ exists [js "session.interrupt"; js "session.interrupt"];
            split; [by rewrite <- app_assoc|];
            split; [by repeat constructor|simpl; lia]
          | exists [js "session.interrupt"];
            split; [done|]; split; [by repeat constructor|simpl; lia] ].
Qed.

Section ControlCaseTable.
Variable toLowerCase : jsstring → jsstring.

Lemma switchAgent_effects (client : Client) (agents : option (list Agent))
    (value : option value) (w : World) :
  let w' := switchAgent toLowerCase client agents value w in
  currentSessionId (context w') = currentSessionId (context w)
  ∧ currentSessionStatus (context w') = currentSessionStatus (context w)
  ∧ (∃ n, terminal w' = terminal w ++ replicate n (js "agent.cycle"))
  ∧ ∃ replies, dashboard w' = dashboard w ++ replies ∧ (length replies ≤ 1)%nat.
Proof.
  assert (∀ t : list jsstring, ∃ n, t = t ++ replicate n (js "agent.cycle"))
    as Hnone.
  { intros t. exists 0%nat. by rewrite app_nil_r. }
  assert (∀ (d : list jsstring) m,
            ∃ replies, d ++ [m] = d ++ replies ∧ (length replies ≤ 1)%nat)
    as Hone.
  { intros d m. exists [m]. split; [done|simpl; lia]. }
  unfold switchAgent.
  destruct (truthy (nextAgentOf toLowerCase value)); simpl.
  2:{ split; [done|]. split; [done|]. split; [done|].
      exists []. split; [by rewrite app_nil_r|simpl; lia]. }
  destruct agents as [allAgents|]; simpl.
  2:{ split; [done|]. split; [done|]. by split. }
  destruct (List.find _ _) as [[|c r]|]; simpl.
  1,3: split; [done|]; split; [done|]; by split.
  destruct (cycleTuiToAgent_trace client (c :: r)
              (tuiCurrentAgent (context w)) (terminal w)) as (n & Hn).
  destruct (cycleTuiToAgent client (c :: r) _ _) as [cycled issued1] eqn:E.
  simpl in Hn. subst issued1.
  destruct cycled; simpl;
    (split; [done|]; split; [done|]; split; [by exists n|done]).
Qed.

(** X15.  What a control command can do.  A text that holds no control
    payload is not handled and changes nothing.  Whatever the text, the
    call leaves the session of the context alone, issues on the terminal
    nothing but interrupts (two at most) or nothing but agent cycles, and
    sends the dashboard one message at most. *)
Theorem handleControlCommand_effects (content : jsstring) (client : Client)
    (agents : option (list Agent)) (w : World) :
  let result := handleControlCommand toLowerCase content client agents w in
  (result.1 = false ↔ extractControlPayload content = None)
  ∧ (result.1 = false → result.2 = w)
  ∧ currentSessionId (context result.2) = currentSessionId (context w)
  ∧ currentSessionStatus (context result.2) = currentSessionStatus (context w)
  ∧ (∃ commands,
       terminal result.2 = terminal w ++ commands
       ∧ ((Forall (fun c => c = js "session.interrupt") commands
           ∧ (length commands ≤ 2)%nat)
          ∨ Forall (fun c => c = js "agent.cycle") commands))
  ∧ ∃ replies,
      dashboard result.2 = dashboard w ++ replies ∧ (length replies ≤ 1)%nat.
Proof.
  assert (∃ commands,
            terminal w = terminal w ++ commands
            ∧ ((Forall (fun c => c = js "session.interrupt") commands
                ∧ (length commands ≤ 2)%nat)
               ∨ Forall (fun c => c = js "agent.cycle") commands)) as Hnone.
  { exists []. rewrite app_nil_r. split; [done|]. right. constructor. }
  assert (∃ replies,
            dashboard w = dashboard w ++ replies ∧ (length replies ≤ 1)%nat)
    as Hquiet.
  { exists []. rewrite app_nil_r. split; [done|simpl; lia]. }
  unfold handleControlCommand.
  destruct (extractControlPayload content) as [payload|]; simpl.
  2:{ split; [done|]. split; [done|]. split; [done|]. split; [done|]. done. }
  destruct (isString (getProp payload (js "setting")) (js "interrupt")); simpl.
  { destruct (interrupt_effects client w)
      as (Hctx & (commands & Ht & Hall & Hlen) & (reply & Hd)).
    rewrite Hctx. split; [done|]. split; [done|].
    split; [done|]. split; [done|]. split.
    - exists commands. split; [done|]. by left.
    - exists [reply]. split; [done|simpl; lia]. }
  destruct (isString (getProp payload (js "setting")) (js "agent_type")); simpl.
  { destruct (switchAgent_effects client agents
                (getProp payload (js "value")) w)
      as (Hid & Hst & (n & Ht) & Hd).
    split; [done|]. split; [done|].
    split; [done|]. split; [done|]. split; [|done].
    exists (replicate n (js "agent.cycle")). split; [done|]. right.
    apply Forall_forall. intros c Hc. by apply elem_of_replicate in Hc as [-> _]. }
  split; [done|]. split; [done|]. done.
Qed.

(** X16.  An agent switch takes the canonical name.  When the payload
    asks for an agent and a primary agent of the terminal has that name
    up to case, the preferred agent becomes the name of a primary agent
    as the terminal spells it, equal to the requested one up to case, and
    the dashboard is told that name.  The agents' names are not empty. *)
Theorem handleControlCommand_switches_agent (content : jsstring)
    (client : Client) (allAgents : list Agent) (w : World)
    (payload : value) (requested : jsstring) (a : Agent) :
  extractControlPayload content = Some payload →
  getProp payload (js "setting") = Some (JString (js "agent_type")) →
  getProp payload (js "value") = Some (JString requested) →
  toLowerCase requested ≠ [] →
  Forall (fun b => name b ≠ []) allAgents →
  a ∈ allAgents → isPrimary a = true →
  toLowerCase (name a) = toLowerCase requested →
  let result :=
    handleControlCommand toLowerCase content client (Some allAgents) w in
  ∃ b, b ∈ allAgents ∧ isPrimary b = true
       ∧ toLowerCase (name b) = toLowerCase requested
       ∧ result.1 = true
       ∧ preferredAgent (context result.2) = Some (name b)
       ∧ dashboard result.2 = dashboard w ++ [agentChangedText (name b)].
Proof.
  intros Hpayload Hsetting Hvalue Hnext Hnames Ha Hprim Hlow.
  unfold handleControlCommand. rewrite Hpayload. cbv zeta.
  rewrite Hsetting, Hvalue.
  change (isString (Some (JString (js "agent_type"))) (js "interrupt"))
    with false.
  change (isString (Some (JString (js "agent_type"))) (js "agent_type"))
    with true.
  cbv iota.
  unfold switchAgent. cbn [nextAgentOf].
  destruct (toLowerCase requested) as [|x next] eqn:Enext; [done|].
  cbn [truthy negb].
  set (primaryAgents := filter (fun a => isPrimary a = true) allAgents).
  destruct (List.find (fun n => bool_decide (toLowerCase n = x :: next))
              (map name primaryAgents)) as [m|] eqn:Efind.
  2:{ exfalso.
      assert (In (name a) (map name primaryAgents)) as Hin.
      { apply in_map. apply list_elem_of_In. unfold primaryAgents.
        apply list_elem_of_filter. done. }
      pose proof (find_none _ _ Efind _ Hin) as Hf. simpl in Hf.
      by apply bool_decide_eq_false in Hf. }
  apply find_some in Efind as [Hin Hm].
  apply bool_decide_eq_true in Hm.
  apply in_map_iff in Hin as (b & <- & Hb).
  apply list_elem_of_In in Hb. unfold primaryAgents in Hb.
  apply list_elem_of_filter in Hb as [Hbp Hb].
  assert (name b ≠ []) as Hne.
  { rewrite Forall_forall in Hnames. by apply Hnames. }
  destruct (name b) as [|c r] eqn:Eb; [done|].
  exists b. rewrite Eb.
  destruct (cycleTuiToAgent client (c :: r) _ _) as [cycled issued1].
  split; [done|]. split; [done|]. split; [done|]. split; [done|].
  destruct cycled; done.
Qed.

(** X17.  The belief follows the indicator.  On a terminal where every
    command completes and whose indicator stands where the plugin
    believes it, a control command leaves belief and indicator in step:
    after the commands the call issues, the indicator stands on the agent
    the plugin then believes current. *)
Theorem handleControlCommand_in_step (content : jsstring) (client : Client)
    (agents : option (list Agent)) (allAgents : list Agent) (w : World)
    (position : nat) :
  app_agents client = Some allAgents →
  (∀ done command, tui_completes client done command = true) →
  inStep (filter (fun a => isPrimary a = true) allAgents) position
    (tuiCurrentAgent (context w)) →
  let result := handleControlCommand toLowerCase content client agents w in
  ∃ commands,
    terminal result.2 = terminal w ++ commands
    ∧ inStep (filter (fun a => isPrimary a = true) allAgents)
        (executeAll (length (filter (fun a => isPrimary a = true) allAgents))
           position commands)
        (tuiCurrentAgent (context result.2)).
Proof.
  intros Hagents Hok Hin.
  set (primaryAgents := filter (fun a => isPrimary a = true) allAgents) in *.
  assert (∃ commands, terminal w = terminal w ++ commands
            ∧ inStep primaryAgents
                (executeAll (length primaryAgents) position commands)
                (tuiCurrentAgent (context w))) as Hsame.
  { exists []. by rewrite app_nil_r. }
  unfold handleControlCommand.
  destruct (extractControlPayload content) as [payload|]; simpl; [|done].
  destruct (isString (getProp payload (js "setting")) (js "interrupt")); simpl.
  { destruct (interrupt_effects client w)
      as (Hctx & (commands & Ht & Hall & Hlen) & _).
    exists commands. split; [done|].
    rewrite Hctx. by rewrite executeAll_interrupts. }
  destruct (isString (getProp payload (js "setting")) (js "agent_type")); simpl;
    [|done].
  unfold switchAgent.
  destruct (truthy (nextAgentOf toLowerCase _)); simpl; [|done].
  destruct agents as [listed|]; simpl; [|done].
  destruct (List.find _ _) as [[|c r]|]; simpl; [done| |done].
  destruct (cycleTuiToAgent_inStep client allAgents (c :: r)
              (tuiCurrentAgent (context w)) position (terminal w)
              Hagents Hok Hin) as [E|(commands & E & Hland)];
    rewrite E; simpl.
  - done.
  - by exists commands.
Qed.

End ControlCaseTable.

End ControlCommandFacts.

Section ControlCommandWitnesses.
Import Json ControlParser Control AgentRing ControlCommand.

Lemma handleControlCommand_switches_agent_witness :
  let result :=
    handleControlCommand Permission.asciiToLowerCase
      (commandText "agent_type" "BUILD")
      (steadyClient [primary "build"; primary "plan"])
      (Some [primary "build"; primary "plan"])
      (quietWorld (Some (js "plan"))) in
  ∃ b, b ∈ [primary "build"; primary "plan"] ∧ isPrimary b = true
       ∧ Permission.asciiToLowerCase (name b)
         = Permission.asciiToLowerCase (js "BUILD")
       ∧ result.1 = true
       ∧ preferredAgent (context result.2) = Some (name b)
       ∧ dashboard result.2
         = dashboard (quietWorld (Some (js "plan")))
           ++ [agentChangedText (name b)].
Proof.
  apply (handleControlCommand_switches_agent Permission.asciiToLowerCase
           (commandText "agent_type" "BUILD")
           (steadyClient [primary "build"; primary "plan"])
           [primary "build"; primary "plan"]
           (quietWorld (Some (js "plan")))
           (JObject [ (js "type", JString (js "control"));
                      (js "setting", JString (js "agent_type"));
                      (js "value", JString (js "BUILD")) ])
           (js "BUILD") (primary "build")).
  - vm_compute. reflexivity.
  - vm_compute. reflexivity.
  - vm_compute. reflexivity.
  - vm_compute. discriminate.
  - repeat constructor; vm_compute; discriminate.
  - apply list_elem_of_here.
  - reflexivity.
  - vm_compute. reflexivity.
Defined.

Lemma handleControlCommand_in_step_witness :
  let result :=
    handleControlCommand Permission.asciiToLowerCase
      (commandText "agent_type" "BUILD")
      (steadyClient [primary "build"; primary "plan"])
      (Some [primary "build"; primary "plan"])
      (quietWorld (Some (js "plan"))) in
  ∃ commands,
    terminal result.2 = terminal (quietWorld (Some (js "plan"))) ++ commands
    ∧ inStep (filter (fun a => isPrimary a = true)
                [primary "build"; primary "plan"])
        (executeAll
           (length (filter (fun a => isPrimary a = true)
                      [primary "build"; primary "plan"]))
           1 commands)
        (tuiCurrentAgent (context result.2)).
Proof.
  apply (handleControlCommand_in_step Permission.asciiToLowerCase
           (commandText "agent_type" "BUILD")
           (steadyClient [primary "build"; primary "plan"])
           (Some [primary "build"; primary "plan"])
           [primary "build"; primary "plan"]
           (quietWorld (Some (js "plan"))) 1).
  - reflexivity.
  - reflexivity.
  - apply findIndex_isIndexOf. reflexivity.
Defined.

End ControlCommandWitnesses.


(** ** The API key *)

Section CredentialsFacts.
Import Json Text Credentials.

Lemma trim_nonempty (s : jsstring) :
  (0 <? length (trim s))%nat = true → trim s ≠ [] ∧ isTrimmed (trim s).
Proof.
  intros H. apply Nat.ltb_lt in H. split; [|apply trim_isTrimmed].
  intros E. rewrite E in H. simpl in H. lia.
Qed.

Lemma trim_blank_nil (s : jsstring) : isBlank s → trim s = [].
Proof.
  intros H. rewrite <- (app_nil_r s).
  change (s ++ []) with (s ++ [] ++ []).
  rewrite trim_blank_wrap; [done|done|constructor].
Qed.

Lemma trim_nil_blank (s : jsstring) : trim s = [] → isBlank s.
Proof.
  intros E. destruct (trim_split s) as (pre & post & Hs & Hpre & Hpost & _).
  rewrite E in Hs. rewrite Hs. by apply Forall_app.
Qed.

Lemma loadApiKey_Some (file : option jsstring) (key : jsstring) :
  loadApiKey file = Some key →
  ∃ data credentials apiKey,
    file = Some data ∧ parse data = Some credentials
    ∧ getProp credentials (js "write_key") = Some (JString apiKey)
    ∧ key = trim apiKey ∧ (0 <? length (trim apiKey))%nat = true.
Proof.
  unfold loadApiKey. destruct file as [data|]; [|done].
  destruct (parse data) as [credentials|] eqn:Ep; [|done].
  assert (match getProp credentials (js "write_key") with
          | Some (JString apiKey) =>
              if truthy apiKey && (0 <? length (trim apiKey))%nat
              then Some (trim apiKey) else None
          | _ => None
          end = Some key →
          ∃ apiKey, getProp credentials (js "write_key") = Some (JString apiKey)
                    ∧ key = trim apiKey
                    ∧ (0 <? length (trim apiKey))%nat = true) as Hprop.
  { destruct (getProp credentials (js "write_key")) as [[| | |apiKey| |]|];
      try done.
    destruct (truthy apiKey); [|done]. simpl.
    destruct (0 <? length (trim apiKey))%nat eqn:E; [|done].
    intros [= <-]. by exists apiKey. }
  intros H.
  assert (∃ apiKey, getProp credentials (js "write_key") = Some (JString apiKey)
                    ∧ key = trim apiKey
                    ∧ (0 <? length (trim apiKey))%nat = true)
    as (apiKey & Hp & Hk & Hl).
  { destruct credentials; try done; by apply Hprop. }
  by exists data, credentials, apiKey.
Qed.

(** X18.  The API key is never blank.  A key [getApiKey] returns is not
    empty and has no white space at either end.  It is the trimmed
    environment variable when that holds more than white space, whatever
    the credentials file holds; otherwise it is the trimmed [write_key]
    string of the credentials file, which must be JSON. *)
Theorem getApiKey_trimmed (envKey file : option jsstring) (key : jsstring) :
  getApiKey envKey file = Some key →
  key ≠ [] ∧ isTrimmed key
  ∧ match envKey with
    | Some e => ¬ isBlank e → key = trim e
    | None => True
    end
  ∧ ((∃ e, envKey = Some e ∧ ¬ isBlank e)
     ∨ ∃ data credentials apiKey,
         file = Some data ∧ parse data = Some credentials
         ∧ getProp credentials (js "write_key") = Some (JString apiKey)
         ∧ key = trim apiKey).
Proof.
  unfold getApiKey. intros H.
  assert (loadApiKey file = Some key →
          key ≠ [] ∧ isTrimmed key
          ∧ ∃ data credentials apiKey,
              file = Some data ∧ parse data = Some credentials
              ∧ getProp credentials (js "write_key") = Some (JString apiKey)
              ∧ key = trim apiKey) as Hfile.
  { intros Hload.
    apply loadApiKey_Some in Hload
      as (data & credentials & apiKey & Hf & Hp & Hg & -> & Hl).
    destruct (trim_nonempty _ Hl) as [Hne Ht].
    split; [done|]. split; [done|]. by exists data, credentials, apiKey. }
  destruct envKey as [e|].
  - destruct (truthy e && (0 <? length (trim e))%nat) eqn:E.
    + injection H as <-. apply andb_true_iff in E as [_ E].
      destruct (trim_nonempty _ E) as [Hne Ht].
      split; [done|]. split; [done|]. split; [done|].
      left. exists e. split; [done|]. intros Hb. by apply trim_blank_nil in Hb.
    + destruct (Hfile H) as (Hne & Ht & Hsrc).
      split; [done|]. split; [done|]. split; [|by right].
      intros Hnb. exfalso. apply Hnb. apply trim_nil_blank.
      apply andb_false_iff in E as [E|E].
      * by destruct e.
      * apply Nat.ltb_ge in E. destruct (trim e); [done|simpl in E; lia].
  - destruct (Hfile H) as (Hne & Ht & Hsrc).
    split; [done|]. split; [done|]. split; [done|]. by right.
Qed.

Lemma getApiKey_trimmed_witness :
  js "vk_123" ≠ [] ∧ isTrimmed (js "vk_123")
  ∧ (¬ isBlank (js "  ") → js "vk_123" = trim (js "  "))
  ∧ ((∃ e, Some (js "  ") = Some e ∧ ¬ isBlank e)
     ∨ ∃ data credentials apiKey,
         Some paddedCredentials = Some data ∧ parse data = Some credentials
         ∧ getProp credentials (js "write_key") = Some (JString apiKey)
         ∧ js "vk_123" = trim apiKey).
Proof.
  apply (getApiKey_trimmed (Some (js "  ")) (Some paddedCredentials) (js "vk_123")).
  vm_compute. reflexivity.
Defined.

End CredentialsFacts.


(** ** Slash commands *)

Section SlashCommandFacts.
Import Text SlashCommand.

Lemma splitWhiteSpace_nonempty (s acc : jsstring) (skipping : bool) :
  splitWhiteSpace s acc skipping ≠ [].
Proof.
  revert acc skipping. induction s as [|c r IH]; intros acc skipping; [done|].
  simpl. destruct (isWhiteSpace c); [|apply IH].
  destruct skipping; [apply IH|done].
Qed.

Lemma splitWhiteSpace_noWhiteSpace (s acc : jsstring) (skipping : bool) :
  noWhiteSpace acc →
  Forall noWhiteSpace (splitWhiteSpace s acc skipping).
Proof.
  revert acc skipping. induction s as [|c r IH]; intros acc skipping Hacc.
  - simpl. constructor; [|constructor]. by apply Forall_rev.
  - simpl. destruct (isWhiteSpace c) eqn:Ec.
    + destruct skipping; [by apply IH|].
      constructor; [by apply Forall_rev|]. apply IH. constructor.
    + apply IH. by constructor.
Qed.

(** The first piece of a text and what is left after it. *)
Lemma splitWhiteSpace_first (s acc t : jsstring) (ts : list jsstring) :
  splitWhiteSpace s acc false = t :: ts →
  ∃ t' rest, t = rev acc ++ t' ∧ s = t' ++ rest ∧ (rest = [] ↔ ts = []).
Proof.
  revert acc. induction s as [|c r IH]; intros acc.
  - simpl. intros [= <- <-]. exists [], []. by rewrite app_nil_r.
  - simpl. destruct (isWhiteSpace c).
    + intros [= <- <-]. exists [], (c :: r). rewrite app_nil_r.
      split; [done|]. split; [done|].
      split; [done|]. intros E. by apply splitWhiteSpace_nonempty in E.
    + intros H. destruct (IH _ H) as (t' & rest & -> & -> & Hrest).
      exists (c :: t'), rest. split; [|done].
      simpl. by rewrite <- app_assoc.
Qed.

(** The last piece of a text that does not end in white space is not
    empty. *)
Lemma splitWhiteSpace_last (s acc : jsstring) (skipping : bool) (t : jsstring) :
  (∀ c, last s = Some c → isWhiteSpace c = false) →
  (s = [] → acc ≠ []) →
  last (splitWhiteSpace s acc skipping) = Some t → t ≠ [].
Proof.
  revert acc skipping. induction s as [|c r IH]; intros acc skipping Hlast Hacc.
  - simpl. intros [= <-]. intros E. apply (Hacc eq_refl).
    apply (f_equal (@rev N)) in E. by rewrite rev_involutive in E.
  - assert (∀ d, last r = Some d → isWhiteSpace d = false) as Hr.
    { intros d Hd. apply Hlast. destruct r; [done|]. by rewrite last_cons_cons. }
    simpl. destruct (isWhiteSpace c) eqn:Ec.
    + assert (r ≠ []) as Hne.
      { intros ->. specialize (Hlast c eq_refl). congruence. }
      destruct skipping.
      * apply IH; [done|done].
      * destruct (splitWhiteSpace r [] true) as [|x l] eqn:E.
        { by apply splitWhiteSpace_nonempty in E. }
        rewrite last_cons_cons. rewrite <- E. apply IH; [done|done].
    + apply IH; [done|]. done.
Qed.

Lemma join_last (sep : jsstring) (l : list jsstring) (t : jsstring) :
  last l = Some t → ∃ pre, MessageParts.join sep l = pre ++ t.
Proof.
  induction l as [|x l IH]; [done|].
  destruct l as [|y l'].
  - intros [= <-]. by exists [].
  - rewrite last_cons_cons. intros H. destruct (IH H) as (pre & E).
    exists (x ++ sep ++ pre).
    change (MessageParts.join sep (x :: y :: l'))
      with (x ++ sep ++ MessageParts.join sep (y :: l')).
    rewrite E. by rewrite <- !app_assoc.
Qed.

Lemma startsWith_slash (c : N) (s : jsstring) :
  Format.startsWith (c :: s) (js "/") = (c =? 47).
Proof.
  change (js "/") with [47].
  destruct s; simpl; by rewrite andb_true_r.
Qed.

Lemma splitWhiteSpace_skip (s acc : jsstring) :
  splitWhiteSpace s acc true = splitWhiteSpace (trimStart s) acc false.
Proof.
  induction s as [|c r IH]; [done|].
  simpl. destruct (isWhiteSpace c) eqn:Ec; [done|].
  simpl. by rewrite Ec.
Qed.

Lemma spaced_head (text : jsstring) (pieces : list jsstring) (c : N) :
  spaced text pieces → head text = Some c → isWhiteSpace c = true.
Proof.
  intros [|blank piece rest ps Hne Hblank _ _ _]; [done|].
  destruct blank as [|b blank]; [done|].
  intros [= <-]. by apply Forall_inv in Hblank.
Qed.

Lemma spaced_nil_iff (text : jsstring) (pieces : list jsstring) :
  spaced text pieces → (text = [] ↔ pieces = []).
Proof.
  intros [|blank piece rest ps Hne _ _ _ _]; [done|].
  split; [|done]. intros E. by destruct blank.
Qed.

(** The pieces of a text that does not end in white space: the first one
    runs up to the first white space, the others are those of what
    follows. *)
Lemma splitWhiteSpace_spaced (n : nat) :
  ∀ (s acc t : jsstring) (ts : list jsstring),
    (length s ≤ n)%nat →
    (∀ c, last s = Some c → isWhiteSpace c = false) →
    splitWhiteSpace s acc false = t :: ts →
    ∃ t' following,
      t = rev acc ++ t' ∧ s = t' ++ following
      ∧ noWhiteSpace t' ∧ spaced following ts.
Proof.
  induction n as [|n IH]; intros s acc t ts Hlen Hlast.
  - destruct s; [|simpl in Hlen; lia]. simpl. intros [= <- <-].
    exists [], []. rewrite app_nil_r.
    split; [done|]. split; [done|]. split; [constructor|constructor].
  - destruct s as [|c r].
    { simpl. intros [= <- <-]. exists [], []. rewrite app_nil_r.
      split; [done|]. split; [done|]. split; [constructor|constructor]. }
    assert (∀ d, last r = Some d → isWhiteSpace d = false) as Hr.
    { intros d Hd. apply Hlast. destruct r; [done|]. by rewrite last_cons_cons. }
    simpl in Hlen. simpl. destruct (isWhiteSpace c) eqn:Ec.
    + intros [= <- <-].
      assert (r ≠ []) as Hne.
      { intros ->. specialize (Hlast c eq_refl). congruence. }
      destruct (trimStart_split r) as (blank & Er & Hblank & Hhead).
      destruct (trimStart r) as [|d r2] eqn:Et.
      { exfalso. rewrite app_nil_r in Er. subst blank.
        destruct (last r) as [x|] eqn:El; [|by apply last_None in El].
        specialize (Hr x eq_refl).
        apply last_Some_elem_of in El.
        unfold isBlank in Hblank. rewrite Forall_forall in Hblank.
        apply Hblank in El. congruence. }
      rewrite splitWhiteSpace_skip, Et.
      destruct (splitWhiteSpace (d :: r2) [] false) as [|piece ps] eqn:Es.
      { by apply splitWhiteSpace_nonempty in Es. }
      assert (length (d :: r2) ≤ n)%nat as Hlen2.
      { apply (f_equal length) in Er. rewrite length_app in Er. lia. }
      assert (∀ x, last (d :: r2) = Some x → isWhiteSpace x = false) as Hlast2.
      { intros x Hx. apply Hr. rewrite Er, last_app, Hx. done. }
      destruct (IH (d :: r2) [] piece ps Hlen2 Hlast2 Es)
        as (piece' & rest & Ep & Esplit & Hnows & Hspaced).
      simpl in Ep. subst piece'.
      assert (piece ≠ []) as Hpne.
      { intros ->. simpl in Esplit. subst rest.
        pose proof (spaced_head _ _ d Hspaced eq_refl) as Hd.
        specialize (Hhead d eq_refl). congruence. }
      exists [], (c :: r). rewrite app_nil_r.
      split; [done|]. split; [done|]. split; [constructor|].
      rewrite Er, Esplit.
      change (c :: blank ++ piece ++ rest) with ((c :: blank) ++ piece ++ rest).
      apply spaced_cons; [done|by constructor|done|done|done].
    + intros H.
      destruct (IH r (c :: acc) t ts ltac:(lia) Hr H)
        as (t' & following & -> & -> & Hnows & Hspaced).
      exists (c :: t'), following.
      split; [simpl; by rewrite <- app_assoc|]. split; [done|].
      split; [by constructor|done].
Qed.

Lemma join_pieces_trimmed (pieces : list jsstring) :
  Forall (fun piece => piece ≠ [] ∧ noWhiteSpace piece) pieces →
  isTrimmed (MessageParts.join (js " ") pieces).
Proof.
  intros Hall. destruct pieces as [|p ps]; [done|]. split.
  - apply Forall_inv in Hall as [Hne Hnows].
    destruct p as [|c p]; [done|]. apply Forall_inv in Hnows.
    intros x. destruct ps; intros [= <-]; done.
  - destruct (last (p :: ps)) as [t|] eqn:El; [|by apply last_None in El].
    destruct (join_last (js " ") _ _ El) as (pre & ->).
    apply last_Some_elem_of in El. rewrite Forall_forall in Hall.
    destruct (Hall t El) as [Hne Hnows].
    intros x. rewrite last_app.
    destruct (last t) as [y|] eqn:Ey; [|by apply last_None in Ey].
    intros [= <-]. apply last_Some_elem_of in Ey.
    unfold noWhiteSpace in Hnows. rewrite Forall_forall in Hnows. by apply Hnows.
Qed.

Lemma spaced_pieces (text : jsstring) (pieces : list jsstring) :
  spaced text pieces →
  Forall (fun piece => piece ≠ [] ∧ noWhiteSpace piece) pieces.
Proof. induction 1; constructor; done. Qed.

Lemma join_pieces_nil (pieces : list jsstring) :
  Forall (fun piece => piece ≠ [] ∧ noWhiteSpace piece) pieces →
  MessageParts.join (js " ") pieces = [] → pieces = [].
Proof.
  intros Hall. destruct pieces as [|p ps]; [done|].
  apply Forall_inv in Hall as [Hne _].
  destruct p as [|c p]; [done|]. by destruct ps.
Qed.

Section SlashCaseTable.
Variable toLowerCase : jsstring → jsstring.

(** X19.  What a slash command is.  [parseSlashCommand] reads a command
    exactly from the texts whose trimmed form is a slash followed by more
    than white space.  The command's raw name is the text after the slash
    and the white space behind it, up to the next white space: it is not
    empty and holds no white space, and what follows it is empty or
    starts with white space.  The name is the raw name in lower case.
    The arguments are the pieces between the runs of white space of what
    follows the raw name, joined by single spaces: they have no white
    space at either end and are empty exactly when nothing follows the
    raw name. *)
Theorem parseSlashCommand_shape (input : jsstring) :
  match parseSlashCommand toLowerCase input with
  | None => ∀ rest, trim input = 47 :: rest → isBlank rest
  | Some parsed =>
      ∃ rest following pieces,
        trim input = 47 :: rest
        ∧ trim rest = rawName parsed ++ following
        ∧ rawName parsed ≠ [] ∧ noWhiteSpace (rawName parsed)
        ∧ (∀ c, head following = Some c → isWhiteSpace c = true)
        ∧ name parsed = toLowerCase (rawName parsed)
        ∧ spaced following pieces
        ∧ arguments parsed = MessageParts.join (js " ") pieces
        ∧ isTrimmed (arguments parsed)
        ∧ (arguments parsed = [] ↔ following = [])
  end.
Proof.
  unfold parseSlashCommand.
  destruct (trim input) as [|c rest] eqn:Etrim; [done|].
  rewrite startsWith_slash.
  destruct (N.eqb_spec c 47) as [->|Hc]; cbn [negb].
  2:{ intros rest' [= ? _]. done. }
  change (drop 1 (47 :: rest)) with rest.
  destruct (trim rest) as [|b body] eqn:Ebody; cbn [truthy negb].
  { intros rest' [= <-]. by apply trim_nil_blank. }
  pose proof (trim_isTrimmed rest) as [Hhead Hlast]. rewrite Ebody in Hhead, Hlast.
  destruct (splitWhiteSpace (b :: body) [] false) as [|raw pieces] eqn:Esplit.
  { by apply splitWhiteSpace_nonempty in Esplit. }
  destruct (splitWhiteSpace_spaced (length (b :: body)) (b :: body) [] raw pieces
              ltac:(done) Hlast Esplit)
    as (raw' & following & Eraw & Efirst & Hraw & Hspaced).
  simpl in Eraw. subst raw'.
  assert (raw ≠ []) as Hne.
  { intros ->. simpl in Efirst. subst following.
    pose proof (spaced_head _ _ b Hspaced eq_refl) as Hb.
    specialize (Hhead b eq_refl). congruence. }
  destruct raw as [|r0 raw]; [done|]. cbn [truthy negb].
  pose proof (spaced_pieces _ _ Hspaced) as Hpieces.
  pose proof (join_pieces_trimmed _ Hpieces) as Htrimmed.
  assert (trim (MessageParts.join (js " ") pieces)
          = MessageParts.join (js " ") pieces) as Ejoin.
  { rewrite <- (app_nil_r (MessageParts.join (js " ") pieces)) at 1.
    by apply (trim_wrapped [] _ []); [constructor|constructor|]. }
  exists rest, following, pieces. cbn [rawName name arguments].
  rewrite Ejoin.
  split; [done|]. split; [by rewrite Ebody|]. split; [done|]. split; [done|].
  split; [intros x; by apply (spaced_head following pieces)|].
  split; [done|]. split; [done|]. split; [done|]. split; [done|].
  rewrite (spaced_nil_iff _ _ Hspaced). split.
  - by apply join_pieces_nil.
  - by intros ->.
Qed.

End SlashCaseTable.

End SlashCommandFacts.


(** ** Pending permissions *)

Section PendingPermissionsFacts.
Import Permission PermissionOptions PendingPermissions.

Lemma mapSet_keys (key : jsstring) (entry : PendingPermission) (m : Pending) :
  m.*1 = (mapSet key entry m).*1 ∧ key ∈ m.*1
  ∨ (mapSet key entry m).*1 = m.*1 ++ [key] ∧ key ∉ m.*1.
Proof.
  induction m as [|[k e] r IH]; csimpl.
  - right. split; [done|]. apply not_elem_of_nil.
  - destruct (decide (k = key)) as [->|Hne]; csimpl.
    + left. split; [done|]. apply list_elem_of_here.
    + destruct IH as [[E Hin]|[E Hnot]].
      * left. split; [by rewrite <- E|]. by apply list_elem_of_further.
      * right. split; [by rewrite E|].
        rewrite elem_of_cons. intros [?|?]; [by subst|done].
Qed.

Lemma mapSet_NoDup (key : jsstring) (entry : PendingPermission) (m : Pending) :
  NoDup m.*1 → NoDup (mapSet key entry m).*1.
Proof.
  intros H. destruct (mapSet_keys key entry m) as [[E _]|[E Hnot]].
  - by rewrite <- E.
  - rewrite E. apply NoDup_app. split; [done|]. split.
    + intros x Hx Hk. apply list_elem_of_singleton in Hk. by subst.
    + apply NoDup_singleton.
Qed.

Lemma mapDelete_NoDup (key : jsstring) (m : Pending) :
  NoDup m.*1 → NoDup (mapDelete key m).*1.
Proof.
  intros H. unfold mapDelete.
  induction m as [|[k e] r IH]; [done|].
  simpl in H. apply NoDup_cons in H as [Hk Hr].
  rewrite filter_cons. destruct (decide _); simpl; [|by apply IH].
  apply NoDup_cons. split; [|by apply IH].
  intros Hin. apply Hk.
  apply list_elem_of_fmap in Hin as ([k' e'] & -> & Hin).
  apply list_elem_of_filter in Hin as [_ Hin].
  apply list_elem_of_fmap. by exists (k', e').
Qed.

Lemma afterEvents_NoDup (events : list PermissionEvent) :
  NoDup (afterEvents events).*1.
Proof.
  unfold afterEvents.
  induction events as [|e events IH] using rev_ind; [constructor|].
  rewrite foldl_app. simpl. destruct e; simpl.
  - by apply mapSet_NoDup.
  - by apply mapDelete_NoDup.
Qed.

Lemma mapDelete_middle (key : jsstring) (entry : PendingPermission)
    (before after : Pending) :
  NoDup (before ++ (key, entry) :: after).*1 →
  mapDelete key (before ++ (key, entry) :: after) = before ++ after.
Proof.
  intros H. rewrite fmap_app in H. simpl in H.
  apply NoDup_app in H as (_ & Hdisj & Hafter).
  apply NoDup_cons in Hafter as [Hnot _].
  assert (∀ l : Pending, key ∉ l.*1 → mapDelete key l = l) as Hkeep.
  { intros l Hl. unfold mapDelete. induction l as [|[k e] l IH]; [done|].
    simpl in Hl. rewrite not_elem_of_cons in Hl. destruct Hl as [Hne Hl].
    rewrite filter_cons. simpl. rewrite decide_True by done.
    f_equal. by apply IH. }
  unfold mapDelete. rewrite filter_app, filter_cons. simpl.
  rewrite decide_False by (intros Hne; by apply Hne).
  fold (mapDelete key before). fold (mapDelete key after).
  rewrite !Hkeep; [done|done|].
  intros Hin. apply (Hdisj key Hin). apply list_elem_of_here.
Qed.

Section PendingCaseTable.
Variable toLowerCase : jsstring → jsstring.

Lemma firstMatch_Some (userMessage : jsstring) (m : Pending)
    (permId : jsstring) (pending : PendingPermission) (matched : Response) :
  firstMatch toLowerCase userMessage m = Some (permId, pending, matched) →
  ∃ before after,
    m = before ++ (permId, pending) :: after
    ∧ Forall (fun e => parsePermissionReply toLowerCase userMessage
                         (options e.2) = None) before
    ∧ parsePermissionReply toLowerCase userMessage (options pending)
      = Some matched.
Proof.
  induction m as [|[k e] r IH]; [done|]. simpl.
  destruct (parsePermissionReply toLowerCase userMessage (options e))
    as [res|] eqn:E.
  - intros [= -> -> ->]. exists [], r. by repeat split.
  - intros H. destruct (IH H) as (before & after & -> & Hb & Hm).
    exists ((k, e) :: before), after.
    split; [done|]. split; [by constructor|done].
Qed.

Lemma firstMatch_None (userMessage : jsstring) (m : Pending) :
  firstMatch toLowerCase userMessage m = None →
  Forall (fun e => parsePermissionReply toLowerCase userMessage
                     (options e.2) = None) m.
Proof.
  induction m as [|[k e] r IH]; [constructor|]. simpl.
  destruct (parsePermissionReply toLowerCase userMessage (options e))
    as [res|] eqn:E; [done|].
  intros H. constructor; [done|by apply IH].
Qed.

Lemma handleControlCommand_no_payload (content : jsstring)
    (client : Control.Client) (agents : option (list Control.Agent))
    (w : ControlCommand.World) :
  match ControlParser.extractControlPayload content with
  | None =>
      ControlCommand.handleControlCommand toLowerCase content client agents w
      = (false, w)
  | Some _ =>
      (ControlCommand.handleControlCommand toLowerCase content client agents w).1
      = true
  end.
Proof.
  unfold ControlCommand.handleControlCommand.
  destruct (ControlParser.extractControlPayload content) as [payload|]; [|done].
  cbv zeta. by repeat destruct (ControlParser.isString _ _).
Qed.

(** X20.  A reply answers one permission, the oldest it matches.  After
    any events, a message from the dashboard that holds a control payload
    answers no permission and leaves them all pending.  Any other message
    is posted as the answer to the permission asked first among those
    whose options it matches, with the response matched; that permission
    is removed and the others stay pending in the order they were asked.
    A message that matches no pending permission leaves them all
    pending. *)
Theorem interceptUserMessage_oldest_match (events : list PermissionEvent)
    (userMessage : jsstring) (client : Control.Client)
    (agents : option (list Control.Agent)) (w : ControlCommand.World) :
  let m := afterEvents events in
  match interceptUserMessage toLowerCase userMessage client agents w m with
  | (w', Some reply, m') =>
      ControlParser.extractControlPayload userMessage = None
      ∧ w' = w
      ∧ ∃ before pending after,
          m = before ++ (replyPermission reply, pending) :: after
          ∧ m' = before ++ after
          ∧ replySession reply = sessionID pending
          ∧ parsePermissionReply toLowerCase userMessage (options pending)
            = Some (replyResponse reply)
          ∧ Forall (fun e => parsePermissionReply toLowerCase userMessage
                               (options e.2) = None) before
  | (w', None, m') =>
      m' = m
      ∧ (ControlParser.extractControlPayload userMessage ≠ None
         ∨ (w' = w
            ∧ Forall (fun e => parsePermissionReply toLowerCase userMessage
                                 (options e.2) = None) m))
  end.
Proof.
  intros m. pose proof (afterEvents_NoDup events) as Hnd. fold m in Hnd.
  unfold interceptUserMessage.
  pose proof (handleControlCommand_no_payload userMessage client agents w)
    as Hcontrol.
  destruct (ControlParser.extractControlPayload userMessage) as [payload|]
    eqn:Epayload.
  { destruct (ControlCommand.handleControlCommand _ _ _ _ _) as [handled w'].
    simpl in Hcontrol. subst handled. split; [done|]. by left. }
  rewrite Hcontrol. cbv iota.
  unfold replyToPermission.
  destruct (firstMatch toLowerCase userMessage m)
    as [[[permId pending] matched]|] eqn:E.
  - apply firstMatch_Some in E as (before & after & Hm & Hb & Hmatch).
    split; [done|]. split; [done|].
    exists before, pending, after. simpl.
    split; [done|]. split; [|done].
    rewrite Hm. apply mapDelete_middle. by rewrite <- Hm.
  - split; [done|]. right. split; [done|]. by apply firstMatch_None.
Qed.

End PendingCaseTable.

End PendingPermissionsFacts.


(** ** The registry holds the messages still streaming *)

Section OpenMessagesFacts.
Import MessageParts Orchestrator Replay.

Lemma handlePartUpdate_dom (part : Part) (delta : option jsstring)
    (registry : gmap jsstring MessagePartsState) :
  dom (handlePartUpdate part delta registry)
  = match messageID part with
    | Some (c :: r) => {[ c :: r ]} ∪ dom registry
    | _ => dom registry
    end.
Proof.
  unfold handlePartUpdate.
  destruct (messageID part) as [[|c r]|]; [done| |done].
  cbn [truthy negb]. unfold getMessageState.
  destruct (registry !! (c :: r)) as [state|] eqn:E.
  - by rewrite dom_insert_L.
  - rewrite !dom_insert_L. set_solver.
Qed.

(** X7.  Part state is kept exactly while a message streams.  After any
    events, the registry holds state for the messages that had a part
    event since their last completion as an assistant message, and for no
    others: the state of a message does not outlive its completion,
    whether or not a text was forwarded. *)
Theorem registry_holds_open_messages (events : list Event) :
  dom (messagePartsById (run events initial)) = openMessages events.
Proof.
  induction events as [|event events IH] using rev_ind; [done|].
  rewrite run_snoc. unfold openMessages. rewrite foldl_app.
  fold (openMessages events). rewrite <- IH. cbn [foldl].
  destruct event as [terminal formatted|part delta|message]; cbn [handleEvent opens].
  - done.
  - cbn [fst messagePartsById]. apply handlePartUpdate_dom.
  - destruct (onMessageUpdated_discards_state message (run events initial))
      as [Hdone Hother].
    destruct (role message) eqn:Er.
    + by rewrite Hother by (by left).
    + destruct (isCompleted message) eqn:Ec.
      * rewrite Hdone by done. by rewrite dom_delete_L.
      * by rewrite Hother by (by right).
Qed.

End OpenMessagesFacts.


(** ** The diff of an edit *)

Section DiffBlockFacts.
Import DiffBlock.

Lemma commonPrefixOf_split (a b : list jsstring) :
  a = commonPrefixOf a b ++ drop (length (commonPrefixOf a b)) a
  ∧ b = commonPrefixOf a b ++ drop (length (commonPrefixOf a b)) b.
Proof.
  revert b. induction a as [|x a IH]; intros [|y b]; try done.
  simpl. destruct (decide (x = y)) as [->|Hne]; [|done].
  destruct (IH b) as [Ha Hb]. simpl. split; by f_equal.
Qed.

Lemma drop_lookup_cons {A} (l : list A) (n : nat) (x : A) :
  l !! n = Some x → drop n l = x :: drop (S n) l.
Proof.
  revert n. induction l as [|y l IH]; intros [|n]; simpl; try done.
  - by intros [= ->].
  - apply IH.
Qed.

Lemma suffixLoop_suffix (remaining i : nat) (a b acc : list jsstring) :
  (1 ≤ i)%nat → length acc = (i - 1)%nat →
  (i - 1 + remaining ≤ length a)%nat → (i - 1 + remaining ≤ length b)%nat →
  acc = drop (length a - (i - 1)) a → acc = drop (length b - (i - 1)) b →
  let r := suffixLoop remaining i a b acc in
  r = drop (length a - length r) a ∧ r = drop (length b - length r) b
  ∧ (length r ≤ length a)%nat ∧ (length r ≤ length b)%nat.
Proof.
  revert i acc. induction remaining as [|k IH]; intros i acc Hi Hlen Ha Hb Ea Eb.
  - simpl. rewrite Hlen. repeat split; [done|done|lia|lia].
  - cbn [suffixLoop].
    assert (∀ r, r = acc →
              r = drop (length a - length r) a ∧ r = drop (length b - length r) b
              ∧ (length r ≤ length a)%nat ∧ (length r ≤ length b)%nat) as Hstop.
    { intros r ->. rewrite Hlen. repeat split; [done|done|lia|lia]. }
    destruct (a !! (length a - i)%nat) as [x|] eqn:Ex; [|by apply Hstop].
    destruct (b !! (length b - i)%nat) as [y|] eqn:Ey; [|by apply Hstop].
    destruct (decide (x = y)) as [<-|Hne]; [|by apply Hstop].
    apply IH.
    + lia.
    + simpl. lia.
    + lia.
    + lia.
    + rewrite Ea. replace (length a - (S i - 1))%nat with (length a - i)%nat by lia.
      replace (length a - (i - 1))%nat with (S (length a - i)) by lia.
      symmetry. by apply drop_lookup_cons.
    + rewrite Eb. replace (length b - (S i - 1))%nat with (length b - i)%nat by lia.
      replace (length b - (i - 1))%nat with (S (length b - i)) by lia.
      symmetry. by apply drop_lookup_cons.
Qed.

Lemma oldSide_app (l1 l2 : list jsstring) :
  oldSide (l1 ++ l2) = oldSide l1 ++ oldSide l2.
Proof. apply omap_app. Qed.

Lemma newSide_app (l1 l2 : list jsstring) :
  newSide (l1 ++ l2) = newSide l1 ++ newSide l2.
Proof. apply omap_app. Qed.

Lemma sides_context (l : list jsstring) :
  oldSide (map (fun line => js "  " ++ line) l) = l
  ∧ newSide (map (fun line => js "  " ++ line) l) = l.
Proof. induction l as [|x l [IH1 IH2]]; [done|]. split; simpl; by f_equal. Qed.

Lemma sides_removed (l : list jsstring) :
  oldSide (map (fun line => js "- " ++ line) l) = l
  ∧ newSide (map (fun line => js "- " ++ line) l) = [].
Proof. induction l as [|x l [IH1 IH2]]; [done|]. split; simpl; [by f_equal|done]. Qed.

Lemma sides_added (l : list jsstring) :
  oldSide (map (fun line => js "+ " ++ line) l) = []
  ∧ newSide (map (fun line => js "+ " ++ line) l) = l.
Proof. induction l as [|x l [IH1 IH2]]; [done|]. split; simpl; [done|by f_equal]. Qed.

(** X21.  A diff hides only what the two texts share.  For an edit that
    replaces one text that is not empty by another, the block
    [formatDiffBlock] renders stands between its two fences, and the
    lines of the old text are those the block shows as context or as
    removed, the lines of the new text those it shows as context or as
    added, each between the same hidden lines before and the same hidden
    lines after. *)
Theorem formatDiffBlock_consistent (oldText newText : jsstring) :
  oldText ≠ [] → newText ≠ [] →
  ∃ diffLines hiddenBefore hiddenAfter,
    formatDiffBlock oldText newText
    = [js "```diff"] ++ diffLines ++ [js "```"]
    ∧ splitLines oldText = hiddenBefore ++ oldSide diffLines ++ hiddenAfter
    ∧ splitLines newText = hiddenBefore ++ newSide diffLines ++ hiddenAfter.
Proof.
  intros Hold Hnew. unfold formatDiffBlock.
  rewrite (truthy_nonempty oldText), (truthy_nonempty newText) by done.
  cbn [negb andb].
  set (oldLines := splitLines oldText). set (newLines := splitLines newText).
  set (commonPrefix := commonPrefixOf oldLines newLines).
  set (oldRemaining := drop (length commonPrefix) oldLines).
  set (newRemaining := drop (length commonPrefix) newLines).
  destruct (commonPrefixOf_split oldLines newLines) as [Eold Enew].
  fold commonPrefix in Eold, Enew. fold oldRemaining in Eold.
  fold newRemaining in Enew.
  set (commonSuffix :=
         if (0 <? length oldRemaining)%nat && (0 <? length newRemaining)%nat
         then suffixLoop (Nat.min (length oldRemaining) (length newRemaining)) 1
                oldRemaining newRemaining []
         else []).
  assert (oldRemaining
          = take (length oldRemaining - length commonSuffix) oldRemaining
            ++ commonSuffix
          ∧ newRemaining
            = take (length newRemaining - length commonSuffix) newRemaining
              ++ commonSuffix) as [Esold Esnew].
  { assert (commonSuffix
            = drop (length oldRemaining - length commonSuffix) oldRemaining
            ∧ commonSuffix
              = drop (length newRemaining - length commonSuffix) newRemaining)
      as [E1 E2].
    { unfold commonSuffix.
      destruct ((0 <? length oldRemaining)%nat && (0 <? length newRemaining)%nat).
      - destruct (suffixLoop_suffix
                    (Nat.min (length oldRemaining) (length newRemaining)) 1
                    oldRemaining newRemaining [])
          as (H1 & H2 & _); try done; try (simpl; lia).
        + simpl. rewrite Nat.sub_0_r. by rewrite drop_all.
        + simpl. rewrite Nat.sub_0_r. by rewrite drop_all.
      - simpl. rewrite !Nat.sub_0_r. by rewrite !drop_all. }
    split.
    - rewrite E1 at 2. by rewrite take_drop.
    - rewrite E2 at 2. by rewrite take_drop. }
  set (changedOld :=
         if (0 <? length commonSuffix)%nat
         then take (length oldRemaining - length commonSuffix) oldRemaining
         else oldRemaining).
  set (changedNew :=
         if (0 <? length commonSuffix)%nat
         then take (length newRemaining - length commonSuffix) newRemaining
         else newRemaining).
  assert (oldRemaining = changedOld ++ commonSuffix
          ∧ newRemaining = changedNew ++ commonSuffix) as [Ecold Ecnew].
  { unfold changedOld, changedNew.
    destruct (0 <? length commonSuffix)%nat eqn:E; [done|].
    apply Nat.ltb_ge in E. destruct commonSuffix; [|simpl in E; lia].
    by rewrite !app_nil_r. }
  destruct (((0 <? length commonPrefix)%nat || (0 <? length commonSuffix)%nat)
            && ((0 <? length changedOld)%nat || (0 <? length changedNew)%nat)).
  - exists (map (fun line => js "  " ++ line)
              (drop (length commonPrefix - 2) commonPrefix)
            ++ map (fun line => js "- " ++ line) changedOld
            ++ map (fun line => js "+ " ++ line) changedNew
            ++ map (fun line => js "  " ++ line) (take 2 commonSuffix)),
      (take (length commonPrefix - 2) commonPrefix), (drop 2 commonSuffix).
    split; [done|].
    rewrite !oldSide_app, !newSide_app.
    rewrite !(proj1 (sides_context _)), !(proj2 (sides_context _)).
    rewrite (proj1 (sides_removed _)), (proj2 (sides_removed _)).
    rewrite (proj1 (sides_added _)), (proj2 (sides_added _)).
    cbn [app]. split.
    + rewrite Eold, Ecold.
      rewrite <- (take_drop (length commonPrefix - 2) commonPrefix) at 1.
      rewrite <- (take_drop 2 commonSuffix) at 1.
      by rewrite <- !app_assoc.
    + rewrite Enew, Ecnew.
      rewrite <- (take_drop (length commonPrefix - 2) commonPrefix) at 1.
      rewrite <- (take_drop 2 commonSuffix) at 1.
      by rewrite <- !app_assoc.
  - exists (map (fun line => js "- " ++ line) oldLines
            ++ map (fun line => js "+ " ++ line) newLines), [], [].
    split; [done|].
    rewrite !oldSide_app, !newSide_app.
    rewrite (proj1 (sides_removed _)), (proj2 (sides_removed _)).
    rewrite (proj1 (sides_added _)), (proj2 (sides_added _)).
    cbn [app]. by rewrite !app_nil_r.
Qed.

Lemma formatDiffBlock_consistent_witness :
  ∃ diffLines hiddenBefore hiddenAfter,
    formatDiffBlock (sixLines "c") (sixLines "C")
    = [js "```diff"] ++ diffLines ++ [js "```"]
    ∧ splitLines (sixLines "c") = hiddenBefore ++ oldSide diffLines ++ hiddenAfter
    ∧ splitLines (sixLines "C") = hiddenBefore ++ newSide diffLines ++ hiddenAfter.
Proof.
  apply (formatDiffBlock_consistent (sixLines "c") (sixLines "C")).
  - vm_compute. discriminate.
  - vm_compute. discriminate.
Defined.

End DiffBlockFacts.
